(** * A next-fit boundary-tag allocator (mm.c), embedded and verified

    The heap is raw memory: a byte at every address.  Headers and footers
    are 32-bit little-endian words overlaid on it, read and written through
    [GET] and [PUT].  Pointers are addresses in [Z], with [NULL] as 0 and
    the pointer -1, by which [mem_sbrk] signals failure, as -1; pointer
    arithmetic does not wrap.  Values of type [uint32_t], [size_t] (64 bits) and [int]
    are integers in [Z] whose conversions are written out where the C code
    converts ([u32], [usize], [to_int]).  The two globals of the file,
    [heap_listp] and [next_fit], and the break of the memory system live in
    a record that every operation threads through.  The two loops of
    [find_fit] and the loop of [mm_checkheap] run on fuel.  What
    [mm_checkheap] prints is a list of messages; the message [mm_realloc]
    prints before [exit] is left out.

    The first part is the code.  The second part gives the vocabulary of
    the statements: the heap as a sequence of blocks, the search as the
    specification words it, the runs of a client.  The third part proves
    what the code does on well-formed heaps, that the heaps a client
    reaches stay well formed as long as the size arithmetic does not wrap,
    and what happens when it does.  The last part goes through the rest
    of the file: the tag macros, [mm_init], [extend_heap], what [mm_free],
    [mm_malloc] and [mm_realloc] leave untouched, and the heap checker. *)

From Stdlib Require Import ZArith List Bool Lia.
From Stdlib.Strings Require Import Byte Ascii.
Import ListNotations.
Local Open Scope Z_scope.

(** ** Machine integers *)

(** Conversion to [uint32_t]. *)
Definition u32 (z : Z) : Z := z mod 2 ^ 32.

(** Conversion to [size_t] (64 bits). *)
Definition usize (z : Z) : Z := z mod 2 ^ 64.

(** Conversion to [int] (32 bits, two's complement). *)
Definition to_int (z : Z) : Z := (z + 2 ^ 31) mod 2 ^ 32 - 2 ^ 31.

(** ** Constants and macros *)

Definition WSIZE : Z := 4.
Definition DSIZE : Z := 8.
Definition CHUNKSIZE : Z := Z.shiftl 1 12.
Definition OVERHEAD : Z := 8.
Definition NULL : Z := 0.

(** [static inline int MAX(int x, int y)]: both arguments are converted to
    [int] on the way in. *)
Definition MAX (x y : Z) : Z :=
  let x := to_int x in
  let y := to_int y in
  if x >? y then x else y.

(** [static inline uint32_t PACK(uint32_t size, int alloc)]. *)
Definition PACK (size alloc : Z) : Z :=
  Z.lor (u32 size) (Z.land alloc 1).

(** ** Memory *)

(** A byte at every address.  The model has no unmapped address: a store
    above [mem_max_addr], where a run of the C code may fault, changes the
    byte there like any other store. *)
Definition memory : Type := Z -> byte.

Definition byte_val (b : byte) : Z := Z.of_N (Byte.to_N b).

Definition byte_of (z : Z) : byte :=
  match Byte.of_N (Z.to_N (z mod 256)) with
  | Some b => b
  | None => Byte.x00
  end.

(** [GET]: the little-endian 32-bit word at address [p]. *)
Definition GET (m : memory) (p : Z) : Z :=
  byte_val (m p) + 2 ^ 8 * byte_val (m (p + 1))
  + 2 ^ 16 * byte_val (m (p + 2)) + 2 ^ 24 * byte_val (m (p + 3)).

(** [PUT]: store the 32-bit word [val] at address [p]. *)
Definition PUT (m : memory) (p : Z) (val : Z) : memory :=
  fun a =>
    if a =? p then byte_of val
    else if a =? p + 1 then byte_of (val / 2 ^ 8)
    else if a =? p + 2 then byte_of (val / 2 ^ 16)
    else if a =? p + 3 then byte_of (val / 2 ^ 24)
    else m a.

(** [memcpy(dst, src, n)] for regions that do not overlap: every byte is
    read from the memory before the copy.  For regions that overlap C
    leaves the result undefined. *)
Definition memcpy (m : memory) (dst src n : Z) : memory :=
  fun a => if (dst <=? a) && (a <? dst + n) then m (src + (a - dst)) else m a.

(** [GET(p) & ~0x7]: [~0x7] is the [int] -8, converted to [uint32_t]. *)
Definition GET_SIZE (m : memory) (p : Z) : Z :=
  Z.land (GET m p) (u32 (Z.lnot 7)).

Definition GET_ALLOC (m : memory) (p : Z) : Z :=
  Z.land (GET m p) 1.

Definition HDRP (bp : Z) : Z := bp - WSIZE.

Definition FTRP (m : memory) (bp : Z) : Z :=
  bp + GET_SIZE m (HDRP bp) - DSIZE.

Definition NEXT_BLKP (m : memory) (bp : Z) : Z :=
  bp + GET_SIZE m (bp - WSIZE).

Definition PREV_BLKP (m : memory) (bp : Z) : Z :=
  bp - GET_SIZE m (bp - DSIZE).

(** ** Allocator state *)

Record state : Type := mkstate {
  mem : memory;
  mem_brk : Z;
  mem_max_addr : Z;
  heap_listp : Z;
  next_fit : Z
}.

Definition set_mem (m : memory) (st : state) : state :=
  mkstate m (mem_brk st) (mem_max_addr st) (heap_listp st) (next_fit st).

Definition set_brk (b : Z) (st : state) : state :=
  mkstate (mem st) b (mem_max_addr st) (heap_listp st) (next_fit st).

Definition set_heap_listp (p : Z) (st : state) : state :=
  mkstate (mem st) (mem_brk st) (mem_max_addr st) p (next_fit st).

Definition set_next_fit (p : Z) (st : state) : state :=
  mkstate (mem st) (mem_brk st) (mem_max_addr st) (heap_listp st) p.

Definition put (p val : Z) (st : state) : state :=
  set_mem (PUT (mem st) p val) st.

(** Modelled from the spec: the raw heap-growth primitive [mem_sbrk] of the
    memory system (memlib), which is not part of mm.c.  It extends the
    managed region by [incr] bytes and returns the old top of heap, or
    signals failure, as the pointer -1, when the hard limit would be
    passed; the region it grants follows all earlier ones.  Its parameter
    is an [int]. *)
Definition mem_sbrk (incr : Z) (st : state) : Z * state :=
  let incr := to_int incr in
  if (incr <? 0) || (mem_max_addr st <? mem_brk st + incr)
  then (-1, st)
  else (mem_brk st, set_brk (mem_brk st + incr) st).

(** ** coalesce *)

Definition coalesce (bp : Z) (st : state) : Z * state :=
  let m := mem st in
  let prev_alloc := GET_ALLOC m (FTRP m (PREV_BLKP m bp)) in
  let next_alloc := GET_ALLOC m (HDRP (NEXT_BLKP m bp)) in
  let size := GET_SIZE m (HDRP bp) in
  if negb (prev_alloc =? 0) && negb (next_alloc =? 0) then
    (bp, st)
  else
    let '(bp, st) :=
      if negb (prev_alloc =? 0) && (next_alloc =? 0) then
        let size := usize (size + GET_SIZE m (HDRP (NEXT_BLKP m bp))) in
        let st := put (HDRP bp) (PACK size 0) st in
        let st := put (FTRP (mem st) bp) (PACK size 0) st in
        (bp, st)
      else if (prev_alloc =? 0) && negb (next_alloc =? 0) then
        let size := usize (size + GET_SIZE m (HDRP (PREV_BLKP m bp))) in
        let st := put (FTRP (mem st) bp) (PACK size 0) st in
        let st := put (HDRP (PREV_BLKP (mem st) bp)) (PACK size 0) st in
        (PREV_BLKP (mem st) bp, st)
      else
        let size :=
          usize (size + u32 (GET_SIZE m (HDRP (PREV_BLKP m bp))
                             + GET_SIZE m (FTRP m (NEXT_BLKP m bp)))) in
        let st := put (HDRP (PREV_BLKP (mem st) bp)) (PACK size 0) st in
        let st := put (FTRP (mem st) (NEXT_BLKP (mem st) bp)) (PACK size 0) st in
        (PREV_BLKP (mem st) bp, st) in
    let st :=
      if (bp <=? next_fit st) && (next_fit st <? NEXT_BLKP (mem st) bp)
      then set_next_fit bp st else st in
    (bp, st).

(** ** extend_heap *)

(** The byte count [extend_heap] asks for: [words] rounded up to an even
    number of words, in [uint32_t] arithmetic. *)
Definition extend_bytes (words : Z) : Z :=
  let words := u32 words in
  if negb (words mod 2 =? 0)
  then u32 (u32 (words + 1) * WSIZE)
  else u32 (words * WSIZE).

Definition extend_heap (words : Z) (st : state) : Z * state :=
  let size := extend_bytes words in
  let '(bp, st) := mem_sbrk size st in
  if bp =? -1 then (NULL, st)
  else
    let st := put (HDRP bp) (PACK size 0) st in
    let st := put (FTRP (mem st) bp) (PACK size 0) st in
    let st := put (HDRP (NEXT_BLKP (mem st) bp)) (PACK 0 1) st in
    coalesce bp st.

(** ** mm_init *)

Definition mm_init (st : state) : Z * state :=
  let '(p, st) := mem_sbrk (4 * WSIZE) st in
  let st := set_heap_listp p st in
  if p =? -1 then (-1, st)
  else
    let st := put (heap_listp st) 0 st in
    let st := put (heap_listp st + 1 * WSIZE) (PACK DSIZE 1) st in
    let st := put (heap_listp st + 2 * WSIZE) (PACK DSIZE 1) st in
    let st := put (heap_listp st + 3 * WSIZE) (PACK 0 1) st in
    let st := set_heap_listp (heap_listp st + 2 * WSIZE) st in
    let st := set_next_fit (heap_listp st) st in
    let '(r, st) := extend_heap (CHUNKSIZE / WSIZE) st in
    if r =? NULL then (-1, st) else (0, st).

(** ** find_fit *)

(** The test both loops apply to the block under the cursor. *)
Definition fits (asize : Z) (st : state) : bool :=
  (GET_ALLOC (mem st) (HDRP (next_fit st)) =? 0)
  && (asize <=? GET_SIZE (mem st) (HDRP (next_fit st))).

(** A loop either returns a block from inside its body ([Some bp]) or runs
    to its end ([None]); it runs out of fuel with the outer [None]. *)
Fixpoint find_fit_loop1 (fuel : nat) (asize : Z) (st : state)
  : option (option Z * state) :=
  match fuel with
  | O => None
  | S fuel =>
      if GET_SIZE (mem st) (HDRP (next_fit st)) >? 0 then
        if fits asize st then Some (Some (next_fit st), st)
        else find_fit_loop1 fuel asize
               (set_next_fit (NEXT_BLKP (mem st) (next_fit st)) st)
      else Some (None, st)
  end.

Fixpoint find_fit_loop2 (fuel : nat) (asize bp : Z) (st : state)
  : option (option Z * state) :=
  match fuel with
  | O => None
  | S fuel =>
      if next_fit st <? bp then
        if fits asize st then Some (Some (next_fit st), st)
        else find_fit_loop2 fuel asize bp
               (set_next_fit (NEXT_BLKP (mem st) (next_fit st)) st)
      else Some (None, st)
  end.

Definition find_fit (fuel : nat) (asize : Z) (st : state)
  : option (Z * state) :=
  let asize := u32 asize in
  let bp := next_fit st in
  match find_fit_loop1 fuel asize (set_next_fit bp st) with
  | None => None
  | Some (Some r, st) => Some (r, st)
  | Some (None, st) =>
      match find_fit_loop2 fuel asize bp
              (set_next_fit (heap_listp st) st) with
      | None => None
      | Some (Some r, st) => Some (r, st)
      | Some (None, st) => Some (NULL, st)
      end
  end.

(** ** place *)

Definition place (bp asize : Z) (st : state) : state :=
  let asize := u32 asize in
  let csize := GET_SIZE (mem st) (HDRP bp) in
  let '(bp, st) :=
    if usize (csize - asize) >=? 2 * DSIZE then
      let st := put (HDRP bp) (PACK asize 1) st in
      let st := put (FTRP (mem st) bp) (PACK asize 1) st in
      let bp := NEXT_BLKP (mem st) bp in
      let st := put (HDRP bp) (PACK (usize (csize - asize)) 0) st in
      let st := put (FTRP (mem st) bp) (PACK (usize (csize - asize)) 0) st in
      (bp, st)
    else
      let st := put (HDRP bp) (PACK csize 1) st in
      let st := put (FTRP (mem st) bp) (PACK csize 1) st in
      (bp, st) in
  if next_fit st =? bp
  then set_next_fit (NEXT_BLKP (mem st) bp) st
  else st.

(** ** mm_malloc *)

(** The adjusted block size computed at the head of [mm_malloc]; the sum
    is formed in [uint32_t]. *)
Definition adjust_size (size : Z) : Z :=
  if size <=? DSIZE then 2 * DSIZE
  else u32 (DSIZE * (u32 (size + DSIZE + (DSIZE - 1)) / DSIZE)).

(** [extendsize = MAX(asize, CHUNKSIZE)], stored in a [size_t]. *)
Definition extend_size (asize : Z) : Z := usize (MAX asize CHUNKSIZE).

Definition mm_malloc (fuel : nat) (size : Z) (st : state)
  : option (Z * state) :=
  let size := u32 size in
  if size =? 0 then Some (NULL, st)
  else
    let asize := adjust_size size in
    match find_fit fuel asize st with
    | None => None
    | Some (bp, st) =>
        if negb (bp =? NULL) then Some (bp, place bp asize st)
        else
          let extendsize := extend_size asize in
          let '(bp, st) := extend_heap (extendsize / WSIZE) st in
          if bp =? NULL then Some (NULL, st)
          else Some (bp, place bp asize st)
    end.

(** ** mm_free *)

Definition mm_free (bp : Z) (st : state) : state :=
  let size := GET_SIZE (mem st) (HDRP bp) in
  let st := put (HDRP bp) (PACK size 0) st in
  let st := put (FTRP (mem st) bp) (PACK size 0) st in
  snd (coalesce bp st).

(** ** mm_realloc *)

(** A call either returns to its caller or ends the process with
    [exit(code)]; the state is the one at that point. *)
Inductive outcome (A : Type) : Type :=
| Returns (v : A) (st : state)
| Exits (code : Z) (st : state).
Arguments Returns {A} v st.
Arguments Exits {A} code st.

Definition mm_realloc (fuel : nat) (ptr size : Z) (st : state)
  : option (outcome Z) :=
  let size := u32 size in
  match mm_malloc fuel size st with
  | None => None
  | Some (newp, st) =>
      if newp =? NULL then Some (Exits 1 st)
      else
        let copySize := GET_SIZE (mem st) (HDRP ptr) in
        let copySize := if size <? copySize then size else copySize in
        let st := set_mem (memcpy (mem st) newp ptr copySize) st in
        let st := mm_free ptr st in
        Some (Returns newp st)
  end.

(** ** mm_checkheap *)

(** What the heap checker prints: one constructor for each [printf] of
    [mm_checkheap], [printblock] and [checkblock], with the values it
    formats. *)
Inductive message : Type :=
| Heap_line (p : Z)
| Bad_prologue
| Bad_epilogue
| EOL_line (bp : Z)
| Block_line (bp hsize : Z) (halloc : ascii) (fsize : Z) (falloc : ascii)
| Not_aligned (bp : Z)
| Tag_mismatch.

(** [(x ? 'a' : 'f')]. *)
Definition alloc_char (x : Z) : ascii :=
  if negb (x =? 0) then "a"%char else "f"%char.

(** [printblock]: the four fields are read before the test for the
    epilogue; the sizes are printed as [int]. *)
Definition printblock (bp : Z) (st : state) : list message :=
  let hsize := GET_SIZE (mem st) (HDRP bp) in
  let halloc := GET_ALLOC (mem st) (HDRP bp) in
  let fsize := GET_SIZE (mem st) (FTRP (mem st) bp) in
  let falloc := GET_ALLOC (mem st) (FTRP (mem st) bp) in
  if hsize =? 0 then [EOL_line bp]
  else [Block_line bp (to_int hsize) (alloc_char halloc)
          (to_int fsize) (alloc_char falloc)].

(** [checkblock]: [(uintptr_t)bp % 8] is [bp mod 8], 2^64 being a multiple
    of 8. *)
Definition checkblock (bp : Z) (st : state) : list message :=
  (if negb (bp mod 8 =? 0) then [Not_aligned bp] else [])
  ++ (if negb (GET (mem st) (HDRP bp) =? GET (mem st) (FTRP (mem st) bp))
      then [Tag_mismatch] else []).

(** The [for] loop of [mm_checkheap] from block [bp] on: the block pointer
    it stops at and what it printed.  It runs on fuel. *)
Fixpoint checkheap_loop (fuel : nat) (verbose bp : Z) (st : state)
  : option (Z * list message) :=
  match fuel with
  | O => None
  | S fuel =>
      if GET_SIZE (mem st) (HDRP bp) >? 0 then
        match checkheap_loop fuel verbose (NEXT_BLKP (mem st) bp) st with
        | None => None
        | Some (bp', out) =>
            Some (bp',
                  (if negb (verbose =? 0) then printblock bp st else [])
                  ++ checkblock bp st ++ out)
        end
      else Some (bp, [])
  end.

(** [mm_checkheap]: the prologue is checked once before the loop and once
    more as the first block of the loop; the epilogue is printed and its
    header tested, without [checkblock]. *)
Definition mm_checkheap (fuel : nat) (verbose : Z) (st : state)
  : option (list message) :=
  let m := mem st in
  let out1 :=
    if negb (verbose =? 0) then [Heap_line (heap_listp st)] else [] in
  let out2 :=
    if negb (GET_SIZE m (HDRP (heap_listp st)) =? DSIZE)
       || (GET_ALLOC m (HDRP (heap_listp st)) =? 0)
    then [Bad_prologue] else [] in
  let out3 := checkblock (heap_listp st) st in
  match checkheap_loop fuel verbose (heap_listp st) st with
  | None => None
  | Some (bp, out4) =>
      let out5 := if negb (verbose =? 0) then printblock bp st else [] in
      let out6 :=
        if negb (GET_SIZE m (HDRP bp) =? 0) || (GET_ALLOC m (HDRP bp) =? 0)
        then [Bad_epilogue] else [] in
      Some (out1 ++ out2 ++ out3 ++ out4 ++ out5 ++ out6)
  end.

(** ** The heap as a sequence of blocks

    The walk of the code from [heap_listp] ([NEXT_BLKP] until a header of
    size 0) reads a sequence of blocks off the memory.  [block] is one
    entry of it: the size and the allocated flag its two tags encode. *)

Record block : Type := mkblock { bsize : Z; balloc : bool }.

Definition tag (b : block) : Z := PACK (bsize b) (Z.b2z (balloc b)).

Definition block_ok (b : block) : Prop :=
  DSIZE <= bsize b < 2 ^ 32 /\ bsize b mod DSIZE = 0.

(** Block [b] sits at block pointer [bp]: header and footer carry its tag. *)
Definition block_at (m : memory) (bp : Z) (b : block) : Prop :=
  block_ok b /\ GET m (HDRP bp) = tag b /\ GET m (bp + bsize b - DSIZE) = tag b.

Fixpoint blocks_at (m : memory) (bp : Z) (l : list block) : Prop :=
  match l with
  | [] => True
  | b :: l => block_at m bp b /\ blocks_at m (bp + bsize b) l
  end.

Fixpoint total (l : list block) : Z :=
  match l with
  | [] => 0
  | b :: l => bsize b + total l
  end.

Definition prologue : block := mkblock DSIZE true.

(** The heap of [st] is the prologue followed by the blocks [l], ended by
    the epilogue header just below the break; the hard limit of the memory
    system keeps every size within a 32-bit tag. *)
Record heap_ok (st : state) (l : list block) : Prop := mk_heap_ok {
  ok_base : DSIZE < heap_listp st;
  ok_blocks : blocks_at (mem st) (heap_listp st) (prologue :: l);
  ok_brk : mem_brk st = heap_listp st + total (prologue :: l);
  ok_epilogue : GET (mem st) (HDRP (mem_brk st)) = PACK 0 1;
  ok_limit : mem_brk st <= mem_max_addr st;
  ok_tagged : mem_max_addr st - heap_listp st < 2 ^ 32
}.

(** The cursor stands at the start of a block of the walk, or at the
    epilogue: [l1] are the blocks before it, [l2] those from it on. *)
Definition cursor_at (st : state) (l l1 l2 : list block) : Prop :=
  prologue :: l = l1 ++ l2 /\ next_fit st = heap_listp st + total l1.

(** The search as the specification words it: the first block of a range
    that is free and large enough. *)
Definition block_fits (asize : Z) (b : block) : bool :=
  negb (balloc b) && (asize <=? bsize b).

Fixpoint first_fit (asize bp : Z) (l : list block) : option Z :=
  match l with
  | [] => None
  | b :: l =>
      if block_fits asize b then Some bp
      else first_fit asize (bp + bsize b) l
  end.

Definition next_fit_search (asize start : Z) (l1 l2 : list block)
  : option Z :=
  match first_fit asize (start + total l1) l2 with
  | Some bp => Some bp
  | None => first_fit asize start l1
  end.

(** ** Vocabulary of the statements *)

(** Two memories that agree on the bytes of [lo, hi). *)
Definition same_on (lo hi : Z) (m m' : memory) : Prop :=
  forall a, lo <= a < hi -> m' a = m a.

(** What lies after a block: the head of the rest of the sequence, or the
    epilogue (size 0, allocated) when the rest is empty. *)
Definition succ_alloc (l : list block) : bool :=
  match l with [] => true | n :: _ => balloc n end.

Definition succ_size (l : list block) : Z :=
  match l with [] => 0 | n :: _ => bsize n end.

(** Header and footer of the block of [size] bytes at [bp] rewritten. *)
Definition retag (m : memory) (bp size alloc : Z) : memory :=
  PUT (PUT m (HDRP bp) (PACK size alloc)) (bp + size - DSIZE) (PACK size alloc).

(** The cursor moved to [bp] when it stands inside the [size] bytes from
    [bp] on. *)
Definition relocate (bp size : Z) (st : state) : state :=
  if (bp <=? next_fit st) && (next_fit st <? bp + size)
  then set_next_fit bp st else st.

(** The memory after placing [asize] bytes in a block of [csize] bytes. *)
Definition placed (m : memory) (bp asize csize : Z) : memory :=
  if 2 * DSIZE <=? csize - asize
  then retag (retag m bp asize 1) (bp + asize) (csize - asize) 0
  else retag m bp csize 1.

(** The cursor after that placement: the test at the end of [place]
    compares it with the split remainder when the block was split, with
    the block itself otherwise. *)
Definition advance (bp asize csize : Z) (st : state) : state :=
  if 2 * DSIZE <=? csize - asize
  then (if next_fit st =? bp + asize then set_next_fit (bp + csize) st else st)
  else (if next_fit st =? bp then set_next_fit (bp + csize) st else st).

(** The heap grown by a free block of [size] bytes with a fresh epilogue,
    before that block is coalesced. *)
Definition extended (size : Z) (st : state) : state :=
  set_mem (PUT (retag (mem st) (mem_brk st) size 0)
               (mem_brk st + size - WSIZE) (PACK 0 1))
    (set_brk (mem_brk st + size) st).

(** The heap after a successful growth by [extend_size asize] bytes and the
    coalescing of the new block: block pointer and state. *)
Definition grown (asize : Z) (st : state) : Z * state :=
  coalesce (mem_brk st) (extended (extend_size asize) st).

(** The byte count [mm_malloc] passes down to [mem_sbrk] for a request of
    [size] bytes that no free block fits. *)
Definition growth_request (size : Z) : Z :=
  extend_bytes (extend_size (adjust_size size) / WSIZE).

(** ** Runs of the allocator *)

(** The block pointers the walk from [heap_listp] visits. *)
Inductive walk (st : state) : Z -> Prop :=
| walk_start : walk st (heap_listp st)
| walk_next bp :
    walk st bp -> GET_SIZE (mem st) (HDRP bp) > 0 ->
    walk st (NEXT_BLKP (mem st) bp).

Definition free_block (st : state) (bp : Z) : Prop :=
  GET_SIZE (mem st) (HDRP bp) > 0 /\ GET_ALLOC (mem st) (HDRP bp) = 0.

(** Two blocks next to each other on the walk are both free. *)
Definition adjacent_free (st : state) : Prop :=
  exists bp, walk st bp /\ free_block st bp
             /\ free_block st (NEXT_BLKP (mem st) bp).

Fixpoint remove_one (p : Z) (live : list Z) : list Z :=
  match live with
  | [] => []
  | q :: live => if q =? p then live else q :: remove_one p live
  end.

(** Modelled from the spec: the memory system [mm_init] starts from.  Its
    base is not the null pointer, and its hard limit keeps the managed
    region below 4 GB, so that every size fits a 32-bit tag. *)
Definition mem_system (st0 : state) : Prop :=
  0 < mem_brk st0 /\ mem_max_addr st0 - mem_brk st0 < 2 ^ 32.

(** The states a client reaches from a successful [mm_init] by calls of
    [mm_malloc] for at most [bound] bytes and by calls of [mm_free] on
    pointers [mm_malloc] returned and that were not freed since; [live]
    lists those pointers. *)
Inductive reachable (bound : Z) : state -> list Z -> Prop :=
| reach_init st0 st :
    mem_system st0 -> mm_init st0 = (0, st) -> reachable bound st []
| reach_malloc st live fuel size p st' :
    reachable bound st live -> 0 <= size <= bound ->
    mm_malloc fuel size st = Some (p, st') ->
    reachable bound st' (if p =? NULL then live else p :: live)
| reach_free st live p :
    reachable bound st live -> In p live ->
    reachable bound (mm_free p st) (remove_one p live).

(** Every [uint32_t] is a request the client may make. *)
Definition UINT32_MAX : Z := 2 ^ 32 - 1.

(** The largest request whose size arithmetic does not wrap: its adjusted
    size stays below 2^31, the range of the [int] that [MAX] and [mem_sbrk]
    take. *)
Definition SANE_MAX : Z := 2 ^ 31 - 16.

(** ** The coalescing invariant on block sequences *)

(** No two neighbours of a sequence are both free. *)
Fixpoint no_adj_free (l : list block) : Prop :=
  match l with
  | [] => True
  | b :: l => (balloc b = true \/ succ_alloc l = true) /\ no_adj_free l
  end.

Fixpoint last_alloc (l : list block) : bool :=
  match l with
  | [] => true
  | b :: l => match l with [] => balloc b | _ => last_alloc l end
  end.

(** Two memories that agree on every byte outside [lo, hi). *)
Definition same_off (lo hi : Z) (m m' : memory) : Prop :=
  forall a, a < lo \/ hi <= a -> m' a = m a.

(** [c] is the start of a block of the sequence [L], or its end. *)
Definition boundary (st : state) (L : list block) (c : Z) : Prop :=
  exists c1 c2, L = c1 ++ c2 /\ c = heap_listp st + total c1.

(** [p] is the block pointer of an allocated block of [L] other than the
    first (the prologue). *)
Definition allocated_at (st : state) (L : list block) (p : Z) : Prop :=
  exists la b lb, L = la ++ b :: lb /\ la <> []
                  /\ p = heap_listp st + total la /\ balloc b = true.

(** A block merged with the free block after it, if there is one. *)
Definition merge_next (b : block) (l : list block) : list block :=
  match l with
  | n :: l' =>
      if balloc n then b :: l
      else mkblock (bsize b + bsize n) false :: l'
  | [] => [b]
  end.

(** The sequence after [coalesce] on [b], between [p] and [l2]. *)
Definition merged (l1 : list block) (p b : block) (l2 : list block)
  : list block :=
  if balloc p then l1 ++ p :: merge_next b l2
  else l1 ++ merge_next (mkblock (bsize p + bsize b) false) l2.

(** The sequence after [place] of [asize] bytes in the block [f]. *)
Definition split_block (asize : Z) (f : block) : list block :=
  if 2 * DSIZE <=? bsize f - asize
  then [mkblock asize true; mkblock (bsize f - asize) false]
  else [mkblock (bsize f) true].

(** What holds of every heap a client reaches with requests that do not
    wrap: a well-formed block sequence without two free neighbours, the
    cursor on one of its blocks, and the live pointers on distinct
    allocated blocks. *)
Definition heap_inv (st : state) (live : list Z) : Prop :=
  exists l,
    heap_ok st l
    /\ boundary st (prologue :: l) (next_fit st)
    /\ no_adj_free (prologue :: l)
    /\ NoDup live
    /\ Forall (allocated_at st (prologue :: l)) live.

(** ** Sample heaps *)

(** A memory system of 20 MB based at address 1000, all bytes zero. *)
Definition boot : state :=
  mkstate (fun _ => x00) 1000 (1000 + 20 * 2 ^ 20) 0 0.

(** The heap after [mm_init]: one free block of 4096 bytes. *)
Definition heap_init : state := snd (mm_init boot).

Definition run_malloc (size : Z) (st : state) : Z * state :=
  match mm_malloc 8 size st with
  | Some r => r
  | None => (NULL, st)
  end.

(** The heap after [mm_malloc(100)]: an allocated block of 112 bytes at
    1016, then a free block. *)
Definition heap_one : state := snd (run_malloc 100 heap_init).

(** Three blocks of 16 bytes allocated at 1016, 1032 and 1048, then the
    first and the third freed again. *)
Definition heap_holes : state :=
  mm_free 1048
    (mm_free 1016
       (snd (run_malloc 8 (snd (run_malloc 8 (snd (run_malloc 8 heap_init))))))).

(** The run that breaks the block sequence: a request whose rounding wraps
    to 0, two small requests, and the release of the first pointer. *)
Definition wrapped_1 : Z * state := run_malloc 4294967281 heap_init.
Definition wrapped_2 : Z * state := run_malloc 8 (snd wrapped_1).
Definition wrapped_3 : Z * state := run_malloc 8 (snd wrapped_2).
Definition wrapped_4 : state := mm_free (fst wrapped_1) (snd wrapped_3).

(** ** What the checker prints for a sequence *)

(** The lines [printblock] prints for the blocks [l] from [bp] on. *)
Fixpoint block_lines (bp : Z) (l : list block) : list message :=
  match l with
  | [] => []
  | b :: l =>
      Block_line bp (to_int (bsize b)) (alloc_char (Z.b2z (balloc b)))
        (to_int (bsize b)) (alloc_char (Z.b2z (balloc b)))
      :: block_lines (bp + bsize b) l
  end.

(** ** The stretch a merge rewrites *)

(** Block pointer and size of the free block [coalesce] leaves around the
    free block [b] at [bp], between its predecessor [p] and the rest [l2]
    of the sequence. *)
Definition merged_start (p : block) (bp : Z) : Z :=
  if balloc p then bp else bp - bsize p.

Definition merged_size (p b : block) (l2 : list block) : Z :=
  (if balloc p then 0 else bsize p) + bsize b
  + (if succ_alloc l2 then 0 else succ_size l2).

(** ** More sample heaps *)

(** [heap_holes] with the block at 1032 marked free and not yet coalesced:
    three free blocks in a row, as inside [mm_free]. *)
Definition heap_marked : state :=
  set_mem (retag (mem heap_holes) 1032 16 0) heap_holes.

(** [heap_one] after [mm_malloc(8)]: allocated blocks of 112 bytes at 1016
    and of 16 bytes at 1128, then a free block. *)
Definition heap_two : state := snd (run_malloc 8 heap_one).

(** The heap after [mm_init] on a memory system with room for the first
    chunk and nothing more. *)
Definition heap_full : state :=
  snd (mm_init (mkstate (fun _ => x00) 1000 (1000 + 16 + 4096) 0 0)).

(** The state after [mm_malloc(2147483648)] on [heap_init]: the adjusted
    size 2147483656 fits no block, the heap has grown by one chunk only,
    and [place] has written the tags of a block of 2147483656 bytes. *)
Definition overrun : state := snd (run_malloc 2147483648 heap_init).

(** The state [mm_realloc(1016, 4294967281)] returns with on [heap_one]:
    the rounding of the size has wrapped to 0. *)
Definition realloc_wrapped : state :=
  match mm_realloc 8 1016 4294967281 heap_one with
  | Some (Returns _ st) => st
  | _ => heap_one
  end.

(** * Proofs *)

(** ** Bytes and words *)

Lemma byte_val_range (b : byte) : 0 <= byte_val b < 256.
Proof.
  unfold byte_val. pose proof (Byte.to_N_bounded b). lia.
Qed.

Lemma byte_val_of (z : Z) : byte_val (byte_of z) = z mod 256.
Proof.
  unfold byte_val, byte_of.
  assert (Hr : 0 <= z mod 256 < 256) by (apply Z.mod_pos_bound; lia).
  destruct (Byte.of_N (Z.to_N (z mod 256))) as [b|] eqn:E.
  - apply Byte.to_of_N in E. rewrite E. lia.
  - apply Byte.of_N_None_iff in E. lia.
Qed.

Lemma GET_range m p : 0 <= GET m p < 2 ^ 32.
Proof.
  unfold GET.
  pose proof (byte_val_range (m p)).
  pose proof (byte_val_range (m (p + 1))).
  pose proof (byte_val_range (m (p + 2))).
  pose proof (byte_val_range (m (p + 3))).
  change (2 ^ 8) with 256. change (2 ^ 16) with 65536.
  change (2 ^ 24) with 16777216. change (2 ^ 32) with 4294967296. lia.
Qed.

Lemma PUT_outside m p v a : a < p \/ p + 4 <= a -> PUT m p v a = m a.
Proof.
  intros H. unfold PUT.
  repeat match goal with
         | |- context [?x =? ?y] => destruct (Z.eqb_spec x y); [lia|]
         end.
  reflexivity.
Qed.

Lemma GET_PUT_same m p v : GET (PUT m p v) p = u32 v.
Proof.
  unfold GET, PUT, u32.
  rewrite Z.eqb_refl.
  repeat match goal with
         | |- context [?x =? ?y] =>
             destruct (Z.eqb_spec x y); [try lia|try lia]
         end.
  rewrite !byte_val_of.
  change (2 ^ 8) with 256. change (2 ^ 16) with 65536.
  change (2 ^ 24) with 16777216. change (2 ^ 32) with 4294967296.
  pose proof (Z.div_mod v 256 ltac:(lia)).
  pose proof (Z.div_mod (v / 256) 256 ltac:(lia)).
  pose proof (Z.div_mod (v / 256 / 256) 256 ltac:(lia)).
  pose proof (Z.div_mod (v / 256 / 256 / 256) 256 ltac:(lia)).
  replace (v / 65536) with (v / 256 / 256) in *
    by (rewrite Z.div_div by lia; reflexivity).
  replace (v / 16777216) with (v / 256 / 256 / 256) in *
    by (rewrite !Z.div_div by lia; reflexivity).
  apply Z.mod_unique_pos with (q := v / 256 / 256 / 256 / 256).
  - pose proof (Z.mod_pos_bound v 256 ltac:(lia)).
    pose proof (Z.mod_pos_bound (v / 256) 256 ltac:(lia)).
    pose proof (Z.mod_pos_bound (v / 256 / 256) 256 ltac:(lia)).
    pose proof (Z.mod_pos_bound (v / 256 / 256 / 256) 256 ltac:(lia)).
    lia.
  - lia.
Qed.

Lemma GET_PUT_other m p v q : q + 4 <= p \/ p + 4 <= q -> GET (PUT m p v) q = GET m q.
Proof.
  intros H. unfold GET. rewrite !PUT_outside by lia. reflexivity.
Qed.

(** ** The size and the allocated bit of a word *)

Lemma land_mask_size (x : Z) : 0 <= x < 2 ^ 32 -> Z.land x (u32 (Z.lnot 7)) = x - x mod 8.
Proof.
  intros Hx. change (u32 (Z.lnot 7)) with (Z.shiftl (Z.ones 29) 3).
  replace (x - x mod 8) with (Z.shiftl (Z.shiftr x 3) 3).
  2:{ rewrite Z.shiftl_mul_pow2, Z.shiftr_div_pow2 by lia. change (2 ^ 3) with 8.
      pose proof (Z.div_mod x 8 ltac:(lia)). lia. }
  apply Z.bits_inj'. intros n Hn.
  rewrite Z.land_spec.
  destruct (Z.ltb_spec n 3).
  - rewrite !Z.shiftl_spec_low by lia. apply andb_false_r.
  - rewrite !Z.shiftl_spec by lia. rewrite Z.shiftr_spec by lia.
    replace (n - 3 + 3) with n by lia.
    destruct (Z.ltb_spec (n - 3) 29).
    + rewrite Z.ones_spec_low by lia. apply andb_true_r.
    + rewrite Z.ones_spec_high by lia. rewrite andb_false_r.
      symmetry. rewrite <- (Z.mod_small x (2 ^ 32)) by lia.
      apply Z.mod_pow2_bits_high. lia.
Qed.

Lemma land_mask_alloc (x : Z) : Z.land x 1 = x mod 2.
Proof. change 1 with (Z.ones 1). rewrite Z.land_ones by lia. reflexivity. Qed.

Lemma PACK_tag (s a : Z) : 0 <= s < 2 ^ 32 -> s mod 8 = 0 -> 0 <= a <= 1 -> PACK s a = s + a.
Proof.
  intros Hs Hm Ha. unfold PACK, u32. rewrite Z.mod_small by lia.
  rewrite land_mask_alloc. rewrite (Z.mod_small a 2) by lia.
  assert (Hl : Z.land s a = 0); [| rewrite <- Z.lxor_lor by exact Hl; symmetry; apply Z.add_nocarry_lxor; exact Hl].
  assert (a = 0 \/ a = 1) as [->| ->] by lia.
  - apply Z.land_0_r.
  - rewrite land_mask_alloc.
    pose proof (Z.div_mod s 8 ltac:(lia)).
    replace s with ((4 * (s / 8)) * 2) by lia. apply Z.mod_mul. lia.
Qed.

(** ** Tags *)

Lemma size_of_word (s a : Z) :
  0 <= s < 2 ^ 32 -> s mod 8 = 0 -> 0 <= a <= 1 ->
  Z.land (s + a) (u32 (Z.lnot 7)) = s /\ Z.land (s + a) 1 = a.
Proof.
  intros Hs Hm Ha.
  assert (Hlt : s + a < 2 ^ 32).
  { pose proof (Z.div_mod s 8 ltac:(lia)).
    pose proof (Z.div_mod (2 ^ 32) 8 ltac:(lia)).
    change (2 ^ 32) with 4294967296 in *.
    change (4294967296 mod 8) with 0 in *. change (4294967296 / 8) with 536870912 in *.
    lia. }
  split.
  - rewrite land_mask_size by lia.
    replace ((s + a) mod 8) with a; [lia|].
    apply Z.mod_unique_pos with (q := s / 8); [lia|].
    pose proof (Z.div_mod s 8 ltac:(lia)). lia.
  - rewrite land_mask_alloc.
    symmetry. apply Z.mod_unique_pos with (q := 4 * (s / 8)); [lia|].
    pose proof (Z.div_mod s 8 ltac:(lia)). lia.
Qed.

Lemma GET_SIZE_PACK m p s a :
  0 <= s < 2 ^ 32 -> s mod 8 = 0 -> 0 <= a <= 1 ->
  GET m p = PACK s a -> GET_SIZE m p = s.
Proof.
  intros Hs Hm Ha E. unfold GET_SIZE. rewrite E, PACK_tag by assumption.
  apply size_of_word; assumption.
Qed.

Lemma GET_ALLOC_PACK m p s a :
  0 <= s < 2 ^ 32 -> s mod 8 = 0 -> 0 <= a <= 1 ->
  GET m p = PACK s a -> GET_ALLOC m p = a.
Proof.
  intros Hs Hm Ha E. unfold GET_ALLOC. rewrite E, PACK_tag by assumption.
  apply size_of_word; assumption.
Qed.

Lemma b2z_range (b : bool) : 0 <= Z.b2z b <= 1.
Proof. destruct b; simpl; lia. Qed.

Lemma block_ok_range (b : block) :
  block_ok b -> 0 <= bsize b < 2 ^ 32 /\ bsize b mod 8 = 0.
Proof. unfold block_ok, DSIZE. intros [H1 H2]. split; [lia|assumption]. Qed.

Lemma GET_SIZE_tag m p b : block_ok b -> GET m p = tag b -> GET_SIZE m p = bsize b.
Proof.
  intros Hb E. destruct (block_ok_range b Hb).
  eapply GET_SIZE_PACK; eauto using b2z_range.
Qed.

Lemma GET_ALLOC_tag m p b :
  block_ok b -> GET m p = tag b -> GET_ALLOC m p = Z.b2z (balloc b).
Proof.
  intros Hb E. destruct (block_ok_range b Hb).
  eapply GET_ALLOC_PACK; eauto using b2z_range.
Qed.

Lemma PACK_u32 s a :
  0 <= s < 2 ^ 32 -> s mod 8 = 0 -> 0 <= a <= 1 -> u32 (PACK s a) = PACK s a.
Proof.
  intros Hs Hm Ha. rewrite PACK_tag by assumption. unfold u32.
  apply Z.mod_small.
  pose proof (Z.div_mod s 8 ltac:(lia)).
  change (2 ^ 32) with (8 * 536870912) in *. lia.
Qed.

Lemma GET_PUT_PACK m p s a :
  0 <= s < 2 ^ 32 -> s mod 8 = 0 -> 0 <= a <= 1 ->
  GET (PUT m p (PACK s a)) p = PACK s a.
Proof. intros. rewrite GET_PUT_same. apply PACK_u32; assumption. Qed.

(** ** Block sequences *)

Lemma total_app l1 l2 : total (l1 ++ l2) = total l1 + total l2.
Proof. induction l1; simpl; lia. Qed.

Lemma blocks_at_app m bp l1 l2 :
  blocks_at m bp (l1 ++ l2) <->
  blocks_at m bp l1 /\ blocks_at m (bp + total l1) l2.
Proof.
  revert bp. induction l1 as [|b l1 IH]; intros bp; simpl.
  - rewrite Z.add_0_r. tauto.
  - rewrite IH. rewrite Z.add_assoc. tauto.
Qed.

Lemma blocks_at_total m bp l :
  blocks_at m bp l -> DSIZE * Z.of_nat (length l) <= total l.
Proof.
  revert bp. induction l as [|b l IH]; intros bp; simpl length; simpl total.
  - unfold DSIZE; lia.
  - intros [[[Hr _] _] Hl]. specialize (IH _ Hl). unfold DSIZE in *. lia.
Qed.

Lemma blocks_at_total_nonneg m bp l : blocks_at m bp l -> 0 <= total l.
Proof. intros H. apply blocks_at_total in H. unfold DSIZE in H. lia. Qed.

(** Memories that agree on a range hold the same words and blocks there. *)
Lemma GET_same_on lo hi m m' q :
  same_on lo hi m m' -> lo <= q -> q + 4 <= hi -> GET m' q = GET m q.
Proof.
  intros H Hlo Hhi. unfold GET. rewrite !H by lia. reflexivity.
Qed.

Lemma same_on_PUT lo hi m p v :
  p + 4 <= lo \/ hi <= p -> same_on lo hi m (PUT m p v).
Proof. intros H a Ha. apply PUT_outside. lia. Qed.

Lemma same_on_trans lo hi m1 m2 m3 :
  same_on lo hi m1 m2 -> same_on lo hi m2 m3 -> same_on lo hi m1 m3.
Proof. intros H1 H2 a Ha. rewrite H2, H1 by assumption. reflexivity. Qed.

Lemma same_on_refl lo hi m : same_on lo hi m m.
Proof. intros a _. reflexivity. Qed.

Lemma block_at_same_on lo hi m m' bp b :
  same_on lo hi m m' -> lo <= bp - 4 -> bp + bsize b - 4 <= hi ->
  block_at m bp b -> block_at m' bp b.
Proof.
  intros H Hlo Hhi (Hok & Hh & Hf).
  assert (8 <= bsize b) by (destruct Hok as [Hr _]; unfold DSIZE in Hr; lia).
  unfold block_at, HDRP, WSIZE, DSIZE in *.
  split; [exact Hok|].
  split; rewrite (GET_same_on lo hi m m') by (assumption || lia); assumption.
Qed.

Lemma blocks_at_same_on lo hi m m' bp l :
  same_on lo hi m m' -> lo <= bp - 4 -> bp + total l - 4 <= hi ->
  blocks_at m bp l -> blocks_at m' bp l.
Proof.
  intros H. revert bp. induction l as [|b l IH]; intros bp Hlo Hhi; simpl; [tauto|].
  intros [Hb Hl]. pose proof (blocks_at_total_nonneg _ _ _ Hl).
  assert (8 <= bsize b) by (destruct Hb as [[Hr _] _]; unfold DSIZE in Hr; lia).
  simpl in Hhi. split.
  - eapply block_at_same_on; eauto. lia.
  - apply IH; try assumption; lia.
Qed.

Lemma set_next_fit_id st : set_next_fit (next_fit st) st = st.
Proof. destruct st; reflexivity. Qed.

(** ** find_fit: the two loops read the block sequence *)

Lemma fits_block asize st b :
  block_at (mem st) (next_fit st) b -> fits asize st = block_fits asize b.
Proof.
  intros (Hok & Hh & _). unfold fits, block_fits.
  rewrite (GET_ALLOC_tag _ _ b), (GET_SIZE_tag _ _ b) by assumption.
  destruct (balloc b); reflexivity.
Qed.

Lemma find_fit_loop1_spec asize l : forall fuel st,
  blocks_at (mem st) (next_fit st) l ->
  GET (mem st) (HDRP (next_fit st + total l)) = PACK 0 1 ->
  (length l < fuel)%nat ->
  find_fit_loop1 fuel asize st =
  Some (match first_fit asize (next_fit st) l with
        | Some r => (Some r, set_next_fit r st)
        | None => (None, set_next_fit (next_fit st + total l) st)
        end).
Proof.
  induction l as [|b l IH]; intros fuel st Hl Hepi Hfuel;
    (destruct fuel as [|fuel]; [simpl in Hfuel; lia|]); simpl.
  - simpl in Hepi. rewrite Z.add_0_r in *.
    rewrite (GET_SIZE_PACK _ _ 0 1) by (assumption || reflexivity || lia).
    simpl. rewrite set_next_fit_id. reflexivity.
  - destruct Hl as [Hb Hl]. pose proof Hb as (Hok & Hh & _).
    rewrite (fits_block asize st b Hb).
    rewrite (GET_SIZE_tag _ _ b) by assumption.
    assert (8 <= bsize b) by (destruct Hok as [Hr _]; unfold DSIZE in Hr; lia).
    destruct (Z.gtb_spec (bsize b) 0); [|lia].
    destruct (block_fits asize b).
    + rewrite set_next_fit_id. reflexivity.
    + unfold NEXT_BLKP. change (next_fit st - WSIZE) with (HDRP (next_fit st)).
      rewrite (GET_SIZE_tag _ _ b) by assumption.
      rewrite IH.
      * simpl. rewrite Z.add_assoc.
        destruct (first_fit asize (next_fit st + bsize b) l); reflexivity.
      * exact Hl.
      * simpl in *. rewrite <- Z.add_assoc. exact Hepi.
      * simpl in Hfuel. lia.
Qed.

Lemma find_fit_loop2_spec asize l : forall fuel st bp,
  blocks_at (mem st) (next_fit st) l ->
  bp = next_fit st + total l ->
  (length l < fuel)%nat ->
  find_fit_loop2 fuel asize bp st =
  Some (match first_fit asize (next_fit st) l with
        | Some r => (Some r, set_next_fit r st)
        | None => (None, set_next_fit bp st)
        end).
Proof.
  induction l as [|b l IH]; intros fuel st bp Hl Hbp Hfuel;
    (destruct fuel as [|fuel]; [simpl in Hfuel; lia|]); simpl.
  - simpl in Hbp. rewrite Z.add_0_r in Hbp. subst bp.
    rewrite Z.ltb_irrefl, set_next_fit_id. reflexivity.
  - destruct Hl as [Hb Hl]. pose proof Hb as (Hok & Hh & _).
    pose proof (blocks_at_total_nonneg _ _ _ Hl).
    assert (8 <= bsize b) by (destruct Hok as [Hr _]; unfold DSIZE in Hr; lia).
    simpl in Hbp.
    destruct (Z.ltb_spec (next_fit st) bp); [|lia].
    rewrite (fits_block asize st b Hb).
    destruct (block_fits asize b).
    + rewrite set_next_fit_id. reflexivity.
    + unfold NEXT_BLKP. change (next_fit st - WSIZE) with (HDRP (next_fit st)).
      rewrite (GET_SIZE_tag _ _ b) by assumption.
      rewrite IH.
      * simpl. destruct (first_fit asize (next_fit st + bsize b) l); reflexivity.
      * exact Hl.
      * simpl. lia.
      * simpl in Hfuel. lia.
Qed.

Lemma find_fit_spec fuel asize st l l1 l2 :
  heap_ok st l -> cursor_at st l l1 l2 ->
  (length l + 1 < fuel)%nat ->
  0 <= asize < 2 ^ 32 ->
  find_fit fuel asize st =
  Some (match next_fit_search asize (heap_listp st) l1 l2 with
        | Some r => (r, set_next_fit r st)
        | None => (NULL, st)
        end).
Proof.
  intros Hok [Hsplit Hcur] Hfuel Hasize.
  pose proof (ok_blocks _ _ Hok) as Hbl. rewrite Hsplit in Hbl.
  apply blocks_at_app in Hbl. destruct Hbl as [Hl1 Hl2].
  assert (Hlen : (length l1 + length l2 = length l + 1)%nat).
  { rewrite <- length_app, <- Hsplit. simpl. lia. }
  unfold find_fit, next_fit_search. unfold u32. rewrite Z.mod_small by assumption.
  rewrite set_next_fit_id.
  rewrite (find_fit_loop1_spec asize l2).
  - rewrite Hcur. destruct (first_fit asize (heap_listp st + total l1) l2); [reflexivity|].
    rewrite (find_fit_loop2_spec asize l1).
    + simpl. destruct (first_fit asize (heap_listp st) l1); [reflexivity|].
      rewrite <- Hcur. destruct st; reflexivity.
    + exact Hl1.
    + simpl. reflexivity.
    + lia.
  - rewrite Hcur. exact Hl2.
  - rewrite Hcur, <- Z.add_assoc, <- total_app, <- Hsplit.
    rewrite <- (ok_brk _ _ Hok). apply (ok_epilogue _ _ Hok).
  - lia.
Qed.

(** ** coalesce: the four cases *)

Lemma GET_SIZE_PUT_other m p v q :
  q + 4 <= p \/ p + 4 <= q -> GET_SIZE (PUT m p v) q = GET_SIZE m q.
Proof. intros. unfold GET_SIZE. rewrite GET_PUT_other by assumption. reflexivity. Qed.

Lemma GET_SIZE_PUT_same m p s a :
  0 <= s < 2 ^ 32 -> s mod 8 = 0 -> 0 <= a <= 1 ->
  GET_SIZE (PUT m p (PACK s a)) p = s.
Proof.
  intros. apply (GET_SIZE_PACK _ _ s a); try assumption.
  apply GET_PUT_PACK; assumption.
Qed.

Lemma mod8_add a b : a mod 8 = 0 -> b mod 8 = 0 -> (a + b) mod 8 = 0.
Proof.
  intros Ha Hb. rewrite Z.add_mod, Ha, Hb by lia. reflexivity.
Qed.

(** The header after a block of the sequence: that of the next block, or
    the epilogue. *)
Lemma succ_header st l l1 b l2 :
  heap_ok st l -> prologue :: l = l1 ++ b :: l2 ->
  GET (mem st) (HDRP (heap_listp st + total l1 + bsize b)) =
  PACK (succ_size l2) (Z.b2z (succ_alloc l2))
  /\ 0 <= succ_size l2 < 2 ^ 32 /\ succ_size l2 mod 8 = 0
  /\ (l2 <> [] -> 8 <= succ_size l2 /\
        GET (mem st) (heap_listp st + total l1 + bsize b + succ_size l2 - DSIZE)
        = PACK (succ_size l2) (Z.b2z (succ_alloc l2))).
Proof.
  intros Hok Hsplit.
  pose proof (ok_blocks _ _ Hok) as Hbl. rewrite Hsplit in Hbl.
  apply blocks_at_app in Hbl. destruct Hbl as [_ [Hb Hl2]].
  destruct l2 as [|n l2]; simpl.
  - split; [|split; [lia|split; [reflexivity|congruence]]].
    pose proof (ok_epilogue _ _ Hok) as He. rewrite (ok_brk _ _ Hok), Hsplit in He.
    rewrite total_app in He. simpl in He. rewrite Z.add_0_r, Z.add_assoc in He.
    exact He.
  - destruct Hl2 as [(Hn & Hh & Hf) _]. destruct (block_ok_range n Hn).
    destruct Hn as [Hr _]. unfold DSIZE in Hr.
    split; [exact Hh|]. split; [lia|]. split; [assumption|].
    intros _. split; [lia|exact Hf].
Qed.

Lemma total_bound st l : heap_ok st l -> total (prologue :: l) < 2 ^ 32.
Proof.
  intros Hok. pose proof (ok_brk _ _ Hok). pose proof (ok_limit _ _ Hok).
  pose proof (ok_tagged _ _ Hok). lia.
Qed.

Lemma coalesce_cases st l l1 p b l2 bp :
  heap_ok st l ->
  prologue :: l = l1 ++ p :: b :: l2 ->
  bp = heap_listp st + total l1 + bsize p ->
  coalesce bp st =
  match balloc p, succ_alloc l2 with
  | true, true => (bp, st)
  | true, false =>
      let size := bsize b + succ_size l2 in
      (bp, relocate bp size (set_mem (retag (mem st) bp size 0) st))
  | false, true =>
      let size := bsize p + bsize b in
      (bp - bsize p,
       relocate (bp - bsize p) size
         (set_mem (PUT (PUT (mem st) (bp + bsize b - DSIZE) (PACK size 0))
                       (HDRP (bp - bsize p)) (PACK size 0)) st))
  | false, false =>
      let size := bsize p + bsize b + succ_size l2 in
      (bp - bsize p,
       relocate (bp - bsize p) size
         (set_mem (retag (mem st) (bp - bsize p) size 0) st))
  end.
Proof.
  intros Hok Hsplit Hbp.
  pose proof (total_bound _ _ Hok) as Hbound.
  pose proof (ok_blocks _ _ Hok) as Hbl. rewrite Hsplit in Hbl.
  apply blocks_at_app in Hbl. destruct Hbl as [Hl1 [Hp [Hb Hl2]]].
  pose proof (blocks_at_total_nonneg _ _ _ Hl1) as Hn1.
  pose proof (blocks_at_total_nonneg _ _ _ Hl2) as Hn2.
  destruct (succ_header st l (l1 ++ [p]) b l2 Hok) as (Hsh & Hsr & Hsm & Hsf).
  { rewrite <- app_assoc. exact Hsplit. }
  rewrite total_app in Hsh, Hsf. simpl total in Hsh, Hsf.
  rewrite Z.add_0_r, Z.add_assoc, <- Hbp in Hsh, Hsf.
  rewrite <- Hbp in Hb.
  replace (heap_listp st + total l1) with (bp - bsize p) in Hp by lia.
  destruct Hp as (Hpok & Hph & Hpf). destruct Hb as (Hbok & Hbh & Hbf).
  destruct (block_ok_range p Hpok) as [Hpr Hpm].
  destruct (block_ok_range b Hbok) as [Hbr Hbm].
  assert (Hp8 : 8 <= bsize p) by (destruct Hpok as [H _]; unfold DSIZE in H; lia).
  assert (Hb8 : 8 <= bsize b) by (destruct Hbok as [H _]; unfold DSIZE in H; lia).
  assert (Hsum : bsize p + bsize b + succ_size l2 < 2 ^ 32).
  { rewrite Hsplit, total_app in Hbound. simpl in Hbound.
    assert (succ_size l2 <= total l2).
    { destruct l2 as [|n l2']; simpl in *; [lia|].
      destruct Hl2 as [_ Hl2']. apply blocks_at_total_nonneg in Hl2'. lia. }
    lia. }
  unfold HDRP, WSIZE, DSIZE in *.
  replace (bp - bsize p + bsize p - 8) with (bp - 8) in Hpf by lia.
  set (m := mem st) in *.
  assert (E1 : PREV_BLKP m bp = bp - bsize p).
  { unfold PREV_BLKP, DSIZE. rewrite (GET_SIZE_tag _ _ p) by assumption. reflexivity. }
  assert (E2 : FTRP m (bp - bsize p) = bp - 8).
  { unfold FTRP, HDRP, WSIZE, DSIZE. rewrite (GET_SIZE_tag _ _ p) by assumption. lia. }
  assert (E3 : NEXT_BLKP m bp = bp + bsize b).
  { unfold NEXT_BLKP, WSIZE. rewrite (GET_SIZE_tag _ _ b) by assumption. reflexivity. }
  assert (E4 : GET_ALLOC m (bp - 8) = Z.b2z (balloc p)).
  { apply GET_ALLOC_tag; assumption. }
  assert (E5 : GET_ALLOC m (bp + bsize b - 4) = Z.b2z (succ_alloc l2)).
  { apply (GET_ALLOC_PACK _ _ (succ_size l2)); auto using b2z_range. }
  assert (E6 : GET_SIZE m (bp - 4) = bsize b).
  { apply GET_SIZE_tag; assumption. }
  assert (E7 : GET_SIZE m (bp + bsize b - 4) = succ_size l2).
  { apply (GET_SIZE_PACK _ _ _ (Z.b2z (succ_alloc l2))); auto using b2z_range. }
  assert (E8 : GET_SIZE m (bp - bsize p - 4) = bsize p).
  { apply GET_SIZE_tag; assumption. }
  assert (E9 : GET_SIZE m (bp - 8) = bsize p).
  { apply GET_SIZE_tag; assumption. }
  unfold coalesce. fold m.
  rewrite E1, E2, E3. unfold HDRP, WSIZE, DSIZE. rewrite E4, E5, E6.
  destruct (balloc p) eqn:Ap, (succ_alloc l2) eqn:An; simpl Z.b2z; cbn [Z.eqb negb andb];
    [reflexivity| | |].
  - (* only the successor is free *)
    rewrite E7. unfold usize. rewrite Z.mod_small by lia.
    assert (Hm2 : (bsize b + succ_size l2) mod 8 = 0) by (apply mod8_add; assumption).
    unfold put, set_mem, FTRP, NEXT_BLKP, HDRP, WSIZE, DSIZE. cbn [mem next_fit].
    rewrite !GET_SIZE_PUT_same by lia.
    rewrite GET_SIZE_PUT_other by lia.
    rewrite !GET_SIZE_PUT_same by lia.
    unfold relocate, retag, set_mem, set_next_fit, HDRP, WSIZE, DSIZE. cbn [mem next_fit].
    reflexivity.
  - (* only the predecessor is free *)
    rewrite E8. unfold usize. rewrite Z.mod_small by lia.
    assert (Hm2 : (bsize b + bsize p) mod 8 = 0) by (apply mod8_add; assumption).
    unfold put, set_mem, FTRP, PREV_BLKP, NEXT_BLKP, HDRP, WSIZE, DSIZE. cbn [mem next_fit].
    fold m. rewrite E6.
    rewrite !(GET_SIZE_PUT_other m) by lia. rewrite E9.
    rewrite !(GET_SIZE_PUT_other _ (bp - bsize p - 4) _ (bp - 8)) by lia.
    rewrite !(GET_SIZE_PUT_other m) by lia. rewrite E9.
    rewrite !GET_SIZE_PUT_same by lia.
    unfold relocate, set_mem, set_next_fit, HDRP, WSIZE, DSIZE. cbn [mem next_fit].
    replace (bsize b + bsize p) with (bsize p + bsize b) by lia.
    reflexivity.
  - (* both neighbours are free *)
    assert (Hl2ne : l2 <> []) by (destruct l2; [discriminate|congruence]).
    destruct (Hsf Hl2ne) as [Hn8 Hnf].
    assert (E10 : GET_SIZE m (FTRP m (bp + bsize b)) = succ_size l2).
    { unfold FTRP, HDRP, WSIZE, DSIZE. rewrite E7.
      apply (GET_SIZE_PACK _ _ _ (Z.b2z false)); auto using b2z_range. }
    rewrite E8, E10. unfold usize, u32.
    rewrite (Z.mod_small (bsize p + succ_size l2)) by lia.
    rewrite Z.mod_small by lia.
    assert (Hm2 : (bsize b + (bsize p + succ_size l2)) mod 8 = 0)
      by (repeat apply mod8_add; assumption).
    unfold put, set_mem, FTRP, PREV_BLKP, NEXT_BLKP, HDRP, WSIZE, DSIZE. cbn [mem next_fit].
    fold m.
    rewrite !(GET_SIZE_PUT_other m (bp - bsize p - 4)) by lia. rewrite E6, E7.
    rewrite !(GET_SIZE_PUT_other _ _ _ (bp - 8)) by lia. rewrite E9.
    rewrite !(GET_SIZE_PUT_other _ (bp + bsize b + succ_size l2 - 8)) by lia.
    rewrite !GET_SIZE_PUT_same by lia.
    unfold relocate, retag, set_mem, set_next_fit, HDRP, WSIZE, DSIZE. cbn [mem next_fit].
    replace (bsize b + (bsize p + succ_size l2)) with (bsize p + bsize b + succ_size l2) by lia.
    replace (bp - bsize p + (bsize p + bsize b + succ_size l2) - 8)
      with (bp + bsize b + succ_size l2 - 8) by lia.
    reflexivity.
Qed.

(** ** place: split or consume *)

Lemma retag_block_at m bp s a :
  block_ok (mkblock s a) ->
  block_at (retag m bp s (Z.b2z a)) bp (mkblock s a).
Proof.
  intros Hok. destruct (block_ok_range _ Hok) as [Hr Hm]. simpl in Hr, Hm.
  assert (8 <= s) by (destruct Hok as [H _]; unfold DSIZE in H; simpl in H; lia).
  pose proof (b2z_range a).
  split; [exact Hok|]. unfold retag, tag, HDRP, WSIZE, DSIZE. simpl bsize. simpl balloc.
  split.
  - rewrite GET_PUT_other by lia. apply GET_PUT_PACK; assumption.
  - apply GET_PUT_PACK; assumption.
Qed.

Lemma same_on_retag lo hi m bp s a :
  hi <= bp - 8 \/ (bp <= lo /\ bp + s - 4 <= lo) -> 0 <= s ->
  same_on lo hi m (retag m bp s a).
Proof.
  intros H Hs. unfold retag, HDRP, WSIZE, DSIZE.
  eapply same_on_trans; [|apply same_on_PUT; lia]. apply same_on_PUT; lia.
Qed.

Lemma same_on_retag_block lo hi m bp s a :
  hi <= bp - 4 \/ bp + s - 4 <= lo -> 8 <= s ->
  same_on lo hi m (retag m bp s a).
Proof.
  intros H Hs. unfold retag, HDRP, WSIZE, DSIZE.
  eapply same_on_trans; [|apply same_on_PUT; lia]. apply same_on_PUT; lia.
Qed.

Lemma mod8_mul asize : asize mod 8 = 0 -> asize = 8 * (asize / 8).
Proof. intros H. pose proof (Z.div_mod asize 8 ltac:(lia)). lia. Qed.

Lemma place_cases st bp b asize :
  block_ok b -> GET (mem st) (HDRP bp) = tag b ->
  asize mod 8 = 0 -> 0 <= asize <= bsize b ->
  place bp asize st =
  advance bp asize (bsize b) (set_mem (placed (mem st) bp asize (bsize b)) st).
Proof.
  intros Hok Hh Hm Ha.
  destruct (block_ok_range b Hok) as [Hr Hbm].
  pose proof (mod8_mul _ Hm) as Hk.
  assert (Hb8 : 8 <= bsize b) by (destruct Hok as [H _]; unfold DSIZE in H; lia).
  assert (Hu : u32 asize = asize) by (apply Z.mod_small; lia).
  assert (Hpow : 2 ^ 32 < 2 ^ 64) by reflexivity.
  assert (Hus : usize (bsize b - asize) = bsize b - asize) by (apply Z.mod_small; lia).
  unfold place. rewrite !Hu.
  rewrite (GET_SIZE_tag _ _ b) by assumption. rewrite !Hus.
  unfold advance, placed. rewrite Z.geb_leb.
  destruct (Z.leb_spec (2 * DSIZE) (bsize b - asize)) as [Hs|Hs]; unfold DSIZE in Hs.
  - assert (Hm2 : (bsize b - asize) mod 8 = 0).
    { rewrite Zminus_mod, Hbm, Hm. reflexivity. }
    unfold put, set_mem, FTRP, NEXT_BLKP, HDRP, WSIZE, DSIZE. cbn [mem next_fit].
    rewrite !GET_SIZE_PUT_same by lia.
    rewrite !(GET_SIZE_PUT_other _ (bp + asize - 8)) by lia.
    rewrite !GET_SIZE_PUT_same by lia.
    rewrite !(GET_SIZE_PUT_other _ (bp + asize + (bsize b - asize) - 8)) by lia.
    rewrite !GET_SIZE_PUT_same by lia.
    unfold retag, set_next_fit, HDRP, WSIZE, DSIZE. cbn [mem next_fit].
    replace (bp + asize + (bsize b - asize)) with (bp + bsize b) by lia.
    reflexivity.
  - unfold put, set_mem, FTRP, NEXT_BLKP, HDRP, WSIZE, DSIZE. cbn [mem next_fit].
    rewrite !GET_SIZE_PUT_same by lia.
    rewrite !(GET_SIZE_PUT_other _ (bp + bsize b - 8)) by lia.
    rewrite !GET_SIZE_PUT_same by lia.
    unfold retag, set_next_fit, HDRP, WSIZE, DSIZE. cbn [mem next_fit].
    reflexivity.
Qed.

Lemma same_on_placed lo hi m bp asize csize :
  hi <= bp - 8 \/ bp + csize - 4 <= lo -> 0 <= asize <= csize -> 8 <= csize ->
  same_on lo hi m (placed m bp asize csize).
Proof.
  intros H Ha Hc. unfold placed.
  destruct (Z.leb_spec (2 * DSIZE) (csize - asize)); unfold DSIZE in *.
  - eapply same_on_trans; [|apply same_on_retag; lia]. apply same_on_retag; lia.
  - apply same_on_retag; lia.
Qed.

Lemma mem_advance bp asize csize st : mem (advance bp asize csize st) = mem st.
Proof.
  unfold advance.
  repeat match goal with |- context [if ?c then _ else _] => destruct c end;
    reflexivity.
Qed.

Lemma GET_SIZE_range m p : 0 <= GET_SIZE m p < 2 ^ 32.
Proof.
  unfold GET_SIZE. pose proof (GET_range m p). rewrite land_mask_size by assumption.
  pose proof (Z.mod_pos_bound (GET m p) 8 ltac:(lia)).
  pose proof (Z.div_mod (GET m p) 8 ltac:(lia)). lia.
Qed.

(** Whatever its arguments, [place] writes no byte below [bp - 8]. *)
Lemma place_same_below lo hi bp asize st :
  hi <= bp - 8 -> same_on lo hi (mem st) (mem (place bp asize st)).
Proof.
  intros H. unfold place.
  destruct (usize _ >=? _).
  - match goal with
    | |- context [if ?c then _ else _] => destruct c
    end; unfold put, set_mem, set_next_fit, FTRP, NEXT_BLKP, HDRP, WSIZE, DSIZE;
      cbn [mem next_fit];
      repeat (eapply same_on_trans;
              [|apply same_on_PUT;
                repeat match goal with
                       | |- context [GET_SIZE ?m ?p] =>
                           lazymatch goal with
                           | _ : 0 <= GET_SIZE m p < _ |- _ => fail
                           | _ => pose proof (GET_SIZE_range m p)
                           end
                       end; lia]);
      apply same_on_refl.
  - match goal with
    | |- context [if ?c then _ else _] => destruct c
    end; unfold put, set_mem, set_next_fit, FTRP, NEXT_BLKP, HDRP, WSIZE, DSIZE;
      cbn [mem next_fit];
      repeat (eapply same_on_trans;
              [|apply same_on_PUT;
                repeat match goal with
                       | |- context [GET_SIZE ?m ?p] =>
                           lazymatch goal with
                           | _ : 0 <= GET_SIZE m p < _ |- _ => fail
                           | _ => pose proof (GET_SIZE_range m p)
                           end
                       end; lia]);
      apply same_on_refl.
Qed.

(** ** Size arithmetic of mm_malloc *)

Lemma adjust_size_range size :
  0 <= size < 2 ^ 32 ->
  0 <= adjust_size size < 2 ^ 32 /\ adjust_size size mod 8 = 0.
Proof.
  intros Hs. unfold adjust_size, DSIZE.
  destruct (size <=? 8); [split; [lia|reflexivity]|].
  set (x := u32 (size + 8 + (8 - 1)) / 8).
  unfold u32.
  split; [apply Z.mod_pos_bound; lia|].
  rewrite (Z.mod_eq (8 * x)) by lia.
  replace (8 * x - 2 ^ 32 * (8 * x / 2 ^ 32))
    with ((x - 2 ^ 29 * (8 * x / 2 ^ 32)) * 8)
    by (change (2 ^ 32) with (8 * 2 ^ 29); lia).
  apply Z.mod_mul. lia.
Qed.

Lemma adjust_size_small size :
  0 < size <= 2 ^ 32 - 16 ->
  adjust_size size = 8 * ((size + 15) / 8).
Proof.
  intros Hs. unfold adjust_size, DSIZE.
  destruct (Z.leb_spec size 8).
  - assert (2 <= (size + 15) / 8 < 3); [|lia].
    split; [apply Z.div_le_lower_bound|apply Z.div_lt_upper_bound]; lia.
  - unfold u32. replace (size + 8 + (8 - 1)) with (size + 15) by lia.
    rewrite (Z.mod_small (size + 15)) by lia.
    apply Z.mod_small.
    pose proof (Z.div_mod (size + 15) 8 ltac:(lia)).
    pose proof (Z.mod_pos_bound (size + 15) 8 ltac:(lia)). lia.
Qed.

Lemma to_int_small z : 0 <= z < 2 ^ 31 -> to_int z = z.
Proof.
  intros H. unfold to_int. rewrite Z.mod_small; lia.
Qed.

Lemma to_int_large z : 2 ^ 31 <= z < 2 ^ 32 -> to_int z = z - 2 ^ 32.
Proof.
  intros H. unfold to_int.
  replace (z + 2 ^ 31) with ((z - 2 ^ 31) + 1 * 2 ^ 32) by lia.
  rewrite Z.mod_add by lia. rewrite Z.mod_small; lia.
Qed.

Lemma extend_size_value asize :
  0 <= asize < 2 ^ 32 ->
  extend_size asize = if asize <? 2 ^ 31 then Z.max asize 4096 else 4096.
Proof.
  intros Ha. unfold extend_size, MAX, CHUNKSIZE.
  change (Z.shiftl 1 12) with 4096. rewrite (to_int_small 4096) by lia.
  assert (Hpow : 2 ^ 31 < 2 ^ 64) by reflexivity.
  destruct (Z.ltb_spec asize (2 ^ 31)).
  - rewrite to_int_small by lia.
    destruct (Z.gtb_spec asize 4096); unfold usize; rewrite Z.mod_small; lia.
  - rewrite to_int_large by lia.
    destruct (Z.gtb_spec (asize - 2 ^ 32) 4096); [lia|reflexivity].
Qed.

Lemma extend_bytes_even n :
  0 <= n < 2 ^ 32 -> n mod 8 = 0 -> extend_bytes (n / WSIZE) = n.
Proof.
  intros Hn Hm. unfold extend_bytes, WSIZE.
  pose proof (mod8_mul _ Hm) as Hk.
  assert (Hw : n / 4 = 2 * (n / 8)).
  { rewrite Hk at 1. replace (8 * (n / 8)) with (2 * (n / 8) * 4) by lia.
    apply Z.div_mul. lia. }
  assert (Hu : u32 (n / 4) = n / 4).
  { apply Z.mod_small. lia. }
  rewrite Hu. rewrite Hw at 1. rewrite Z.mul_comm, Z.mod_mul by lia. simpl.
  unfold u32. rewrite Z.mod_small; lia.
Qed.

Lemma extend_request asize :
  0 <= asize < 2 ^ 32 -> asize mod 8 = 0 ->
  extend_bytes (extend_size asize / WSIZE) = extend_size asize
  /\ 4096 <= extend_size asize < 2 ^ 31 /\ extend_size asize mod 8 = 0.
Proof.
  intros Ha Hm. pose proof (extend_size_value asize Ha) as E.
  assert (Hr : 4096 <= extend_size asize < 2 ^ 31)
    by (rewrite E; destruct (Z.ltb_spec asize (2 ^ 31)); lia).
  assert (Hm8 : extend_size asize mod 8 = 0).
  { rewrite E. destruct (Z.ltb_spec asize (2 ^ 31)); [|reflexivity].
    destruct (Z.max_spec asize 4096) as [[_ ->]|[_ ->]]; [reflexivity|assumption]. }
  split; [|split; assumption].
  apply extend_bytes_even; [lia|assumption].
Qed.

(** ** The growth primitive *)

Lemma mem_sbrk_value size st :
  0 <= size < 2 ^ 31 ->
  mem_sbrk size st =
  if mem_max_addr st <? mem_brk st + size then (-1, st)
  else (mem_brk st, set_brk (mem_brk st + size) st).
Proof.
  intros H. unfold mem_sbrk. rewrite to_int_small by assumption.
  destruct (Z.ltb_spec size 0); [lia|]. reflexivity.
Qed.

Lemma heap_ok_brk_pos st l : heap_ok st l -> heap_listp st + DSIZE <= mem_brk st.
Proof.
  intros Hok. rewrite (ok_brk _ _ Hok).
  destruct (ok_blocks _ _ Hok) as [_ Hl]. apply blocks_at_total_nonneg in Hl.
  cbn [total prologue bsize]. unfold DSIZE. lia.
Qed.

Lemma extend_heap_grow words st l :
  let size := extend_bytes words in
  heap_ok st l ->
  DSIZE <= size < 2 ^ 31 -> size mod 8 = 0 ->
  mem_brk st + size <= mem_max_addr st ->
  extend_heap words st = coalesce (mem_brk st) (extended size st)
  /\ heap_ok (extended size st) (l ++ [mkblock size false]).
Proof.
  intros size Hok Hr Hm Hfit. unfold DSIZE in Hr.
  pose proof (heap_ok_brk_pos _ _ Hok) as Hpos. pose proof (ok_base _ _ Hok) as Hbase.
  unfold DSIZE in Hpos, Hbase.
  split.
  - unfold extend_heap. fold size. rewrite mem_sbrk_value by lia.
    destruct (Z.ltb_spec (mem_max_addr st) (mem_brk st + size)); [lia|].
    destruct (Z.eqb_spec (mem_brk st) (-1)); [lia|].
    unfold put, set_mem, set_brk, FTRP, NEXT_BLKP, HDRP, WSIZE, DSIZE.
    cbn [mem mem_brk next_fit heap_listp mem_max_addr].
    rewrite !GET_SIZE_PUT_same by lia.
    rewrite !(GET_SIZE_PUT_other _ (mem_brk st + size - 8)) by lia.
    rewrite !GET_SIZE_PUT_same by lia.
    reflexivity.
  - assert (Hnew : block_ok (mkblock size false)).
    { split; simpl; unfold DSIZE; [lia|assumption]. }
    pose proof (ok_blocks _ _ Hok) as Hbl.
    pose proof (ok_brk _ _ Hok) as Hbrk.
    constructor; unfold extended; cbn [mem mem_brk next_fit heap_listp mem_max_addr set_mem set_brk].
    + exact (ok_base _ _ Hok).
    + change (prologue :: l ++ [mkblock size false])
        with ((prologue :: l) ++ [mkblock size false]).
      apply blocks_at_app. split.
      * eapply (blocks_at_same_on (heap_listp st - 4) (mem_brk st - 4)); [| | |exact Hbl]; try lia.
        unfold retag, HDRP, WSIZE, DSIZE.
        eapply same_on_trans; [|apply same_on_PUT; lia].
        eapply same_on_trans; [|apply same_on_PUT; lia].
        apply same_on_PUT; lia.
      * rewrite <- Hbrk. split; [|exact I].
        eapply (block_at_same_on (mem_brk st - 4) (mem_brk st + size - 4));
          [| | |apply (retag_block_at (mem st) (mem_brk st) size false Hnew)]; simpl bsize; try lia.
        apply same_on_PUT. unfold WSIZE. lia.
    + change (prologue :: l ++ [mkblock size false])
        with ((prologue :: l) ++ [mkblock size false]).
      rewrite total_app, Z.add_assoc, <- Hbrk. simpl. lia.
    + unfold HDRP. apply GET_PUT_PACK; [lia|reflexivity|lia].
    + lia.
    + exact (ok_tagged _ _ Hok).
Qed.

Lemma extend_heap_fail words st :
  0 <= extend_bytes words < 2 ^ 31 ->
  mem_max_addr st < mem_brk st + extend_bytes words ->
  extend_heap words st = (NULL, st).
Proof.
  intros Hr Hfail. unfold extend_heap. rewrite mem_sbrk_value by assumption.
  destruct (Z.ltb_spec (mem_max_addr st) (mem_brk st + extend_bytes words)); [|lia].
  reflexivity.
Qed.

(** ** Where a search result sits in the sequence *)

Lemma first_fit_split asize l : forall bp r,
  first_fit asize bp l = Some r ->
  exists x f y, l = x ++ f :: y /\ r = bp + total x /\ block_fits asize f = true
                /\ Forall (fun b => block_fits asize b = false) x.
Proof.
  induction l as [|b l IH]; intros bp r; simpl; [discriminate|].
  destruct (block_fits asize b) eqn:E.
  - intros [= <-]. exists [], b, l. simpl. repeat split; auto; lia.
  - intros H. destruct (IH _ _ H) as (x & f & y & -> & -> & Hf & Hx).
    exists (b :: x), f, y. simpl. repeat split; auto; lia.
Qed.

Lemma first_fit_none asize l : forall bp,
  first_fit asize bp l = None <-> Forall (fun b => block_fits asize b = false) l.
Proof.
  induction l as [|b l IH]; intros bp; simpl.
  - split; auto.
  - destruct (block_fits asize b) eqn:E; split; intros H.
    + discriminate.
    + inversion H; congruence.
    + constructor; [assumption|]. apply (IH (bp + bsize b)). assumption.
    + inversion H; subst. apply IH. assumption.
Qed.

Lemma next_fit_search_split asize start l1 l2 r :
  next_fit_search asize start l1 l2 = Some r ->
  exists x f y, l1 ++ l2 = x ++ f :: y /\ r = start + total x
                /\ block_fits asize f = true.
Proof.
  unfold next_fit_search.
  destruct (first_fit asize (start + total l1) l2) as [r'|] eqn:E2.
  - intros [= <-]. destruct (first_fit_split _ _ _ _ E2) as (x & f & y & -> & -> & Hf & _).
    exists (l1 ++ x), f, y. rewrite total_app, <- app_assoc. repeat split; auto; lia.
  - intros E1. destruct (first_fit_split _ _ _ _ E1) as (x & f & y & -> & -> & Hf & _).
    exists x, f, (y ++ l2). rewrite <- app_assoc. simpl. auto.
Qed.

Lemma next_fit_search_none asize start l1 l2 :
  next_fit_search asize start l1 l2 = None <->
  Forall (fun b => block_fits asize b = false) (l1 ++ l2).
Proof.
  unfold next_fit_search. rewrite Forall_app.
  destruct (first_fit asize (start + total l1) l2) eqn:E2.
  - split; [discriminate|]. intros [_ H]. apply (first_fit_none asize l2 (start + total l1)) in H.
    congruence.
  - rewrite first_fit_none. apply first_fit_none in E2. tauto.
Qed.

(** ** Cutting a list in two ways *)

Section Cuts.
Context {A : Type}.

(** Two cuts of one list: one of them comes first. *)
Lemma app_split (c1 : list A) : forall c2 X R,
  c1 ++ c2 = X ++ R ->
  (exists z, X = c1 ++ z /\ c2 = z ++ R)
  \/ (exists z, c1 = X ++ z /\ R = z ++ c2).
Proof.
  induction c1 as [|a c1 IH]; intros c2 X R E; simpl in E.
  - left. exists X. auto.
  - destruct X as [|x X]; simpl in E.
    + right. exists (a :: c1). subst R. auto.
    + injection E as -> E. destruct (IH _ _ _ E) as [[z [-> ->]]|[z [-> ->]]].
      * left. exists z. auto.
      * right. exists z. auto.
Qed.

(** An element and a cut: the element is before the cut or after it. *)
Lemma elem_split (la : list A) a lb X R :
  la ++ a :: lb = X ++ R ->
  (exists z, X = la ++ a :: z /\ lb = z ++ R)
  \/ (exists z, la = X ++ z /\ R = z ++ a :: lb).
Proof.
  intros E. destruct (app_split _ _ _ _ E) as [[z [-> E2]]|[z [-> ->]]].
  - destruct z as [|a' z]; simpl in E2.
    + right. exists []. rewrite !app_nil_r. split; [reflexivity|symmetry; exact E2].
    + injection E2 as -> ->. left. exists z. auto.
  - right. exists z. auto.
Qed.

(** Two ways of singling out a block of one sequence: the same block, or
    one wholly before the other. *)
Lemma split_compare (l1 : list A) : forall a l2 l1' a' l2',
  l1 ++ a :: l2 = l1' ++ a' :: l2' ->
  (l1 = l1' /\ a = a' /\ l2 = l2')
  \/ (exists mid, l1' = l1 ++ a :: mid)
  \/ (exists mid, l1 = l1' ++ a' :: mid).
Proof.
  induction l1 as [|x l1 IH]; intros a l2 l1' a' l2' H.
  - destruct l1' as [|x' l1']; simpl in H.
    + injection H as -> ->. auto.
    + injection H as -> ->. right; left. exists l1'. reflexivity.
  - destruct l1' as [|x' l1']; simpl in H.
    + injection H as -> <-. right; right. exists l1. reflexivity.
    + injection H as -> H. destruct (IH _ _ _ _ _ H) as [(-> & -> & ->)|[[mid ->]|[mid ->]]].
      * auto.
      * right; left. exists mid. reflexivity.
      * right; right. exists mid. reflexivity.
Qed.

Lemma list_last_split (x : A) (l : list A) : exists l0 y, x :: l = l0 ++ [y].
Proof.
  revert x. induction l as [|a l IH]; intros x.
  - exists [], x. reflexivity.
  - destruct (IH a) as (l0 & y & E). exists (x :: l0), y. rewrite E. reflexivity.
Qed.

Lemma list_last_split_ne (l : list A) : l <> [] -> exists l0 y, l = l0 ++ [y].
Proof.
  destruct l as [|x l]; [congruence|]. intros _. apply list_last_split.
Qed.

End Cuts.

(** The block a successful search returns. *)
Lemma search_block st l l1 l2 asize r :
  heap_ok st l -> cursor_at st l l1 l2 ->
  next_fit_search asize (heap_listp st) l1 l2 = Some r ->
  exists x f y, prologue :: l = x ++ f :: y /\ r = heap_listp st + total x
                /\ balloc f = false /\ asize <= bsize f
                /\ block_at (mem st) r f /\ heap_listp st < r.
Proof.
  intros Hok [Hsplit Hcur] Hs.
  destruct (next_fit_search_split _ _ _ _ _ Hs) as (x & f & y & E & -> & Hf).
  rewrite <- Hsplit in E.
  unfold block_fits in Hf. apply andb_prop in Hf. destruct Hf as [Hfa Hfs].
  apply negb_true_iff in Hfa. apply Z.leb_le in Hfs.
  pose proof (ok_blocks _ _ Hok) as Hbl. rewrite E in Hbl.
  apply blocks_at_app in Hbl. destruct Hbl as [Hx [Hf _]].
  exists x, f, y. repeat split; try assumption; try apply Hf.
  destruct x as [|x0 x]; simpl in E.
  - injection E as E0 _. subst f. discriminate.
  - injection E as E0 _. subst x0. destruct Hx as [_ Hx].
    apply blocks_at_total_nonneg in Hx. cbn [total prologue bsize]. unfold DSIZE. lia.
Qed.

(** ** mm_malloc: search, growth, placement *)

Lemma grown_cases asize st l l0 pl :
  let size := extend_size asize in
  heap_ok st l -> prologue :: l = l0 ++ [pl] ->
  0 <= asize < 2 ^ 32 -> asize mod 8 = 0 ->
  mem_brk st + size <= mem_max_addr st ->
  heap_ok (extended size st) (l ++ [mkblock size false]) /\
  grown asize st =
  if balloc pl then (mem_brk st, extended size st)
  else
    (mem_brk st - bsize pl,
     relocate (mem_brk st - bsize pl) (bsize pl + size)
       (set_mem (PUT (PUT (mem (extended size st))
                          (mem_brk st + size - DSIZE) (PACK (bsize pl + size) 0))
                     (HDRP (mem_brk st - bsize pl)) (PACK (bsize pl + size) 0))
          (extended size st))).
Proof.
  intros size Hok Hlast Ha Hm Hfit.
  destruct (extend_request asize Ha Hm) as (Eb & Er & Em).
  pose proof (extend_heap_grow (extend_size asize / WSIZE) st l) as Hg.
  cbv zeta in Hg. rewrite Eb in Hg.
  destruct Hg as [_ Hok']; unfold DSIZE; try assumption; try lia.
  fold size in Hok'. split; [exact Hok'|].
  unfold grown. fold size.
  rewrite (coalesce_cases _ _ l0 pl (mkblock size false) [] (mem_brk st) Hok').
  - simpl succ_alloc. cbn [bsize]. destruct (balloc pl); reflexivity.
  - change (prologue :: l ++ [mkblock size false])
      with ((prologue :: l) ++ [mkblock size false]).
    rewrite Hlast, <- app_assoc. reflexivity.
  - unfold extended. cbn [heap_listp set_mem set_brk].
    rewrite (ok_brk _ _ Hok), Hlast, total_app. simpl. lia.
Qed.

Lemma grown_nonnull asize st l :
  heap_ok st l -> 0 <= asize < 2 ^ 32 -> asize mod 8 = 0 ->
  mem_brk st + extend_size asize <= mem_max_addr st ->
  heap_listp st <= fst (grown asize st).
Proof.
  intros Hok Ha Hm Hfit.
  destruct (list_last_split prologue l) as (l0 & pl & Hlast).
  destruct (grown_cases asize st l l0 pl Hok Hlast Ha Hm Hfit) as [_ E].
  rewrite E. pose proof (heap_ok_brk_pos _ _ Hok). unfold DSIZE in *.
  destruct (balloc pl); simpl; [lia|].
  pose proof (ok_blocks _ _ Hok) as Hbl. rewrite Hlast in Hbl.
  apply blocks_at_app in Hbl. destruct Hbl as [H0 _].
  apply blocks_at_total_nonneg in H0.
  rewrite (ok_brk _ _ Hok), Hlast, total_app. simpl. lia.
Qed.

Lemma mm_malloc_cases fuel size st l l1 l2 :
  let asize := adjust_size size in
  heap_ok st l -> cursor_at st l l1 l2 ->
  (length l + 1 < fuel)%nat ->
  0 < size < 2 ^ 32 ->
  mm_malloc fuel size st =
  Some (match next_fit_search asize (heap_listp st) l1 l2 with
        | Some r => (r, place r asize (set_next_fit r st))
        | None =>
            if mem_max_addr st <? mem_brk st + extend_size asize
            then (NULL, st)
            else (fst (grown asize st),
                  place (fst (grown asize st)) asize (snd (grown asize st)))
        end).
Proof.
  intros asize Hok Hcur Hfuel Hsize.
  destruct (adjust_size_range size ltac:(lia)) as [Har Ham]. fold asize in Har, Ham.
  unfold mm_malloc. unfold u32. rewrite (Z.mod_small size) by lia.
  destruct (Z.eqb_spec size 0); [lia|]. fold asize.
  rewrite (find_fit_spec fuel asize st l l1 l2) by assumption.
  destruct (next_fit_search asize (heap_listp st) l1 l2) as [r|] eqn:Es.
  - destruct (search_block _ _ _ _ _ _ Hok Hcur Es) as (_ & _ & _ & _ & _ & _ & _ & _ & Hr).
    pose proof (ok_base _ _ Hok). unfold DSIZE, NULL in *.
    destruct (Z.eqb_spec r 0); [lia|]. reflexivity.
  - change (negb (NULL =? NULL)) with false. cbv iota.
    destruct (extend_request asize Har Ham) as (Eb & Er & Em).
    destruct (Z.ltb_spec (mem_max_addr st) (mem_brk st + extend_size asize)) as [Hf|Hf].
    + rewrite extend_heap_fail by (rewrite Eb; lia). reflexivity.
    + pose proof (extend_heap_grow (extend_size asize / WSIZE) st l) as Hg.
      cbv zeta in Hg. rewrite Eb in Hg.
      destruct Hg as [E _]; unfold DSIZE; try assumption; try lia.
      rewrite E. fold (grown asize st).
      pose proof (grown_nonnull asize st l Hok Har Ham Hf) as Hnn.
      pose proof (ok_base _ _ Hok). unfold DSIZE, NULL in *.
      destruct (grown asize st) as [bp st']. simpl in Hnn |- *.
      destruct (Z.eqb_spec bp 0); [lia|]. reflexivity.
Qed.

(** ** mm_malloc leaves the allocated blocks alone *)

Lemma mem_relocate bp size st : mem (relocate bp size st) = mem st.
Proof. unfold relocate. destruct (_ && _); reflexivity. Qed.

Lemma same_on_extended lo hi size st :
  hi <= mem_brk st - 4 -> 8 <= size ->
  same_on lo hi (mem st) (mem (extended size st)).
Proof.
  intros H Hs. unfold extended, retag, HDRP, WSIZE, DSIZE. cbn [mem set_mem].
  eapply same_on_trans; [|apply same_on_PUT; lia].
  eapply same_on_trans; [|apply same_on_PUT; lia].
  apply same_on_PUT; lia.
Qed.

(** A block of the sequence, its address and extent. *)
Lemma block_in_heap st l la b lb :
  heap_ok st l -> prologue :: l = la ++ b :: lb ->
  block_at (mem st) (heap_listp st + total la) b
  /\ 0 <= total la /\ 0 <= total lb
  /\ heap_listp st + total la + bsize b + total lb = mem_brk st.
Proof.
  intros Hok E. pose proof (ok_blocks _ _ Hok) as Hbl. rewrite E in Hbl.
  apply blocks_at_app in Hbl. destruct Hbl as [Ha [Hb Hlb]].
  split; [exact Hb|].
  split; [eapply blocks_at_total_nonneg; eassumption|].
  split; [eapply blocks_at_total_nonneg; eassumption|].
  rewrite (ok_brk _ _ Hok), E, total_app. simpl. lia.
Qed.

Lemma mm_malloc_keeps_block fuel size st l l1 l2 la b lb r st' :
  heap_ok st l -> cursor_at st l l1 l2 ->
  (length l + 1 < fuel)%nat ->
  0 <= size < 2 ^ 32 ->
  prologue :: l = la ++ b :: lb -> balloc b = true ->
  mm_malloc fuel size st = Some (r, st') ->
  same_on (heap_listp st + total la - 4) (heap_listp st + total la)
    (mem st) (mem st').
Proof.
  intros Hok Hcur Hfuel Hsize Eb Hb Hmal.
  destruct (Z.eq_dec size 0) as [->|Hnz].
  { unfold mm_malloc in Hmal. simpl in Hmal. injection Hmal as _ <-. apply same_on_refl. }
  rewrite (mm_malloc_cases fuel size st l l1 l2) in Hmal by (assumption || lia).
  destruct (adjust_size_range size ltac:(lia)) as [Har Ham].
  set (asize := adjust_size size) in *.
  destruct (block_in_heap _ _ _ _ _ Hok Eb) as (Hbat & Hla & Hlb & Hext).
  assert (Hb8 : 8 <= bsize b) by (destruct Hbat as [[H _] _]; unfold DSIZE in H; lia).
  set (ptr := heap_listp st + total la) in *.
  destruct (next_fit_search asize (heap_listp st) l1 l2) as [r0|] eqn:Es.
  - injection Hmal as <- <-.
    destruct (search_block _ _ _ _ _ _ Hok Hcur Es)
      as (x & f & y & Ef & Hr & Hfa & Hfs & Hfat & _).
    destruct Hfat as (Hfok & Hfh & _).
    rewrite (place_cases _ _ f) by (assumption || lia).
    rewrite mem_advance. cbn [mem set_mem set_next_fit].
    assert (Hf8 : 8 <= bsize f) by (destruct Hfok as [H _]; unfold DSIZE in H; lia).
    apply same_on_placed; [|lia|lia].
    destruct (block_in_heap _ _ _ _ _ Hok Ef) as (_ & Hx & Hy & _).
    rewrite Eb in Ef.
    destruct (split_compare _ _ _ _ _ _ Ef) as [(_ & -> & _)|[[mid Em]|[mid Em]]].
    + congruence.
    + left. subst x. rewrite total_app in Hr. simpl in Hr.
      assert (0 <= total mid).
      { rewrite <- app_assoc in Ef. apply app_inv_head in Ef. injection Ef as Ef.
        pose proof (ok_blocks _ _ Hok) as Hbl. rewrite Eb, Ef in Hbl.
        apply blocks_at_app in Hbl. destruct Hbl as [_ [_ Hbl]].
        apply blocks_at_app in Hbl. destruct Hbl as [Hbl _].
        eapply blocks_at_total_nonneg; eassumption. }
      unfold ptr. lia.
    + right. unfold ptr. rewrite Em, total_app. simpl.
      assert (0 <= total mid).
      { pose proof (ok_blocks _ _ Hok) as Hbl. rewrite Eb, Em in Hbl.
        apply blocks_at_app in Hbl. destruct Hbl as [Hbl _].
        apply blocks_at_app in Hbl. destruct Hbl as [_ [_ Hbl]].
        eapply blocks_at_total_nonneg; eassumption. }
      lia.
  - destruct (Z.ltb_spec (mem_max_addr st) (mem_brk st + extend_size asize)) as [Hf|Hf].
    + injection Hmal as _ <-. apply same_on_refl.
    + injection Hmal as _ <-.
      destruct (extend_request asize Har Ham) as (_ & Er & _).
      destruct (list_last_split prologue l) as (l0 & pl & Hlast).
      destruct (grown_cases asize st l l0 pl Hok Hlast Har Ham Hf) as [_ E].
      rewrite E.
      assert (Hsx : same_on (ptr - 4) ptr (mem st) (mem (extended (extend_size asize) st))).
      { apply same_on_extended; lia. }
      destruct (balloc pl) eqn:Hpl; cbn [fst snd].
      * eapply same_on_trans; [exact Hsx|].
        apply place_same_below. lia.
      * assert (Hlt : ptr + 8 <= mem_brk st - bsize pl).
        { destruct (block_in_heap _ _ _ _ _ Hok Hlast) as (_ & H0 & _ & Hx).
          simpl in Hx. rewrite Eb in Hlast.
          destruct (split_compare _ _ _ _ _ _ Hlast) as [(_ & -> & _)|[[mid Em]|[mid Em]]].
          - congruence.
          - assert (0 <= total mid).
            { rewrite Em, <- app_assoc in Hlast. apply app_inv_head in Hlast.
              injection Hlast as Hlast.
              pose proof (ok_blocks _ _ Hok) as Hbl. rewrite Eb, Hlast in Hbl.
              apply blocks_at_app in Hbl. destruct Hbl as [_ [_ Hbl]].
              apply blocks_at_app in Hbl. destruct Hbl as [Hbl _].
              eapply blocks_at_total_nonneg; eassumption. }
            rewrite Em, total_app in Hx. simpl in Hx. unfold ptr. lia.
          - rewrite Em, <- app_assoc in Hlast. apply app_inv_head in Hlast.
            injection Hlast as Hlast. destruct mid; discriminate. }
        eapply same_on_trans; [|apply place_same_below; lia].
        rewrite mem_relocate. cbn [mem set_mem].
        eapply same_on_trans; [exact Hsx|].
        unfold HDRP, WSIZE, DSIZE.
        eapply same_on_trans; [|apply same_on_PUT; lia].
        apply same_on_PUT. lia.
Qed.

(** ** Where the size arithmetic is exact *)

(** Below the wrap of the 32-bit sum the adjusted size is the least
    multiple of 8 that holds the payload and the two tags. *)
Lemma adjust_size_least size :
  0 < size <= 2 ^ 32 - 16 ->
  adjust_size size mod DSIZE = 0
  /\ size + 2 * WSIZE <= adjust_size size
  /\ (forall k, k mod DSIZE = 0 -> size + 2 * WSIZE <= k -> adjust_size size <= k)
  /\ 4 * WSIZE <= adjust_size size.
Proof.
  intros Hs. rewrite adjust_size_small by assumption. unfold DSIZE, WSIZE.
  pose proof (Z.div_mod (size + 15) 8 ltac:(lia)) as Hd.
  pose proof (Z.mod_pos_bound (size + 15) 8 ltac:(lia)) as Hr.
  split; [rewrite Z.mul_comm; apply Z.mod_mul; lia|].
  split; [lia|]. split; [|lia].
  intros k Hk Hle. pose proof (mod8_mul _ Hk). lia.
Qed.

(** Below 2^31 the growth request is [max(asize, CHUNKSIZE)], already an
    even number of words. *)
Lemma growth_request_small size :
  0 < size <= 2 ^ 31 - 16 ->
  growth_request size = Z.max (adjust_size size) CHUNKSIZE.
Proof.
  intros Hs. unfold growth_request.
  destruct (adjust_size_range size ltac:(lia)) as [Hr Hm].
  destruct (extend_request _ Hr Hm) as (-> & _ & _).
  rewrite extend_size_value by assumption.
  assert (adjust_size size < 2 ^ 31).
  { rewrite adjust_size_small by lia.
    pose proof (Z.div_mod (size + 15) 8 ltac:(lia)).
    pose proof (Z.mod_pos_bound (size + 15) 8 ltac:(lia)). lia. }
  destruct (Z.ltb_spec (adjust_size size) (2 ^ 31)); [reflexivity|lia].
Qed.

Lemma memcpy_copied m dst src n i :
  0 <= i < n -> memcpy m dst src n (dst + i) = m (src + i).
Proof.
  intros Hi. unfold memcpy.
  destruct (Z.leb_spec dst (dst + i)); [|lia].
  destruct (Z.ltb_spec (dst + i) (dst + n)); [|lia].
  simpl. f_equal. lia.
Qed.

Lemma memcpy_outside m dst src n a :
  a < dst \/ dst + n <= a -> memcpy m dst src n a = m a.
Proof.
  intros Ha. unfold memcpy.
  destruct (Z.leb_spec dst a); destruct (Z.ltb_spec a (dst + n)); simpl; try reflexivity; lia.
Qed.

(** ** Initialisation *)

Lemma mm_init_ok st0 :
  0 < mem_brk st0 ->
  mem_brk st0 + 4 * WSIZE + CHUNKSIZE <= mem_max_addr st0 ->
  mem_max_addr st0 - mem_brk st0 < 2 ^ 32 ->
  exists st, mm_init st0 = (0, st)
             /\ heap_ok st [mkblock CHUNKSIZE false]
             /\ cursor_at st [mkblock CHUNKSIZE false] []
                  [prologue; mkblock CHUNKSIZE false].
Proof.
  intros Hpos Hfit Hlim. unfold WSIZE in Hfit. change CHUNKSIZE with 4096 in *.
  unfold mm_init. unfold WSIZE at 1. rewrite mem_sbrk_value by (simpl; lia).
  destruct (Z.ltb_spec (mem_max_addr st0) (mem_brk st0 + 4 * 4)); [lia|].
  cbn [heap_listp set_heap_listp set_brk].
  destruct (Z.eqb_spec (mem_brk st0) (-1)); [lia|].
  set (b0 := mem_brk st0) in *.
  match goal with
  | |- context [extend_heap ?w ?s] => set (st3 := s)
  end.
  assert (Hok3 : heap_ok st3 []).
  { unfold st3, put, set_mem, set_heap_listp, set_next_fit, set_brk, WSIZE, DSIZE.
    cbn [mem mem_brk heap_listp next_fit mem_max_addr].
    constructor; cbn [mem mem_brk heap_listp next_fit mem_max_addr].
    - unfold DSIZE. lia.
    - cbn [blocks_at]. split; [|exact I].
      split; [split; [unfold prologue, DSIZE; simpl; lia|reflexivity]|].
      unfold HDRP, WSIZE, DSIZE, tag, prologue. cbn [bsize balloc Z.b2z].
      split.
      + replace (b0 + 2 * 4 - 4) with (b0 + 1 * 4) by lia.
        rewrite !(GET_PUT_other _ _ _ (b0 + 1 * 4)) by lia.
        unfold DSIZE; apply GET_PUT_PACK; [change (2 ^ 32) with 4294967296; lia|reflexivity|lia].
      + unfold DSIZE. replace (b0 + 2 * 4 + 8 - 8) with (b0 + 2 * 4) by lia.
        rewrite !(GET_PUT_other _ _ _ (b0 + 2 * 4)) by lia.
        unfold DSIZE; apply GET_PUT_PACK; [change (2 ^ 32) with 4294967296; lia|reflexivity|lia].
    - simpl. unfold DSIZE. lia.
    - unfold HDRP, WSIZE. replace (b0 + 4 * 4 - 4) with (b0 + 3 * 4) by lia.
      unfold DSIZE; apply GET_PUT_PACK; [change (2 ^ 32) with 4294967296; lia|reflexivity|lia].
    - lia.
    - lia. }
  assert (Hbrk3 : mem_brk st3 = b0 + 16) by (unfold st3; simpl; unfold WSIZE; lia).
  assert (Hmax3 : mem_max_addr st3 = mem_max_addr st0) by reflexivity.
  assert (Hhl3 : heap_listp st3 = b0 + 8) by (unfold st3; simpl; unfold WSIZE; lia).
  assert (Eb : extend_bytes (CHUNKSIZE / WSIZE) = 4096) by reflexivity.
  pose proof (extend_heap_grow (CHUNKSIZE / WSIZE) st3 [] Hok3) as Hg.
  cbv zeta in Hg. rewrite Eb in Hg.
  destruct Hg as [E Hok4]; unfold DSIZE; try lia; try reflexivity.
  rewrite E.
  rewrite (coalesce_cases _ _ [] prologue (mkblock 4096 false) [] (mem_brk st3) Hok4);
    [|reflexivity|].
  2:{ unfold extended. simpl. unfold DSIZE. lia. }
  simpl balloc. simpl succ_alloc. cbv iota.
  destruct (Z.eqb_spec (mem_brk st3) NULL); [unfold NULL in *; lia|].
  eexists. split; [reflexivity|]. split; [exact Hok4|].
  split; [reflexivity|]. cbn [total]. rewrite Z.add_0_r. reflexivity.
Qed.

(** ** Sequences without two free neighbours *)

Lemma succ_alloc_app l1 l2 :
  succ_alloc (l1 ++ l2) = match l1 with [] => succ_alloc l2 | _ => succ_alloc l1 end.
Proof. destruct l1; reflexivity. Qed.

Lemma last_alloc_cons b l : l <> [] -> last_alloc (b :: l) = last_alloc l.
Proof. destruct l; [congruence|reflexivity]. Qed.

Lemma last_alloc_app l1 l2 :
  last_alloc (l1 ++ l2) = match l2 with [] => last_alloc l1 | _ => last_alloc l2 end.
Proof.
  induction l1 as [|b l1 IH].
  - destruct l2; reflexivity.
  - destruct l2 as [|n l2]; [rewrite app_nil_r; reflexivity|].
    change ((b :: l1) ++ n :: l2) with (b :: (l1 ++ n :: l2)).
    rewrite last_alloc_cons by (destruct l1; discriminate).
    exact IH.
Qed.

Lemma no_adj_free_app l1 l2 :
  no_adj_free (l1 ++ l2) <->
  no_adj_free l1 /\ no_adj_free l2
  /\ (last_alloc l1 = true \/ succ_alloc l2 = true).
Proof.
  induction l1 as [|b l1 IH]; simpl.
  - tauto.
  - rewrite IH, succ_alloc_app. destruct l1 as [|n l1]; simpl; tauto.
Qed.

(** ** Cutting a sequence *)

Lemma blocks_at_ok m bp l : blocks_at m bp l -> Forall block_ok l.
Proof.
  revert bp. induction l as [|b l IH]; intros bp; simpl; [constructor|].
  intros [[Hok _] Hl]. constructor; eauto.
Qed.

Lemma total_nonneg l : Forall block_ok l -> 0 <= total l.
Proof.
  induction 1 as [|b l [Hr _] _ IH]; simpl; unfold DSIZE in *; lia.
Qed.

Lemma total_zero l : Forall block_ok l -> total l <= 0 -> l = [].
Proof.
  intros H. destruct H as [|b l [Hr _] Hl]; simpl; [reflexivity|].
  pose proof (total_nonneg _ Hl). unfold DSIZE in *. lia.
Qed.

(** A boundary of [X ++ M ++ Y] that does not fall inside [M] is a
    boundary of [X ++ M' ++ Y] when [M'] takes as many bytes as [M]. *)
Lemma boundary_replace st X M M' Y c :
  Forall block_ok (X ++ M ++ Y) ->
  total M' = total M ->
  boundary st (X ++ M ++ Y) c ->
  c <= heap_listp st + total X \/ heap_listp st + total X + total M <= c ->
  boundary st (X ++ M' ++ Y) c.
Proof.
  intros Hok Ht (c1 & c2 & E & ->) Hc.
  apply Forall_app in Hok. destruct Hok as [HX HMY].
  apply Forall_app in HMY. destruct HMY as [HM HY]. symmetry in E.
  destruct (app_split _ _ _ _ E) as [[z [-> ->]]|[z [-> E2]]].
  - (* the cut is inside X *)
    exists c1, (z ++ M' ++ Y). split; [rewrite <- app_assoc; reflexivity|reflexivity].
  - (* the cut is at or after the end of X *)
    rewrite total_app in Hc. symmetry in E2.
    destruct (app_split _ _ _ _ E2) as [[w [-> ->]]|[w [-> ->]]].
    + (* inside M, hence at one of its ends *)
      apply Forall_app in HM. destruct HM as [Hz Hw].
      pose proof (total_nonneg _ Hz). pose proof (total_nonneg _ Hw).
      rewrite total_app in Hc, Ht.
      destruct Hc as [Hc|Hc].
      * assert (z = []) by (apply total_zero; [assumption|lia]). subst z.
        exists X, (M' ++ Y). rewrite app_nil_r. split; reflexivity.
      * assert (w = []) by (apply total_zero; [assumption|lia]). subst w.
        rewrite app_nil_r in *. exists (X ++ M'), Y.
        rewrite !total_app. split; [rewrite <- app_assoc; reflexivity|lia].
    + (* at or after the end of M *)
      exists (X ++ M' ++ w), c2. rewrite !total_app.
      split; [rewrite <- !app_assoc; reflexivity|lia].
Qed.

(** An allocated block outside a stretch [M] of free blocks is still there
    when [M] is replaced by [M'] of as many bytes. *)
Lemma allocated_replace st X M M' Y p :
  Forall (fun b => balloc b = false) M ->
  total M' = total M -> X <> [] ->
  allocated_at st (X ++ M ++ Y) p ->
  allocated_at st (X ++ M' ++ Y) p.
Proof.
  intros Hfree Ht HX (la & b & lb & E & Hla & -> & Hb). symmetry in E.
  destruct (elem_split _ _ _ _ _ E) as [[z [-> ->]]|[z [-> E2]]].
  - exists la, b, (z ++ M' ++ Y).
    split; [rewrite <- app_assoc; reflexivity|]. auto.
  - symmetry in E2.
    destruct (elem_split _ _ _ _ _ E2) as [[w [-> ->]]|[w [-> ->]]].
    + exfalso. apply Forall_app in Hfree. destruct Hfree as [_ Hfree].
      inversion Hfree; congruence.
    + exists (X ++ M' ++ w), b, lb. rewrite !total_app.
      split; [rewrite <- !app_assoc; reflexivity|].
      split; [|split; [lia|assumption]].
      destruct X; [congruence|discriminate].
Qed.

(** The general form: the block is one of [M] only if [M'] has it too. *)
Lemma allocated_replace_but st X M M' Y p :
  (forall la b lb, M = la ++ b :: lb -> balloc b = true ->
                   p <> heap_listp st + total X + total la) ->
  total M' = total M -> X <> [] ->
  allocated_at st (X ++ M ++ Y) p ->
  allocated_at st (X ++ M' ++ Y) p.
Proof.
  intros Hnot Ht HX (la & b & lb & E & Hla & -> & Hb). symmetry in E.
  destruct (elem_split _ _ _ _ _ E) as [[z [-> ->]]|[z [-> E2]]].
  - exists la, b, (z ++ M' ++ Y).
    split; [rewrite <- app_assoc; reflexivity|]. auto.
  - symmetry in E2.
    destruct (elem_split _ _ _ _ _ E2) as [[w [-> ->]]|[w [-> ->]]].
    + exfalso. apply (Hnot z b w eq_refl Hb). rewrite total_app. lia.
    + exists (X ++ M' ++ w), b, lb. rewrite !total_app.
      split; [rewrite <- !app_assoc; reflexivity|].
      split; [|split; [lia|assumption]].
      destruct X; [congruence|discriminate].
Qed.

(** A boundary never falls strictly inside a block. *)
Lemma boundary_not_inside st X f Y c :
  Forall block_ok (X ++ f :: Y) ->
  boundary st (X ++ f :: Y) c ->
  c <= heap_listp st + total X \/ heap_listp st + total X + bsize f <= c.
Proof.
  intros Hok (c1 & c2 & E & ->). symmetry in E.
  apply Forall_app in Hok. destruct Hok as [HX HfY].
  destruct (app_split _ _ _ _ E) as [[z [-> ->]]|[z [-> E2]]].
  - left. rewrite total_app. apply Forall_app in HX. destruct HX as [_ Hz].
    pose proof (total_nonneg _ Hz). lia.
  - destruct z as [|f' z]; simpl in E2.
    + left. rewrite app_nil_r. lia.
    + injection E2 as <- ->. right. rewrite total_app. simpl.
      inversion HfY as [|? ? _ HzY]; subst.
      apply Forall_app in HzY. destruct HzY as [Hz _].
      pose proof (total_nonneg _ Hz). lia.
Qed.

(** The address of a block of the sequence determines the block. *)
Lemma block_unique X f Y la b lb :
  Forall block_ok (X ++ f :: Y) ->
  X ++ f :: Y = la ++ b :: lb -> total la = total X -> f = b.
Proof.
  intros Hok E Ht.
  destruct (elem_split _ _ _ _ _ E) as [[z [-> ->]]|[z [-> E2]]].
  - exfalso. rewrite total_app in Ht. simpl in Ht.
    apply Forall_app in Hok. destruct Hok as [_ Hok].
    inversion Hok as [|? ? [Hr _] Hz]; subst.
    apply Forall_app in Hz. destruct Hz as [Hz _].
    pose proof (total_nonneg _ Hz). unfold DSIZE in *. lia.
  - destruct z as [|b' z]; simpl in E2.
    + injection E2 as -> _. reflexivity.
    + exfalso. injection E2 as -> _. rewrite total_app in Ht. simpl in Ht.
      apply Forall_app in Hok. destruct Hok as [Hok _].
      apply Forall_app in Hok. destruct Hok as [_ Hok].
      inversion Hok as [|? ? [Hr _] Hz]; subst.
      pose proof (total_nonneg _ Hz). unfold DSIZE in *. lia.
Qed.

(** ** Memories that differ inside a stretch of blocks only *)

Lemma same_off_trans lo hi m1 m2 m3 :
  same_off lo hi m1 m2 -> same_off lo hi m2 m3 -> same_off lo hi m1 m3.
Proof. intros H1 H2 a Ha. rewrite H2, H1 by assumption. reflexivity. Qed.

Lemma same_off_PUT lo hi m p v :
  lo <= p -> p + 4 <= hi -> same_off lo hi m (PUT m p v).
Proof. intros H1 H2 a Ha. apply PUT_outside. lia. Qed.

Lemma same_off_retag lo hi m bp s a :
  lo <= bp - 4 -> bp + s - 4 <= hi -> 8 <= s ->
  same_off lo hi m (retag m bp s a).
Proof.
  intros H1 H2 Hs. unfold retag, HDRP, WSIZE, DSIZE.
  eapply same_off_trans; [|apply same_off_PUT; lia]. apply same_off_PUT; lia.
Qed.

Lemma same_off_on lo hi lo' hi' m m' :
  same_off lo hi m m' -> hi' <= lo \/ hi <= lo' -> same_on lo' hi' m m'.
Proof. intros H Hd a Ha. apply H. lia. Qed.

(** Replacing the stretch [M] of a well-formed heap by [M']. *)
Lemma heap_ok_replace st st' l X M M' Y :
  heap_ok st l -> prologue :: l = X ++ M ++ Y -> X <> [] ->
  heap_listp st' = heap_listp st -> mem_brk st' = mem_brk st ->
  mem_max_addr st' = mem_max_addr st ->
  same_off (heap_listp st + total X - 4) (heap_listp st + total X + total M - 4)
    (mem st) (mem st') ->
  blocks_at (mem st') (heap_listp st + total X) M' ->
  total M' = total M ->
  exists l', prologue :: l' = X ++ M' ++ Y /\ heap_ok st' l'.
Proof.
  intros Hok E HX Hhl Hbrk Hmax Hoff HM' Ht.
  destruct X as [|x0 X]; [congruence|].
  simpl in E. injection E as <- E. subst l.
  exists (X ++ M' ++ Y). split; [reflexivity|].
  pose proof (ok_blocks _ _ Hok) as Hbl.
  change (prologue :: X ++ M ++ Y) with ((prologue :: X) ++ M ++ Y) in Hbl.
  apply blocks_at_app in Hbl. destruct Hbl as [HbX HbMY].
  apply blocks_at_app in HbMY. destruct HbMY as [HbM HbY].
  pose proof (blocks_at_total_nonneg _ _ _ HbX) as HnX.
  pose proof (blocks_at_total_nonneg _ _ _ HbM) as HnM.
  pose proof (blocks_at_total_nonneg _ _ _ HbY) as HnY.
  pose proof (ok_brk _ _ Hok) as Hb.
  change (prologue :: X ++ M ++ Y) with ((prologue :: X) ++ M ++ Y) in Hb.
  rewrite !total_app in Hb.
  set (tX := total (prologue :: X)) in *.
  constructor; rewrite ?Hhl, ?Hbrk, ?Hmax.
  - exact (ok_base _ _ Hok).
  - change (prologue :: X ++ M' ++ Y) with ((prologue :: X) ++ M' ++ Y).
    apply blocks_at_app. split; [|apply blocks_at_app; split].
    + eapply (blocks_at_same_on (heap_listp st - 4) (heap_listp st + tX - 4));
        [| | |exact HbX]; try (fold tX; lia).
      eapply same_off_on; [exact Hoff|]. lia.
    + exact HM'.
    + rewrite Ht.
      eapply (blocks_at_same_on (heap_listp st + tX + total M - 4)
                (heap_listp st + tX + total M + total Y - 4));
        [| | |exact HbY]; try lia.
      eapply same_off_on; [exact Hoff|]. lia.
  - change (prologue :: X ++ M' ++ Y) with ((prologue :: X) ++ M' ++ Y).
    rewrite !total_app, Ht. fold tX. lia.
  - rewrite <- (ok_epilogue _ _ Hok). unfold HDRP, WSIZE.
    apply (GET_same_on (mem_brk st - 4) (mem_brk st)); [|lia|lia].
    eapply same_off_on; [exact Hoff|]. lia.
  - exact (ok_limit _ _ Hok).
  - exact (ok_tagged _ _ Hok).
Qed.

Lemma heap_ok_blocks_ok st l : heap_ok st l -> Forall block_ok (prologue :: l).
Proof. intros Hok. eapply blocks_at_ok. apply (ok_blocks _ _ Hok). Qed.

Lemma boundary_same_start st st' L c :
  heap_listp st' = heap_listp st -> boundary st L c -> boundary st' L c.
Proof. intros E (c1 & c2 & H1 & H2). exists c1, c2. rewrite E. auto. Qed.

Lemma allocated_same_start st st' L p :
  heap_listp st' = heap_listp st -> allocated_at st L p -> allocated_at st' L p.
Proof.
  intros E (la & b & lb & H1 & H2 & H3 & H4). exists la, b, lb. rewrite E. auto.
Qed.

Lemma heap_listp_relocate bp size st :
  heap_listp (relocate bp size st) = heap_listp st.
Proof. unfold relocate. destruct (_ && _); reflexivity. Qed.

(** A stretch [M] of free blocks turned into one free block: the heap, the
    cursor as [coalesce] relocates it, and the allocated blocks. *)
Lemma merge_stretch st l X M Y m1 B size :
  let st' := relocate B size (set_mem m1 st) in
  heap_ok st l -> prologue :: l = X ++ M ++ Y -> X <> [] ->
  Forall (fun b => balloc b = false) M ->
  B = heap_listp st + total X -> size = total M ->
  same_off (B - 4) (B + size - 4) (mem st) m1 ->
  block_at m1 B (mkblock size false) ->
  exists l',
    prologue :: l' = X ++ mkblock size false :: Y
    /\ heap_ok st' l'
    /\ heap_listp st' = heap_listp st
    /\ (boundary st (prologue :: l) (next_fit st) ->
        boundary st (prologue :: l') (next_fit st'))
    /\ (forall q, allocated_at st (prologue :: l) q ->
                  allocated_at st (prologue :: l') q).
Proof.
  intros st' Hok E HX Hfree -> -> Hoff Hblk.
  set (s := heap_listp st + total X) in *.
  assert (Hhl : heap_listp st' = heap_listp st)
    by (unfold st'; rewrite heap_listp_relocate; reflexivity).
  assert (Hmem : mem st' = m1)
    by (unfold st'; rewrite mem_relocate; reflexivity).
  destruct (heap_ok_replace st st' l X M [mkblock (total M) false] Y Hok E HX)
    as (l' & E' & Hok'); try assumption.
  - unfold st', relocate; destruct (_ && _); reflexivity.
  - unfold st', relocate; destruct (_ && _); reflexivity.
  - rewrite Hmem. exact Hoff.
  - rewrite Hmem. split; [exact Hblk|exact I].
  - simpl. lia.
  - exists l'. split; [exact E'|]. split; [exact Hok'|]. split; [exact Hhl|].
    assert (Ht : total [mkblock (total M) false] = total M) by (simpl; lia).
    pose proof (heap_ok_blocks_ok _ _ Hok) as Hbok. rewrite E in Hbok.
    split.
    + intros Hb.
      rewrite E'. change (X ++ mkblock (total M) false :: Y)
        with (X ++ [mkblock (total M) false] ++ Y).
      unfold st', relocate. cbn [next_fit set_mem].
      destruct (Z.leb_spec s (next_fit st)); destruct (Z.ltb_spec (next_fit st) (s + total M));
        cbn [andb next_fit set_next_fit set_mem].
      * exists X, ([mkblock (total M) false] ++ Y). split; reflexivity.
      * rewrite E in Hb. apply (boundary_replace st X M); try assumption. fold s. lia.
      * rewrite E in Hb. apply (boundary_replace st X M); try assumption. fold s. lia.
      * rewrite E in Hb. apply (boundary_replace st X M); try assumption. fold s. lia.
    + intros q Hq.
      rewrite E'. change (X ++ mkblock (total M) false :: Y)
        with (X ++ [mkblock (total M) false] ++ Y).
      rewrite E in Hq. apply (allocated_replace st X M); assumption.
Qed.

Lemma merged_no_adj_free l1 p b l2 :
  no_adj_free (l1 ++ [p]) -> no_adj_free l2 ->
  no_adj_free (merged l1 p b l2).
Proof.
  intros H1 H2. unfold merged.
  apply no_adj_free_app in H1. destruct H1 as (Hl1 & _ & Hlp). simpl in Hlp.
  assert (Hmn : forall b', no_adj_free (merge_next b' l2)
                           /\ (balloc b' = true \/ succ_alloc (merge_next b' l2) = true
                               \/ True)).
  { intros b'. split; [|auto]. unfold merge_next.
    destruct l2 as [|n l2']; [simpl; auto|].
    simpl in H2. destruct H2 as [Hn Hl2'].
    destruct (balloc n) eqn:An; simpl.
    - rewrite An. auto.
    - destruct Hn as [Hn|Hn]; [discriminate|]. auto. }
  destruct (balloc p) eqn:Ap.
  - change (l1 ++ p :: merge_next b l2) with (l1 ++ [p] ++ merge_next b l2).
    rewrite app_assoc. apply no_adj_free_app.
    split; [|split].
    + apply no_adj_free_app. simpl. rewrite Ap. auto.
    + apply Hmn.
    + left. rewrite last_alloc_app. exact Ap.
  - apply no_adj_free_app. split; [exact Hl1|]. split; [apply Hmn|].
    destruct Hlp as [Hlp|Hlp]; [auto|congruence].
Qed.

Lemma coalesce_heap st l l1 p b l2 bp :
  heap_ok st l ->
  prologue :: l = l1 ++ p :: b :: l2 ->
  bp = heap_listp st + total l1 + bsize p ->
  balloc b = false ->
  l1 <> [] \/ balloc p = true ->
  exists l',
    prologue :: l' = merged l1 p b l2
    /\ heap_ok (snd (coalesce bp st)) l'
    /\ heap_listp (snd (coalesce bp st)) = heap_listp st
    /\ fst (coalesce bp st) = (if balloc p then bp else bp - bsize p)
    /\ (boundary st (prologue :: l) (next_fit st) ->
        boundary st (prologue :: l') (next_fit (snd (coalesce bp st))))
    /\ (forall q, allocated_at st (prologue :: l) q ->
                  allocated_at st (prologue :: l') q).
Proof.
  intros Hok E Hbp Hb Hl1.
  pose proof (total_bound _ _ Hok) as Hbound.
  pose proof (heap_ok_blocks_ok _ _ Hok) as Hbok. rewrite E in Hbok.
  apply Forall_app in Hbok. destruct Hbok as [Hok1 Hbok].
  pose proof (Forall_inv Hbok) as Hpok.
  pose proof (Forall_inv (Forall_inv_tail Hbok)) as Hbbok.
  pose proof (Forall_inv_tail (Forall_inv_tail Hbok)) as Hok2.
  pose proof (total_nonneg _ Hok1) as Hn1. pose proof (total_nonneg _ Hok2) as Hn2.
  destruct (block_ok_range p Hpok) as [Hpr Hpm].
  destruct (block_ok_range b Hbbok) as [Hbr Hbm].
  assert (Hp8 : 8 <= bsize p) by (destruct Hpok as [H _]; unfold DSIZE in H; lia).
  assert (Hb8 : 8 <= bsize b) by (destruct Hbbok as [H _]; unfold DSIZE in H; lia).
  assert (Hsum : bsize p + bsize b + total l2 < 2 ^ 32).
  { rewrite E, total_app in Hbound. simpl in Hbound. lia. }
  rewrite (coalesce_cases st l l1 p b l2 bp Hok E Hbp).
  unfold merged, merge_next.
  destruct (balloc p) eqn:Ap.
  - destruct l2 as [|n l2']; [|destruct (balloc n) eqn:An]; cbn [succ_alloc succ_size];
      rewrite ?An.
    + exists l. cbn [fst snd]. rewrite E. auto 10.
    + exists l. cbn [fst snd]. rewrite E. auto 10.
    + (* b and its successor *)
      pose proof (Forall_inv Hok2) as Hnok.
      destruct (block_ok_range n Hnok) as [Hnr Hnm].
      assert (Hn8 : 8 <= bsize n) by (destruct Hnok as [H _]; unfold DSIZE in H; lia).
      pose proof (total_nonneg _ (Forall_inv_tail Hok2)) as Hn2'. simpl in Hsum.
      cbv zeta. cbn [fst snd].
      destruct (merge_stretch st l (l1 ++ [p]) [b; n] l2'
                  (retag (mem st) bp (bsize b + bsize n) 0)
                  bp (bsize b + bsize n) Hok)
        as (l' & E' & Hok' & Hhl' & Hbd & Hal).
      * rewrite <- app_assoc. exact E.
      * destruct l1; discriminate.
      * repeat constructor; assumption.
      * rewrite total_app; simpl; lia.
      * simpl; lia.
      * apply same_off_retag; lia.
      * apply (retag_block_at (mem st) bp (bsize b + bsize n) false).
        split; simpl; unfold DSIZE; [lia|apply mod8_add; assumption].
      * exists l'. rewrite <- app_assoc in E'. auto 10.
  - (* the predecessor is free: it is not the prologue *)
    destruct Hl1 as [Hl1|Hl1]; [|congruence].
    assert (Hstart : bp - bsize p = heap_listp st + total l1) by lia.
    assert (Hpb : forall m1 Y,
      prologue :: l = l1 ++ [p; b] ++ Y ->
      same_off (bp - bsize p - 4) (bp - bsize p + (bsize p + bsize b) - 4) (mem st) m1 ->
      block_at m1 (bp - bsize p) (mkblock (bsize p + bsize b) false) ->
      let st' := relocate (bp - bsize p) (bsize p + bsize b) (set_mem m1 st) in
      exists l',
        prologue :: l' = l1 ++ mkblock (bsize p + bsize b) false :: Y
        /\ heap_ok st' l' /\ heap_listp st' = heap_listp st
        /\ bp - bsize p = bp - bsize p
        /\ (boundary st (prologue :: l) (next_fit st) ->
            boundary st (prologue :: l') (next_fit st'))
        /\ (forall q, allocated_at st (prologue :: l) q ->
                      allocated_at st (prologue :: l') q)).
    { intros m1 Y EY Hoff Hblk st'.
      destruct (merge_stretch st l l1 [p; b] Y m1 (bp - bsize p) (bsize p + bsize b) Hok)
        as (l' & E' & Hok' & Hhl' & Hbd & Hal); try assumption.
      - repeat constructor; assumption.
      - simpl; lia.
      - exists l'. auto 10. }
    destruct l2 as [|n l2']; [|destruct (balloc n) eqn:An]; cbn [succ_alloc succ_size];
      rewrite ?An; cbv zeta; cbn [fst snd].
    + apply Hpb; [exact E| |].
      * unfold HDRP, WSIZE, DSIZE.
        eapply same_off_trans; [|apply same_off_PUT; lia]. apply same_off_PUT; lia.
      * split; [split; simpl; unfold DSIZE; [lia|apply mod8_add; assumption]|].
        unfold tag, HDRP, WSIZE, DSIZE. cbn [bsize balloc Z.b2z].
        split.
        -- apply GET_PUT_PACK; [lia|apply mod8_add; assumption|lia].
        -- rewrite GET_PUT_other by lia.
           replace (bp - bsize p + (bsize p + bsize b) - 8) with (bp + bsize b - 8) by lia.
           apply GET_PUT_PACK; [lia|apply mod8_add; assumption|lia].
    + pose proof (total_nonneg _ (Forall_inv_tail Hok2)) as Hn2'. simpl in Hsum.
      destruct (block_ok_range n (Forall_inv Hok2)) as [Hnr Hnm].
      apply Hpb; [exact E| |].
      * unfold HDRP, WSIZE, DSIZE.
        eapply same_off_trans; [|apply same_off_PUT; lia]. apply same_off_PUT; lia.
      * split; [split; simpl; unfold DSIZE; [lia|apply mod8_add; assumption]|].
        unfold tag, HDRP, WSIZE, DSIZE. cbn [bsize balloc Z.b2z].
        split.
        -- apply GET_PUT_PACK; [lia|apply mod8_add; assumption|lia].
        -- rewrite GET_PUT_other by lia.
           replace (bp - bsize p + (bsize p + bsize b) - 8) with (bp + bsize b - 8) by lia.
           apply GET_PUT_PACK; [lia|apply mod8_add; assumption|lia].
    + (* the three blocks *)
      pose proof (Forall_inv Hok2) as Hnok.
      destruct (block_ok_range n Hnok) as [Hnr Hnm].
      assert (Hn8 : 8 <= bsize n) by (destruct Hnok as [H _]; unfold DSIZE in H; lia).
      pose proof (total_nonneg _ (Forall_inv_tail Hok2)) as Hn2'. simpl in Hsum.
      assert (Hm3 : (bsize p + bsize b + bsize n) mod 8 = 0)
        by (repeat apply mod8_add; assumption).
      destruct (merge_stretch st l l1 [p; b; n] l2'
                  (retag (mem st) (bp - bsize p) (bsize p + bsize b + bsize n) 0)
                  (bp - bsize p) (bsize p + bsize b + bsize n) Hok)
        as (l' & E' & Hok' & Hhl' & Hbd & Hal); try assumption.
      * repeat constructor; assumption.
      * simpl; lia.
      * apply same_off_retag; lia.
      * apply (retag_block_at (mem st) (bp - bsize p) (bsize p + bsize b + bsize n) false).
        split; simpl; unfold DSIZE; [lia|assumption].
      * exists l'. auto 10.
Qed.

(** ** Placement keeps the heap well formed *)

Lemma placed_blocks m bp f asize :
  block_ok f -> asize mod 8 = 0 -> 0 < asize <= bsize f ->
  blocks_at (placed m bp asize (bsize f)) bp (split_block asize f).
Proof.
  intros Hok Hm Ha. unfold placed, split_block.
  destruct (block_ok_range f Hok) as [Hr Hbm].
  pose proof (mod8_mul _ Hm) as Hk.
  destruct (Z.leb_spec (2 * DSIZE) (bsize f - asize)) as [Hs|Hs]; unfold DSIZE in Hs.
  - assert (Hm2 : (bsize f - asize) mod 8 = 0).
    { rewrite Zminus_mod, Hbm, Hm. reflexivity. }
    assert (Hoka : block_ok (mkblock asize true))
      by (split; simpl; unfold DSIZE; [lia|assumption]).
    assert (Hokr : block_ok (mkblock (bsize f - asize) false))
      by (split; simpl; unfold DSIZE; [lia|assumption]).
    cbn [blocks_at bsize]. split; [|split; [|exact I]].
    + eapply (block_at_same_on (bp - 4) (bp + asize - 4));
        [| | |apply (retag_block_at m bp asize true Hoka)];
        cbn [bsize]; try lia.
      apply same_on_retag_block; lia.
    + apply (retag_block_at _ (bp + asize) (bsize f - asize) false Hokr).
  - cbn [blocks_at]. split; [|exact I].
    apply (retag_block_at m bp (bsize f) true).
    destruct Hok as [H1 H2]. split; simpl; assumption.
Qed.

Lemma same_off_placed m bp asize csize :
  0 < asize <= csize -> asize mod 8 = 0 ->
  same_off (bp - 4) (bp + csize - 4) m (placed m bp asize csize).
Proof.
  intros Ha Hm. unfold placed. pose proof (mod8_mul _ Hm) as Hk.
  destruct (Z.leb_spec (2 * DSIZE) (csize - asize)); unfold DSIZE in *.
  - eapply same_off_trans; [|apply same_off_retag; lia]. apply same_off_retag; lia.
  - apply same_off_retag; lia.
Qed.

Lemma total_split_block asize f : total (split_block asize f) = bsize f.
Proof. unfold split_block. destruct (_ <=? _); simpl; lia. Qed.

Lemma split_no_adj_free X f Y asize :
  balloc f = false -> no_adj_free (X ++ f :: Y) ->
  no_adj_free (X ++ split_block asize f ++ Y).
Proof.
  intros Hf H. apply no_adj_free_app in H. destruct H as (HX & HfY & Hb).
  simpl in HfY, Hb. rewrite Hf in HfY, Hb.
  destruct HfY as [[HfY|HfY] HY]; [discriminate|].
  destruct Hb as [Hb|Hb]; [|discriminate].
  apply no_adj_free_app. split; [exact HX|]. split; [|auto].
  unfold split_block. destruct (_ <=? _); simpl; auto.
Qed.

Lemma free_not_first X f Y l :
  prologue :: l = X ++ f :: Y -> balloc f = false -> X <> [].
Proof. intros E Hf ->. simpl in E. injection E as <- _. discriminate. Qed.

Lemma place_heap st l X f Y r asize :
  let st' := place r asize st in
  heap_ok st l -> prologue :: l = X ++ f :: Y ->
  r = heap_listp st + total X -> balloc f = false ->
  asize mod 8 = 0 -> 0 < asize <= bsize f ->
  boundary st (prologue :: l) (next_fit st) ->
  exists l',
    prologue :: l' = X ++ split_block asize f ++ Y
    /\ heap_ok st' l'
    /\ heap_listp st' = heap_listp st
    /\ boundary st (prologue :: l') (next_fit st')
    /\ (forall q, allocated_at st (prologue :: l) q ->
                  allocated_at st (prologue :: l') q)
    /\ allocated_at st (prologue :: l') r.
Proof.
  intros st' Hok E Hr Hf Hm Ha Hbd.
  pose proof (free_not_first _ _ _ _ E Hf) as HX.
  pose proof (heap_ok_blocks_ok _ _ Hok) as Hbok. rewrite E in Hbok.
  assert (Hfok : block_ok f).
  { apply Forall_app in Hbok. destruct Hbok as [_ H]. exact (Forall_inv H). }
  destruct (block_in_heap _ _ _ _ _ Hok E) as ((_ & Hfh & _) & _). rewrite <- Hr in Hfh.
  assert (Est : st' = advance r asize (bsize f)
                        (set_mem (placed (mem st) r asize (bsize f)) st)).
  { unfold st'. apply place_cases; try assumption. lia. }
  assert (Hhl : heap_listp st' = heap_listp st).
  { rewrite Est. unfold advance.
    repeat match goal with |- context [if ?c then _ else _] => destruct c end;
      reflexivity. }
  destruct (heap_ok_replace st st' l X [f] (split_block asize f) Y Hok E HX)
    as (l' & E' & Hok'); try assumption.
  - rewrite Est. unfold advance.
    repeat match goal with |- context [if ?c then _ else _] => destruct c end;
      reflexivity.
  - rewrite Est. unfold advance.
    repeat match goal with |- context [if ?c then _ else _] => destruct c end;
      reflexivity.
  - rewrite Est, mem_advance. cbn [mem set_mem]. rewrite <- Hr. simpl total.
    rewrite Z.add_0_r. apply same_off_placed; assumption.
  - rewrite Est, mem_advance. cbn [mem set_mem]. rewrite <- Hr.
    apply placed_blocks; assumption.
  - rewrite total_split_block. simpl. lia.
  - exists l'. split; [exact E'|]. split; [exact Hok'|]. split; [exact Hhl|].
    assert (Ht : total (split_block asize f) = total [f])
      by (rewrite total_split_block; simpl; lia).
    pose proof Hbd as Hbd0. rewrite E in Hbd.
    pose proof (boundary_not_inside st X f Y _ Hbok Hbd) as Hc. rewrite <- Hr in Hc.
    assert (Hkeep : boundary st (prologue :: l') (next_fit st)).
    { rewrite E'. apply (boundary_replace st X [f]); try assumption.
      rewrite <- Hr. simpl. lia. }
    split; [|split].
    + rewrite Est. unfold advance. cbn [next_fit set_mem].
      destruct (2 * DSIZE <=? bsize f - asize) eqn:Es.
      * apply Z.leb_le in Es. unfold DSIZE in Es.
        destruct (Z.eqb_spec (next_fit st) (r + asize)); [lia|exact Hkeep].
      * destruct (Z.eqb_spec (next_fit st) r); [|exact Hkeep].
        cbn [next_fit set_next_fit]. rewrite E'.
        exists (X ++ split_block asize f), Y.
        split; [rewrite <- app_assoc; reflexivity|].
        rewrite total_app, total_split_block. lia.
    + intros q Hq. rewrite E'. rewrite E in Hq.
      apply (allocated_replace st X [f]); try assumption.
      repeat constructor. exact Hf.
    + rewrite E'. unfold split_block.
      destruct (2 * DSIZE <=? bsize f - asize);
        eexists X, _, _; (split; [reflexivity|]); auto.
Qed.

(** ** Release keeps the heap well formed *)

Lemma mm_free_cases st ptr b :
  block_ok b -> GET (mem st) (HDRP ptr) = tag b ->
  mm_free ptr st =
  snd (coalesce ptr (set_mem (retag (mem st) ptr (bsize b) 0) st)).
Proof.
  intros Hok Hh. destruct (block_ok_range b Hok) as [Hr Hm].
  unfold mm_free. rewrite (GET_SIZE_tag _ _ b) by assumption.
  unfold put, set_mem, FTRP, HDRP, WSIZE, DSIZE. cbn [mem].
  rewrite GET_SIZE_PUT_same by lia. reflexivity.
Qed.

Lemma mm_free_heap st l ptr :
  let st' := mm_free ptr st in
  heap_ok st l ->
  allocated_at st (prologue :: l) ptr ->
  boundary st (prologue :: l) (next_fit st) ->
  no_adj_free (prologue :: l) ->
  exists l',
    heap_ok st' l'
    /\ heap_listp st' = heap_listp st
    /\ boundary st (prologue :: l') (next_fit st')
    /\ no_adj_free (prologue :: l')
    /\ (forall q, q <> ptr -> allocated_at st (prologue :: l) q ->
                  allocated_at st (prologue :: l') q).
Proof.
  intros st' Hok (la & b & lb & E & Hla & Hptr & Hb) Hbd Hnaf.
  pose proof (heap_ok_blocks_ok _ _ Hok) as Hbok. rewrite E in Hbok.
  assert (Hbbok : block_ok b).
  { apply Forall_app in Hbok. destruct Hbok as [_ H]. exact (Forall_inv H). }
  destruct (block_ok_range b Hbbok) as [Hbr Hbm].
  assert (Hb8 : 8 <= bsize b) by (destruct Hbbok as [H _]; unfold DSIZE in H; lia).
  destruct (block_in_heap _ _ _ _ _ Hok E) as ((_ & Hbh & _) & _). rewrite <- Hptr in Hbh.
  set (b' := mkblock (bsize b) false).
  set (st1 := set_mem (retag (mem st) ptr (bsize b) 0) st).
  assert (Est : st' = snd (coalesce ptr st1)) by (apply mm_free_cases; assumption).
  assert (Hb'ok : block_ok b') by (destruct Hbbok; split; assumption).
  (* the block marked free *)
  destruct (heap_ok_replace st st1 l la [b] [b'] lb Hok E Hla)
    as (l1 & E1 & Hok1); try reflexivity.
  { unfold st1. cbn [mem set_mem]. rewrite <- Hptr. simpl total. rewrite Z.add_0_r.
    apply same_off_retag; lia. }
  { unfold st1. cbn [mem set_mem blocks_at]. rewrite <- Hptr. split; [|exact I].
    apply (retag_block_at (mem st) ptr (bsize b) false Hb'ok). }
  assert (Hbd1 : boundary st (prologue :: l1) (next_fit st)).
  { rewrite E1. rewrite E in Hbd. apply (boundary_replace st la [b]); try assumption.
    - reflexivity.
    - pose proof (boundary_not_inside st la b lb _ Hbok Hbd). simpl. lia. }
  assert (Hal1 : forall q, q <> ptr -> allocated_at st (prologue :: l) q ->
                           allocated_at st (prologue :: l1) q).
  { intros q Hq Ha. rewrite E1. rewrite E in Ha.
    apply (allocated_replace_but st la [b]); try assumption; [|reflexivity].
    intros la0 b0 lb0 E0 _.
    destruct la0 as [|? la0]; [|destruct la0; discriminate].
    simpl. lia. }
  (* coalescing *)
  destruct (list_last_split_ne la Hla) as (l0 & p & Ela).
  assert (E1' : prologue :: l1 = l0 ++ p :: b' :: lb).
  { rewrite E1, Ela, <- app_assoc. reflexivity. }
  destruct (coalesce_heap st1 l1 l0 p b' lb ptr Hok1 E1')
    as (l' & E' & Hok' & Hhl' & _ & Hbd' & Hal'); try reflexivity.
  { unfold st1. cbn [heap_listp set_mem]. rewrite Hptr, Ela, total_app. simpl. lia. }
  { destruct l0 as [|x l0]; [right|left; discriminate].
    rewrite Ela in E. simpl in E. injection E as <- _. reflexivity. }
  exists l'. rewrite Est.
  split; [exact Hok'|]. split; [exact Hhl'|].
  split; [exact (Hbd' Hbd1)|].
  split.
  - rewrite E'. rewrite E in Hnaf. apply no_adj_free_app in Hnaf. destruct Hnaf as (H1 & H2 & _).
    apply merged_no_adj_free; [rewrite <- Ela; exact H1|].
    simpl in H2. apply H2.
  - intros q Hq Ha. apply Hal'. apply (Hal1 q Hq Ha).
Qed.

(** ** Allocation keeps the heap well formed *)

Lemma heap_ok_set_next_fit c st l : heap_ok st l -> heap_ok (set_next_fit c st) l.
Proof. intros [H1 H2 H3 H4 H5 H6]. constructor; assumption. Qed.

Lemma boundary_app_r st L N c : boundary st L c -> boundary st (L ++ N) c.
Proof.
  intros (c1 & c2 & -> & ->). exists c1, (c2 ++ N).
  split; [rewrite app_assoc; reflexivity|reflexivity].
Qed.

Lemma allocated_app_r st L N p : allocated_at st L p -> allocated_at st (L ++ N) p.
Proof.
  intros (la & b & lb & -> & H). exists la, b, (lb ++ N).
  split; [rewrite <- app_assoc; reflexivity|exact H].
Qed.

Lemma allocated_below st l q :
  heap_ok st l -> allocated_at st (prologue :: l) q -> q + DSIZE <= mem_brk st.
Proof.
  intros Hok (la & b & lb & E & _ & -> & _).
  destruct (block_in_heap _ _ _ _ _ Hok E) as (([Hr _] & _) & _ & Hlb & Hext).
  lia.
Qed.

Lemma allocated_not_free st X f Y q :
  Forall block_ok (X ++ f :: Y) -> balloc f = false ->
  allocated_at st (X ++ f :: Y) q -> q <> heap_listp st + total X.
Proof.
  intros Hok Hf (la & b & lb & E & _ & -> & Hb) Hq.
  assert (f = b) by (apply (block_unique X f Y la b lb); [assumption|assumption|lia]).
  congruence.
Qed.

Lemma adjust_size_sane size :
  0 < size <= 2 ^ 31 - 16 ->
  let asize := adjust_size size in
  asize mod 8 = 0 /\ 16 <= asize < 2 ^ 31 /\ asize <= extend_size asize
  /\ 4096 <= extend_size asize < 2 ^ 31 /\ extend_size asize mod 8 = 0.
Proof.
  intros Hs asize.
  destruct (adjust_size_range size ltac:(lia)) as [Har Ham]. fold asize in Har, Ham.
  destruct (extend_request asize Har Ham) as (_ & Er & Em).
  assert (Hlt : 16 <= asize < 2 ^ 31).
  { unfold asize. rewrite adjust_size_small by lia.
    pose proof (Z.div_mod (size + 15) 8 ltac:(lia)).
    pose proof (Z.mod_pos_bound (size + 15) 8 ltac:(lia)). lia. }
  repeat split; try assumption; try lia.
  rewrite extend_size_value by assumption.
  destruct (Z.ltb_spec asize (2 ^ 31)); lia.
Qed.

Lemma allocated_split_size st L X f Y r asize :
  Forall block_ok L -> L = X ++ split_block asize f ++ Y ->
  r = heap_listp st + total X -> asize <= bsize f ->
  allocated_at st L r ->
  exists la b lb,
    L = la ++ b :: lb /\ la <> [] /\ r = heap_listp st + total la
    /\ balloc b = true /\ asize <= bsize b.
Proof.
  intros Hok E Hr Hle (la & b & lb & Ea & Hla & Hr' & Hb).
  exists la, b, lb. repeat (split; [assumption|]).
  assert (Hs : exists a rest, split_block asize f = a :: rest /\ asize <= bsize a).
  { unfold split_block. destruct (_ <=? _); eexists; eexists; split;
      try reflexivity; simpl; lia. }
  destruct Hs as (a & rest & Es & Ha).
  rewrite Es in E. change ((a :: rest) ++ Y) with (a :: rest ++ Y) in E.
  rewrite E in Hok, Ea.
  assert (a = b) by (apply (block_unique X a (rest ++ Y) la b lb); [assumption|assumption|lia]).
  subst b. exact Ha.
Qed.

(** The block [mm_malloc] returns holds the adjusted size. *)
Lemma mm_malloc_block fuel size st l :
  heap_ok st l ->
  boundary st (prologue :: l) (next_fit st) ->
  no_adj_free (prologue :: l) ->
  (length l + 1 < fuel)%nat ->
  0 < size <= 2 ^ 31 - 16 ->
  exists r st' l',
    mm_malloc fuel size st = Some (r, st')
    /\ heap_ok st' l'
    /\ heap_listp st' = heap_listp st
    /\ boundary st (prologue :: l') (next_fit st')
    /\ no_adj_free (prologue :: l')
    /\ (forall q, allocated_at st (prologue :: l) q ->
                  allocated_at st (prologue :: l') q /\ q <> r)
    /\ (r <> NULL ->
        exists la b lb,
          prologue :: l' = la ++ b :: lb /\ la <> []
          /\ r = heap_listp st + total la
          /\ balloc b = true /\ adjust_size size <= bsize b).
Proof.
  intros Hok (c1 & c2 & Ec & Hc) Hnaf Hfuel Hsize.
  assert (Hcur : cursor_at st l c1 c2) by (split; assumption).
  rewrite (mm_malloc_cases fuel size st l c1 c2) by (assumption || lia).
  destruct (adjust_size_sane size Hsize) as (Ham & Har & Hle & Her & Hem).
  set (asize := adjust_size size) in *.
  pose proof (heap_ok_blocks_ok _ _ Hok) as Hbok.
  pose proof (ok_base _ _ Hok) as Hbase. unfold DSIZE in Hbase.
  destruct (next_fit_search asize (heap_listp st) c1 c2) as [r|] eqn:Es.
  - (* a block fits *)
    destruct (search_block _ _ _ _ _ _ Hok Hcur Es)
      as (X & f & Y & E & Hr & Hfa & Hfs & _ & Hlt).
    destruct (place_heap (set_next_fit r st) l X f Y r asize)
      as (l' & E' & Hok' & Hhl' & Hbd' & Hal' & Har');
      try assumption; try lia.
    + apply heap_ok_set_next_fit. exact Hok.
    + exists X, (f :: Y). split; [exact E|exact Hr].
    + exists r, (place r asize (set_next_fit r st)), l'.
      split; [reflexivity|]. split; [exact Hok'|]. split; [exact Hhl'|].
      split; [exact Hbd'|].
      split; [rewrite E'; apply split_no_adj_free; [exact Hfa|rewrite <- E; exact Hnaf]|].
      split.
      2:{ intros _.
          apply (allocated_split_size st (prologue :: l') X f Y r asize);
            try assumption.
          exact (heap_ok_blocks_ok _ _ Hok'). }
      intros q Hq. split; [apply Hal'; exact Hq|].
      rewrite Hr. rewrite E in Hq, Hbok.
      apply (allocated_not_free st X f Y); assumption.
  - destruct (Z.ltb_spec (mem_max_addr st) (mem_brk st + extend_size asize)) as [Hf|Hf].
    + (* no block fits and the heap cannot grow *)
      exists NULL, st, l. split; [reflexivity|]. split; [exact Hok|].
      split; [reflexivity|]. split; [exists c1, c2; auto|]. split; [exact Hnaf|].
      split; [|intros H; congruence].
      intros q Hq. split; [exact Hq|].
      pose proof (allocated_below _ _ _ Hok Hq).
      destruct Hq as (la & b & lb & E & _ & -> & _).
      destruct (block_in_heap _ _ _ _ _ Hok E) as (_ & Hla & _).
      unfold NULL. lia.
    + (* the heap grows *)
      destruct (list_last_split prologue l) as (l0 & pl & Hlast).
      destruct (grown_cases asize st l l0 pl Hok Hlast ltac:(lia) Ham Hf) as [Hokx _].
      set (E0 := extend_size asize) in *.
      set (stx := extended E0 st) in *.
      set (new := mkblock E0 false) in *.
      assert (Ex : prologue :: l ++ [new] = l0 ++ pl :: new :: []).
      { change (prologue :: l ++ [new]) with ((prologue :: l) ++ [new]).
        rewrite Hlast, <- app_assoc. reflexivity. }
      assert (Hbrk : mem_brk st = heap_listp st + total l0 + bsize pl).
      { rewrite (ok_brk _ _ Hok), Hlast, total_app. simpl. lia. }
      destruct (coalesce_heap stx (l ++ [new]) l0 pl new [] (mem_brk st) Hokx Ex)
        as (l2 & E2 & Hok2 & Hhl2 & Hfst & Hbd2 & Hal2); try reflexivity.
      { exact Hbrk. }
      { destruct l0 as [|x l0]; [right|left; discriminate].
        simpl in Hlast. injection Hlast as <- _. reflexivity. }
      unfold grown. fold E0. fold stx.
      set (cr := coalesce (mem_brk st) stx) in *.
      assert (Hbdx : boundary stx (prologue :: l ++ [new]) (next_fit stx)).
      { change (prologue :: l ++ [new]) with ((prologue :: l) ++ [new]).
        apply boundary_app_r. exists c1, c2. auto. }
      specialize (Hbd2 Hbdx).
      assert (Hbok0 : Forall block_ok (l0 ++ [pl])) by (rewrite <- Hlast; exact Hbok).
      assert (Hplok : block_ok pl).
      { apply Forall_app in Hbok0. destruct Hbok0 as [_ H]. exact (Forall_inv H). }
      destruct (block_ok_range pl Hplok) as [Hplr Hplm].
      assert (Hn0 : 0 <= total l0).
      { apply Forall_app in Hbok0. destruct Hbok0 as [H _]. apply total_nonneg; exact H. }
      assert (Hnaf2 : no_adj_free (prologue :: l2)).
      { rewrite E2. apply merged_no_adj_free; [rewrite <- Hlast; exact Hnaf|exact I]. }
      unfold merged, merge_next in E2.
      (* the free block the request is placed in *)
      assert (Hplace : exists X f,
                 prologue :: l2 = X ++ f :: [] /\ fst cr = heap_listp st + total X
                 /\ balloc f = false /\ asize <= bsize f
                 /\ (balloc pl = true -> X = l0 ++ [pl])
                 /\ (balloc pl = false -> X = l0)).
      { rewrite Hfst. destruct (balloc pl) eqn:Apl.
        - exists (l0 ++ [pl]), new. rewrite total_app. simpl.
          split; [rewrite E2, <- app_assoc; reflexivity|].
          split; [lia|]. split; [reflexivity|]. split; [exact Hle|]. split; congruence.
        - exists l0, (mkblock (bsize pl + bsize new) false). cbn [bsize].
          split; [exact E2|]. split; [lia|]. split; [reflexivity|].
          split; [unfold new; simpl; lia|]. split; congruence. }
      destruct Hplace as (X & f & EX & Hr & Hfa & Hfs & HXa & HXf).
      destruct (place_heap (snd cr) l2 X f [] (fst cr) asize)
        as (l' & E' & Hok' & Hhl' & Hbd' & Hal' & Har');
        try assumption; try lia.
      { rewrite Hhl2. exact Hr. }
      { apply (boundary_same_start stx); [exact Hhl2|exact Hbd2]. }
      exists (fst cr), (place (fst cr) asize (snd cr)), l'.
      split; [reflexivity|]. split; [exact Hok'|].
      split; [rewrite Hhl', Hhl2; reflexivity|].
      split; [apply (boundary_same_start (snd cr)); [symmetry; exact Hhl2|exact Hbd']|].
      split; [rewrite E'; apply split_no_adj_free; [exact Hfa|rewrite <- EX; exact Hnaf2]|].
      assert (Hsame : forall L q, allocated_at (snd cr) L q -> allocated_at st L q).
      { intros L q. apply allocated_same_start. symmetry. exact Hhl2. }
      split.
      2:{ intros _.
          apply (allocated_split_size st (prologue :: l') X f [] (fst cr) asize);
            try assumption.
          - exact (heap_ok_blocks_ok _ _ Hok').
          - apply Hsame. exact Har'. }
      intros q Hq. split.
      * apply Hsame, Hal'. apply (allocated_same_start stx); [exact Hhl2|].
        apply Hal2. change (prologue :: l ++ [new]) with ((prologue :: l) ++ [new]).
        apply allocated_app_r. exact Hq.
      * rewrite Hr.
        pose proof (allocated_below _ _ _ Hok Hq) as Hqb. unfold DSIZE in Hqb.
        destruct (balloc pl) eqn:Apl.
        -- rewrite (HXa eq_refl), total_app. simpl. lia.
        -- rewrite (HXf eq_refl). rewrite Hlast in Hq.
           apply (allocated_not_free st l0 pl []); assumption.
Qed.

Lemma mm_malloc_heap fuel size st l :
  heap_ok st l ->
  boundary st (prologue :: l) (next_fit st) ->
  no_adj_free (prologue :: l) ->
  (length l + 1 < fuel)%nat ->
  0 < size <= 2 ^ 31 - 16 ->
  exists r st' l',
    mm_malloc fuel size st = Some (r, st')
    /\ heap_ok st' l'
    /\ heap_listp st' = heap_listp st
    /\ boundary st (prologue :: l') (next_fit st')
    /\ no_adj_free (prologue :: l')
    /\ (forall q, allocated_at st (prologue :: l) q ->
                  allocated_at st (prologue :: l') q /\ q <> r)
    /\ (r <> NULL -> allocated_at st (prologue :: l') r).
Proof.
  intros Hok Hbd Hnaf Hfuel Hsize.
  destruct (mm_malloc_block fuel size st l Hok Hbd Hnaf Hfuel Hsize)
    as (r & st' & l' & H1 & H2 & H3 & H4 & H5 & H6 & H7).
  exists r, st', l'. repeat (split; [assumption|]).
  intros Hr. destruct (H7 Hr) as (la & b & lb & E & Hla & Hp & Hb & _).
  exists la, b, lb. auto.
Qed.

(** ** More fuel changes no result *)

Lemma find_fit_loop1_more fuel : forall fuel' asize st r,
  find_fit_loop1 fuel asize st = Some r -> (fuel <= fuel')%nat ->
  find_fit_loop1 fuel' asize st = Some r.
Proof.
  induction fuel as [|fuel IH]; intros fuel' asize st r; simpl; [discriminate|].
  intros H Hle. destruct fuel' as [|fuel']; [lia|]. simpl.
  destruct (GET_SIZE _ _ >? 0); [|exact H].
  destruct (fits asize st); [exact H|].
  apply IH; [exact H|lia].
Qed.

Lemma find_fit_loop2_more fuel : forall fuel' asize bp st r,
  find_fit_loop2 fuel asize bp st = Some r -> (fuel <= fuel')%nat ->
  find_fit_loop2 fuel' asize bp st = Some r.
Proof.
  induction fuel as [|fuel IH]; intros fuel' asize bp st r; simpl; [discriminate|].
  intros H Hle. destruct fuel' as [|fuel']; [lia|]. simpl.
  destruct (next_fit st <? bp); [|exact H].
  destruct (fits asize st); [exact H|].
  apply IH; [exact H|lia].
Qed.

Lemma find_fit_more fuel fuel' asize st r :
  find_fit fuel asize st = Some r -> (fuel <= fuel')%nat ->
  find_fit fuel' asize st = Some r.
Proof.
  unfold find_fit. intros H Hle.
  destruct (find_fit_loop1 fuel (u32 asize) _) as [[o s]|] eqn:E1; [|discriminate].
  rewrite (find_fit_loop1_more _ _ _ _ _ E1 Hle).
  destruct o; [exact H|].
  destruct (find_fit_loop2 fuel (u32 asize) _ _) as [[o s']|] eqn:E2; [|discriminate].
  rewrite (find_fit_loop2_more _ _ _ _ _ _ E2 Hle). exact H.
Qed.

Lemma mm_malloc_more fuel fuel' size st r :
  mm_malloc fuel size st = Some r -> (fuel <= fuel')%nat ->
  mm_malloc fuel' size st = Some r.
Proof.
  unfold mm_malloc. intros H Hle.
  destruct (u32 size =? 0); [exact H|].
  destruct (find_fit fuel _ st) as [[bp s]|] eqn:E; [|discriminate].
  rewrite (find_fit_more _ _ _ _ _ E Hle). exact H.
Qed.

(** ** Initialisation succeeds only with room for the first chunk *)

Lemma mm_init_room st0 st :
  mem_system st0 -> mm_init st0 = (0, st) ->
  mem_brk st0 + 4 * WSIZE + CHUNKSIZE <= mem_max_addr st0.
Proof.
  intros [Hpos Hlim] H. unfold WSIZE. change CHUNKSIZE with 4096.
  destruct (Z.le_gt_cases (mem_brk st0 + 4 * 4 + 4096) (mem_max_addr st0)) as [Hle|Hgt];
    [exact Hle|exfalso].
  unfold mm_init in H. unfold WSIZE at 1 in H.
  rewrite mem_sbrk_value in H by (simpl; lia).
  destruct (Z.ltb_spec (mem_max_addr st0) (mem_brk st0 + 4 * 4)).
  - simpl in H. discriminate.
  - cbn [heap_listp set_heap_listp set_brk] in H.
    destruct (Z.eqb_spec (mem_brk st0) (-1)); [lia|].
    rewrite extend_heap_fail in H.
    + simpl in H. discriminate.
    + vm_compute. split; [discriminate|reflexivity].
    + change (extend_bytes (CHUNKSIZE / WSIZE)) with 4096. simpl. unfold WSIZE. lia.
Qed.

(** ** The invariant of the reachable heaps *)

Lemma remove_one_In p q live : In q (remove_one p live) -> In q live.
Proof.
  induction live as [|x live IH]; simpl; [auto|].
  destruct (Z.eqb_spec x p); simpl; intuition.
Qed.

Lemma remove_one_NoDup p live : NoDup live -> NoDup (remove_one p live).
Proof.
  induction 1 as [|x live Hx Hnd IH]; simpl; [constructor|].
  destruct (Z.eqb_spec x p); [exact Hnd|].
  constructor; [|exact IH]. intros Hin. apply Hx. eapply remove_one_In; eassumption.
Qed.

Lemma remove_one_other p q live :
  NoDup live -> In q (remove_one p live) -> q <> p.
Proof.
  induction 1 as [|x live Hx Hnd IH]; simpl; [auto|].
  destruct (Z.eqb_spec x p); simpl.
  - subst x. intros Hin ->. contradiction.
  - intros [->|Hin]; [assumption|auto].
Qed.

Lemma reachable_inv st live :
  reachable SANE_MAX st live -> heap_inv st live.
Proof.
  induction 1 as [st0 st Hsys Hinit
                 |st live fuel size p st' Hreach IH Hsize Hmal
                 |st live p Hreach IH Hin].
  - (* mm_init *)
    destruct Hsys as [Hpos Hlim].
    destruct (mm_init_ok st0 Hpos (mm_init_room st0 st (conj Hpos Hlim) Hinit) Hlim)
      as (st1 & E & Hok & Hc1 & Hc2).
    rewrite E in Hinit. injection Hinit as <-.
    exists [mkblock CHUNKSIZE false].
    split; [exact Hok|]. split; [eexists _, _; split; eassumption|].
    split; [simpl; auto|]. split; constructor.
  - (* mm_malloc *)
    destruct IH as (l & Hok & Hbd & Hnaf & Hnd & Hall). unfold SANE_MAX in Hsize.
    destruct (Z.eq_dec size 0) as [->|Hnz].
    { unfold mm_malloc in Hmal. simpl in Hmal. injection Hmal as <- <-.
      simpl. exists l. auto 10. }
    destruct (mm_malloc_heap (Nat.max fuel (length l + 2)) size st l Hok Hbd Hnaf)
      as (r & st1 & l' & Em & Hok' & Hhl' & Hbd' & Hnaf' & Hal' & Har'); [lia|lia|].
    rewrite (mm_malloc_more _ _ _ _ _ Hmal (Nat.le_max_l _ _)) in Em.
    injection Em as <- <-.
    exists l'. split; [exact Hok'|].
    split; [apply (boundary_same_start st); assumption|].
    split; [exact Hnaf'|].
    assert (Hall' : Forall (allocated_at st' (prologue :: l')) live).
    { eapply Forall_impl; [|exact Hall]. intros q Hq.
      apply (allocated_same_start st); [assumption|]. apply Hal'. exact Hq. }
    destruct (Z.eqb_spec p NULL) as [Hp|Hp]; [auto|].
    split.
    + constructor; [|exact Hnd]. intros Hin.
      rewrite Forall_forall in Hall. destruct (Hal' p (Hall p Hin)) as [_ Hne].
      congruence.
    + constructor; [|exact Hall'].
      apply (allocated_same_start st); [assumption|]. apply Har'. exact Hp.
  - (* mm_free *)
    destruct IH as (l & Hok & Hbd & Hnaf & Hnd & Hall).
    rewrite Forall_forall in Hall.
    destruct (mm_free_heap st l p Hok (Hall p Hin) Hbd Hnaf)
      as (l' & Hok' & Hhl' & Hbd' & Hnaf' & Hal').
    exists l'. split; [exact Hok'|].
    split; [apply (boundary_same_start st); assumption|].
    split; [exact Hnaf'|].
    split; [apply remove_one_NoDup; exact Hnd|].
    apply Forall_forall. intros q Hq.
    apply (allocated_same_start st); [assumption|].
    apply Hal'; [eapply remove_one_other; eassumption|].
    apply Hall. eapply remove_one_In; eassumption.
Qed.

(** ** The walk of the code reads the block sequence *)

Lemma walk_boundary st l bp :
  heap_ok st l -> walk st bp -> boundary st (prologue :: l) bp.
Proof.
  intros Hok. induction 1 as [|bp Hw IH Hs].
  - exists [], (prologue :: l). split; [reflexivity|simpl; lia].
  - destruct IH as (c1 & c2 & E & ->).
    pose proof (ok_blocks _ _ Hok) as Hbl. rewrite E in Hbl.
    apply blocks_at_app in Hbl. destruct Hbl as [_ Hc2].
    destruct c2 as [|b c2].
    + exfalso. rewrite app_nil_r in E.
      pose proof (ok_epilogue _ _ Hok) as He. rewrite (ok_brk _ _ Hok), E in He.
      rewrite (GET_SIZE_PACK _ _ 0 1) in Hs; try assumption; try reflexivity; lia.
    + destruct Hc2 as [(Hbok & Hh & _) _].
      exists (c1 ++ [b]), c2. split; [rewrite <- app_assoc; exact E|].
      unfold NEXT_BLKP. change (?x - WSIZE) with (HDRP x).
      rewrite (GET_SIZE_tag _ _ b) by assumption.
      rewrite total_app. simpl. lia.
Qed.

Lemma free_block_in st l c1 c2 :
  heap_ok st l -> prologue :: l = c1 ++ c2 ->
  free_block st (heap_listp st + total c1) ->
  exists b c2', c2 = b :: c2' /\ balloc b = false
                /\ NEXT_BLKP (mem st) (heap_listp st + total c1)
                   = heap_listp st + total (c1 ++ [b]).
Proof.
  intros Hok E [Hs Ha].
  pose proof (ok_blocks _ _ Hok) as Hbl. rewrite E in Hbl.
  apply blocks_at_app in Hbl. destruct Hbl as [_ Hc2].
  destruct c2 as [|b c2].
  - exfalso. rewrite app_nil_r in E.
    pose proof (ok_epilogue _ _ Hok) as He. rewrite (ok_brk _ _ Hok), E in He.
    rewrite (GET_SIZE_PACK _ _ 0 1) in Hs; try assumption; try reflexivity; lia.
  - destruct Hc2 as [(Hbok & Hh & _) _].
    exists b, c2. split; [reflexivity|]. split.
    + rewrite (GET_ALLOC_tag _ _ b) in Ha by assumption.
      destruct (balloc b); [discriminate|reflexivity].
    + unfold NEXT_BLKP. change (?x - WSIZE) with (HDRP x).
      rewrite (GET_SIZE_tag _ _ b) by assumption.
      rewrite total_app. simpl. lia.
Qed.

Lemma no_adj_free_walk st l :
  heap_ok st l -> no_adj_free (prologue :: l) -> ~ adjacent_free st.
Proof.
  intros Hok Hnaf (bp & Hw & Hf1 & Hf2).
  destruct (walk_boundary _ _ _ Hok Hw) as (c1 & c2 & E & ->).
  destruct (free_block_in _ _ _ _ Hok E Hf1) as (b & c2' & -> & Hb & Hnext).
  rewrite Hnext in Hf2.
  assert (E2 : prologue :: l = (c1 ++ [b]) ++ c2')
    by (rewrite <- app_assoc; exact E).
  destruct (free_block_in _ _ _ _ Hok E2 Hf2) as (n & c2'' & -> & Hn & _).
  rewrite E in Hnaf. apply no_adj_free_app in Hnaf. destruct Hnaf as (_ & H & _).
  simpl in H. rewrite Hb, Hn in H. destruct H as [[H|H] _]; discriminate.
Qed.

(** With requests of at most 2^31 - 16 bytes, whose rounding does not
    wrap, no reachable heap has two free blocks next to each other. *)
Lemma no_adjacent_free_sane st live :
  reachable SANE_MAX st live -> ~ adjacent_free st.
Proof.
  intros H. destruct (reachable_inv _ _ H) as (l & Hok & _ & Hnaf & _).
  eapply no_adj_free_walk; eassumption.
Qed.

(** ** The sample heaps *)

Ltac heap_by_computation :=
  constructor;
  [ vm_compute; reflexivity
  | cbn [blocks_at]; unfold block_at, block_ok;
    repeat split; vm_compute; try reflexivity; try discriminate
  | vm_compute; reflexivity
  | vm_compute; reflexivity
  | vm_compute; discriminate
  | vm_compute; reflexivity ].

Lemma heap_init_ok : heap_ok heap_init [mkblock 4096 false].
Proof. heap_by_computation. Qed.

Lemma heap_init_cursor :
  cursor_at heap_init [mkblock 4096 false] [] [prologue; mkblock 4096 false].
Proof. split; vm_compute; reflexivity. Qed.

Lemma heap_one_ok : heap_ok heap_one [mkblock 112 true; mkblock 3984 false].
Proof. heap_by_computation. Qed.

Lemma heap_one_cursor :
  cursor_at heap_one [mkblock 112 true; mkblock 3984 false]
    [prologue] [mkblock 112 true; mkblock 3984 false].
Proof. split; vm_compute; reflexivity. Qed.

Lemma heap_holes_ok :
  heap_ok heap_holes [mkblock 16 false; mkblock 16 true; mkblock 4064 false].
Proof. heap_by_computation. Qed.

Lemma heap_holes_cursor :
  cursor_at heap_holes [mkblock 16 false; mkblock 16 true; mkblock 4064 false]
    [prologue; mkblock 16 false; mkblock 16 true] [mkblock 4064 false].
Proof. split; vm_compute; reflexivity. Qed.

(** ** The search *)

(** C1.  In a well-formed heap whose cursor stands at a block of the walk,
    [find_fit] returns the first free block of encoded size at least
    [asize] in the blocks from the cursor to the epilogue; failing that, the
    first such block from the start of the walk up to, and excluding, the
    block the cursor started at.  On success the cursor is left at the
    block returned; the result is null exactly when no block of either
    range fits. *)
Theorem find_fit_next_fit fuel asize st l l1 l2 :
  heap_ok st l -> cursor_at st l l1 l2 ->
  (length l + 1 < fuel)%nat ->
  0 <= asize < 2 ^ 32 ->
  let found := next_fit_search asize (heap_listp st) l1 l2 in
  find_fit fuel asize st =
  Some (match found with
        | Some bp => (bp, set_next_fit bp st)
        | None => (NULL, st)
        end)
  /\ (forall bp, found = Some bp -> bp <> NULL)
  /\ (found = None <-> Forall (fun b => block_fits asize b = false) (l1 ++ l2)).
Proof.
  intros Hok Hcur Hfuel Ha found. split; [|split].
  - apply (find_fit_spec fuel asize st l l1 l2); assumption.
  - intros bp Hf.
    destruct (search_block _ _ _ _ _ _ Hok Hcur Hf) as (_ & _ & _ & _ & _ & _ & _ & _ & Hlt).
    pose proof (ok_base _ _ Hok). unfold DSIZE, NULL in *. lia.
  - apply next_fit_search_none.
Qed.

Lemma find_fit_next_fit_witness :
  find_fit 5 16 heap_holes = Some (1048, set_next_fit 1048 heap_holes).
Proof.
  destruct (find_fit_next_fit 5 16 heap_holes _ _ _ heap_holes_ok heap_holes_cursor)
    as [E _]; [simpl; lia|vm_compute; split; [discriminate|reflexivity]|].
  exact E.
Defined.

(** ** Coalescing *)

(** C2.  For a block [b] of a well-formed heap, with predecessor [p] and
    the rest [l2] of the sequence after it, [coalesce] goes by the
    allocated flags of [p] (its footer) and of the successor (its header):
    both allocated, [b] comes back and nothing changes; only the successor
    free, [b] comes back with its header and the successor's footer
    rewritten to the sum of the two sizes, free; only the predecessor free,
    the predecessor's address comes back, its header and the footer of [b]
    rewritten to the sum; both free, the predecessor's address comes back,
    its header and the successor's footer rewritten to the sum of the three
    sizes. *)
Theorem coalesce_by_neighbours st l l1 p b l2 bp :
  heap_ok st l ->
  prologue :: l = l1 ++ p :: b :: l2 ->
  bp = heap_listp st + total l1 + bsize p ->
  coalesce bp st =
  match balloc p, succ_alloc l2 with
  | true, true => (bp, st)
  | true, false =>
      let size := bsize b + succ_size l2 in
      (bp, relocate bp size (set_mem (retag (mem st) bp size 0) st))
  | false, true =>
      let size := bsize p + bsize b in
      (bp - bsize p,
       relocate (bp - bsize p) size
         (set_mem (PUT (PUT (mem st) (bp + bsize b - DSIZE) (PACK size 0))
                       (HDRP (bp - bsize p)) (PACK size 0)) st))
  | false, false =>
      let size := bsize p + bsize b + succ_size l2 in
      (bp - bsize p,
       relocate (bp - bsize p) size
         (set_mem (retag (mem st) (bp - bsize p) size 0) st))
  end.
Proof. apply coalesce_cases. Qed.

Lemma coalesce_by_neighbours_witness :
  coalesce 1032 heap_holes =
  (1016, relocate 1016 4096 (set_mem (retag (mem heap_holes) 1016 4096 0) heap_holes)).
Proof.
  apply (coalesce_by_neighbours heap_holes _ [prologue] (mkblock 16 false)
           (mkblock 16 true) [mkblock 4064 false] 1032 heap_holes_ok).
  - reflexivity.
  - vm_compute. reflexivity.
Defined.

(** ** Placement *)

(** C3.  Placing [asize] bytes in a free block of [bsize b] bytes, with
    [asize] a multiple of 8 and at most [bsize b], splits exactly when the
    leftover is at least 16 bytes: then the block carries [(asize,
    allocated)] in header and footer and the region right after it carries
    [(bsize b - asize, free)] in header and footer; otherwise the whole
    block carries [(bsize b, allocated)]. *)
Theorem place_split_or_consume st bp b asize :
  block_ok b -> GET (mem st) (HDRP bp) = tag b -> balloc b = false ->
  asize mod 8 = 0 -> 0 < asize <= bsize b ->
  let m' := mem (place bp asize st) in
  if 2 * DSIZE <=? bsize b - asize
  then m' = retag (retag (mem st) bp asize 1) (bp + asize) (bsize b - asize) 0
       /\ block_at m' bp (mkblock asize true)
       /\ block_at m' (bp + asize) (mkblock (bsize b - asize) false)
  else m' = retag (mem st) bp (bsize b) 1
       /\ block_at m' bp (mkblock (bsize b) true).
Proof.
  intros Hok Hh _ Hm Ha m'. subst m'.
  rewrite (place_cases st bp b asize) by (assumption || lia).
  rewrite mem_advance. cbn [mem set_mem]. unfold placed.
  destruct (block_ok_range b Hok) as [Hr Hbm].
  pose proof (mod8_mul _ Hm) as Hk.
  destruct (Z.leb_spec (2 * DSIZE) (bsize b - asize)) as [Hs|Hs]; unfold DSIZE in Hs.
  - assert (Hm2 : (bsize b - asize) mod 8 = 0).
    { rewrite Zminus_mod, Hbm, Hm. reflexivity. }
    assert (Hoka : block_ok (mkblock asize true))
      by (split; simpl; unfold DSIZE; [lia|assumption]).
    assert (Hokr : block_ok (mkblock (bsize b - asize) false))
      by (split; simpl; unfold DSIZE; [lia|assumption]).
    split; [reflexivity|]. split.
    + eapply (block_at_same_on (bp - 4) (bp + asize - 4));
        [| | |apply (retag_block_at (mem st) bp asize true Hoka)];
        cbn [bsize]; try lia.
      apply same_on_retag_block; lia.
    + apply (retag_block_at _ (bp + asize) (bsize b - asize) false Hokr).
  - split; [reflexivity|].
    apply (retag_block_at (mem st) bp (bsize b) true).
    destruct Hok as [H1 H2]. split; simpl; assumption.
Qed.

Lemma place_split_or_consume_witness :
  let m' := mem (place 1016 112 heap_init) in
  m' = retag (retag (mem heap_init) 1016 112 1) 1128 3984 0
  /\ block_at m' 1016 (mkblock 112 true)
  /\ block_at m' 1128 (mkblock 3984 false).
Proof.
  apply (place_split_or_consume heap_init 1016 (mkblock 4096 false) 112).
  - split; vm_compute; [split; [discriminate|reflexivity]|reflexivity].
  - vm_compute. reflexivity.
  - reflexivity.
  - reflexivity.
  - simpl. lia.
Defined.

(** C6.  With the cursor on the block being placed, [place] leaves the
    cursor on that very block when it splits (the test at its end compares
    the cursor with the split remainder), and moves it to the next block
    only when the whole block is consumed. *)
Theorem place_split_keeps_cursor st bp b asize :
  block_ok b -> GET (mem st) (HDRP bp) = tag b ->
  asize mod 8 = 0 -> 0 < asize <= bsize b ->
  next_fit st = bp ->
  next_fit (place bp asize st) =
  if 2 * DSIZE <=? bsize b - asize then bp else bp + bsize b.
Proof.
  intros Hok Hh Hm Ha Hc.
  rewrite (place_cases st bp b asize) by (assumption || lia).
  unfold advance. cbn [next_fit set_mem]. rewrite Hc.
  destruct (2 * DSIZE <=? bsize b - asize).
  - destruct (Z.eqb_spec bp (bp + asize)); [lia|]. cbn [next_fit]. exact Hc.
  - rewrite Z.eqb_refl. reflexivity.
Qed.

Lemma place_split_keeps_cursor_witness :
  next_fit (place 1016 16 (set_next_fit 1016 heap_init)) = 1016.
Proof.
  apply (place_split_keeps_cursor (set_next_fit 1016 heap_init) 1016
           (mkblock 4096 false) 16).
  - split; vm_compute; [split; [discriminate|reflexivity]|reflexivity].
  - vm_compute. reflexivity.
  - reflexivity.
  - simpl. lia.
  - reflexivity.
Defined.

(** ** Allocation *)

(** C5.  The sum [size + DSIZE + (DSIZE - 1)] is formed in 32 bits: for
    the request of 4294967295 bytes it wraps, and the adjusted size is 8,
    below the minimum block size of 16 and below the request; for
    4294967281 bytes it is 0. *)
Theorem adjust_size_wraps :
  adjust_size 4294967295 = 8
  /\ adjust_size 4294967295 < 2 * DSIZE
  /\ adjust_size 4294967295 < 4294967295 + 2 * WSIZE
  /\ adjust_size 4294967281 = 0.
Proof. vm_compute. repeat split. Qed.

(** C7.  [MAX] takes its arguments as [int]: for a request of 2^31 bytes
    the adjusted size 2147483656 turns negative, so the growth asked of
    [mem_sbrk] is the chunk size, 4096 bytes, not the adjusted size; on the
    fresh heap the request succeeds with the break moved by 4096 bytes. *)
Theorem growth_request_wraps :
  adjust_size 2147483648 = 2147483656
  /\ next_fit_search 2147483656 (heap_listp heap_init) []
       [prologue; mkblock 4096 false] = None
  /\ growth_request 2147483648 = 4096
  /\ Z.max (adjust_size 2147483648) CHUNKSIZE = 2147483656
  /\ option_map (fun r => (fst r, mem_brk (snd r) - mem_brk heap_init))
       (mm_malloc 8 2147483648 heap_init) = Some (1016, 4096).
Proof. vm_compute. repeat split. Qed.

(** What [mm_malloc] returns in a well-formed heap. *)
Lemma mm_malloc_returns fuel size st l l1 l2 :
  heap_ok st l -> cursor_at st l l1 l2 ->
  (length l + 1 < fuel)%nat ->
  0 <= size < 2 ^ 32 ->
  exists r st',
    mm_malloc fuel size st = Some (r, st')
    /\ (r = NULL <->
        size = 0
        \/ (Forall (fun b => block_fits (adjust_size size) b = false)
              (prologue :: l)
            /\ fst (mem_sbrk (growth_request size) st) = -1)).
Proof.
  intros Hok Hcur Hfuel Hsize.
  destruct (Z.eq_dec size 0) as [->|Hnz].
  { exists NULL, st. split; [reflexivity|]. split; auto. }
  rewrite (mm_malloc_cases fuel size st l l1 l2) by (assumption || lia).
  destruct (adjust_size_range size Hsize) as [Har Ham].
  destruct (extend_request _ Har Ham) as (Eb & Er & _).
  pose proof (ok_base _ _ Hok) as Hbase.
  pose proof (heap_ok_brk_pos _ _ Hok) as Hbrk. unfold DSIZE in Hbase, Hbrk.
  destruct Hcur as [Hsplit Hc].
  pose proof (next_fit_search_none (adjust_size size) (heap_listp st) l1 l2) as Hnone.
  rewrite <- Hsplit in Hnone.
  unfold growth_request. rewrite Eb, mem_sbrk_value by lia.
  destruct (next_fit_search (adjust_size size) (heap_listp st) l1 l2) as [r|] eqn:Es.
  - eexists _, _. split; [reflexivity|].
    destruct (search_block _ _ _ _ _ _ Hok (conj Hsplit Hc) Es)
      as (_ & _ & _ & _ & _ & _ & _ & _ & Hlt).
    split; [unfold NULL; lia|].
    intros [H|[H _]]; [lia|]. apply Hnone in H. discriminate.
  - destruct (Z.ltb_spec (mem_max_addr st) (mem_brk st + extend_size (adjust_size size))).
    + eexists _, _. split; [reflexivity|]. split; [|reflexivity].
      intros _. right. split; [apply Hnone; reflexivity|reflexivity].
    + eexists _, _. split; [reflexivity|].
      pose proof (grown_nonnull _ _ _ Hok Har Ham ltac:(lia)).
      split; [unfold NULL; lia|].
      intros [Hz|[_ Hz]]; [lia|]. simpl in Hz. lia.
Qed.

(** C8.  A request that is not for 0 bytes, that no block fits and for
    which [mem_sbrk] grants the growth asked, yet which gets no block:
    [mm_malloc(2147483648)] on the heap after [mm_init].  The adjusted
    size is 2147483656; [MAX], declared on [int], cuts the growth to 4096
    bytes, which [mem_sbrk] grants; [place] then stores the footer of a
    block of 2147483656 bytes at address 2147484664, above the hard limit
    20972520 of the memory system, where the byte was 0 before.  In this
    model, where every address holds a byte, the call comes back with
    1016. *)
Theorem mm_malloc_stores_past_limit :
  Forall (fun b => block_fits (adjust_size 2147483648) b = false)
    [prologue; mkblock 4096 false]
  /\ fst (mem_sbrk (growth_request 2147483648) heap_init) = mem_brk heap_init
  /\ mm_malloc 8 2147483648 heap_init = Some (1016, overrun)
  /\ mem_max_addr overrun = 20972520
  /\ 1016 + adjust_size 2147483648 - DSIZE = 2147484664
  /\ GET (mem overrun) 2147484664 = PACK (adjust_size 2147483648) 1
  /\ GET (mem heap_init) 2147484664 = 0
  /\ GET_SIZE (mem overrun) (HDRP 1016) = 2147483656
  /\ mem_brk overrun - 1016 = 8192.
Proof.
  split; [repeat constructor|].
  repeat split; vm_compute; reflexivity.
Qed.

(** ** Reallocation *)

(** C9.  A reallocation that returns no block: [mm_realloc(1016,
    4294967281)] on [heap_one], where 1016 is the allocated block of 112
    bytes.  The rounding of the size wraps to an adjusted size of 0, so
    [mm_malloc] returns the free block at 1128 still marked free; 112 bytes
    are copied to it; [mm_free] then merges the old block with that free
    block.  The pointer returned, 1128, lies inside the one free block of
    the heap, of 4096 bytes from 1016 on: it is no allocated block, and the
    next [mm_malloc(200)] returns 1016, whose block covers it. *)
Theorem mm_realloc_returns_free :
  adjust_size 4294967281 = 0
  /\ allocated_at heap_one [prologue; mkblock 112 true; mkblock 3984 false] 1016
  /\ mm_realloc 8 1016 4294967281 heap_one = Some (Returns 1128 realloc_wrapped)
  /\ heap_ok realloc_wrapped [mkblock 4096 false]
  /\ heap_listp realloc_wrapped + total [prologue] = 1016
  /\ 1016 < 1128 < 1016 + 4096
  /\ ~ allocated_at realloc_wrapped [prologue; mkblock 4096 false] 1128
  /\ fst (run_malloc 200 realloc_wrapped) = 1016
  /\ 1016 < 1128 < 1016 + adjust_size 200.
Proof.
  split; [reflexivity|].
  split.
  { exists [prologue], (mkblock 112 true), [mkblock 3984 false].
    repeat split; try reflexivity. discriminate. }
  split; [vm_compute; reflexivity|].
  split; [heap_by_computation|].
  split; [vm_compute; reflexivity|].
  split; [vm_compute; split; reflexivity|].
  split.
  { intros (la & b & lb & E & Hla & Hp & Hb).
    destruct la as [|x la]; [congruence|].
    destruct la as [|y la].
    - simpl in E. injection E as _ <- _. discriminate.
    - apply (f_equal (@length block)) in E. simpl in E.
      rewrite length_app in E. simpl in E. lia. }
  split; vm_compute; [reflexivity|split; reflexivity].
Qed.

(** C10.  [mm_realloc] of any block to 0 bytes ends the process: the call
    of [mm_malloc] returns null at once, nothing is copied or freed, and
    nothing is returned. *)
Theorem mm_realloc_zero fuel ptr st :
  mm_realloc fuel ptr 0 st = Some (Exits 1 st).
Proof. reflexivity. Qed.

(** ** The coalescing invariant *)

Lemma run_malloc_eq size st :
  mm_malloc 8 size st <> None ->
  mm_malloc 8 size st = Some (fst (run_malloc size st), snd (run_malloc size st)).
Proof.
  unfold run_malloc. destruct (mm_malloc 8 size st) as [[p s]|]; [reflexivity|congruence].
Qed.

Lemma walk_from st bp bp' :
  walk st bp -> GET_SIZE (mem st) (HDRP bp) > 0 ->
  bp' = NEXT_BLKP (mem st) bp -> walk st bp'.
Proof. intros H Hs ->. apply walk_next; assumption. Qed.

(** C4.  A run of valid calls that ends with two free blocks next to each
    other: after [mm_init], a request of 4294967281 bytes (adjusted size 0)
    returns the free block at 1016 still marked free and overwrites the
    prologue footer; two requests of 8 bytes return 1016 again and 1032;
    freeing 1016 then takes the block for its own predecessor and leaves it
    free with size 32, next to the free block at 1048. *)
Theorem adjacent_free_reached :
  reachable UINT32_MAX wrapped_4 [1032; 1016] /\ adjacent_free wrapped_4.
Proof.
  split.
  - assert (R0 : reachable UINT32_MAX heap_init []).
    { apply (reach_init UINT32_MAX boot); [split; vm_compute; reflexivity|].
      unfold heap_init.
      assert (H : fst (mm_init boot) = 0) by (vm_compute; reflexivity).
      destruct (mm_init boot) as [r s]. simpl in H. subst r. reflexivity. }
    assert (R1 : reachable UINT32_MAX (snd wrapped_1) [1016]).
    { apply (reach_malloc UINT32_MAX heap_init [] 8 4294967281 1016 _ R0).
      - vm_compute. split; discriminate.
      - unfold wrapped_1. rewrite run_malloc_eq by (vm_compute; discriminate).
        replace (fst (run_malloc 4294967281 heap_init)) with 1016
          by (vm_compute; reflexivity).
        reflexivity. }
    assert (R2 : reachable UINT32_MAX (snd wrapped_2) [1016; 1016]).
    { apply (reach_malloc UINT32_MAX (snd wrapped_1) [1016] 8 8 1016 _ R1).
      - vm_compute. split; discriminate.
      - unfold wrapped_2. rewrite run_malloc_eq by (vm_compute; discriminate).
        replace (fst (run_malloc 8 (snd wrapped_1))) with 1016
          by (vm_compute; reflexivity).
        reflexivity. }
    assert (R3 : reachable UINT32_MAX (snd wrapped_3) [1032; 1016; 1016]).
    { apply (reach_malloc UINT32_MAX (snd wrapped_2) [1016; 1016] 8 8 1032 _ R2).
      - vm_compute. split; discriminate.
      - unfold wrapped_3. rewrite run_malloc_eq by (vm_compute; discriminate).
        replace (fst (run_malloc 8 (snd wrapped_2))) with 1032
          by (vm_compute; reflexivity).
        reflexivity. }
    assert (E : fst wrapped_1 = 1016) by (vm_compute; reflexivity).
    unfold wrapped_4. rewrite E.
    apply (reach_free UINT32_MAX (snd wrapped_3) [1032; 1016; 1016] 1016 R3).
    simpl. auto.
  - exists 1016. split; [|split].
    + apply (walk_from wrapped_4 1008).
      * replace 1008 with (heap_listp wrapped_4) by (vm_compute; reflexivity).
        apply walk_start.
      * vm_compute. reflexivity.
      * vm_compute. reflexivity.
    + split; vm_compute; reflexivity.
    + split; vm_compute; reflexivity.
Qed.

(** * Further properties of the code *)

(** ** Words and tags *)

(** X1.  A word stored with [PUT] is read back by [GET], reduced to 32
    bits, and every word that does not overlap it reads as before. *)
Theorem PUT_GET_round_trip m p v q :
  GET (PUT m p v) p = u32 v
  /\ (q + 4 <= p \/ p + 4 <= q -> GET (PUT m p v) q = GET m q).
Proof.
  split; [apply GET_PUT_same|apply GET_PUT_other].
Qed.

Lemma land_flag_range alloc : 0 <= Z.land alloc 1 <= 1.
Proof.
  rewrite land_mask_alloc. pose proof (Z.mod_pos_bound alloc 2 ltac:(lia)). lia.
Qed.

Lemma PACK_flag size alloc : PACK size alloc = PACK size (Z.land alloc 1).
Proof.
  unfold PACK. rewrite <- Z.land_assoc. reflexivity.
Qed.

(** X2.  A tag packed from a size that is a multiple of 8 and any [int]
    flag decodes to that size and to the lowest bit of the flag. *)
Theorem PACK_decodes m p size alloc :
  0 <= size < 2 ^ 32 -> size mod 8 = 0 ->
  GET_SIZE (PUT m p (PACK size alloc)) p = size
  /\ GET_ALLOC (PUT m p (PACK size alloc)) p = Z.land alloc 1.
Proof.
  intros Hs Hm. pose proof (land_flag_range alloc) as Ha.
  rewrite PACK_flag. split.
  - apply (GET_SIZE_PACK _ _ size (Z.land alloc 1)); try assumption.
    apply GET_PUT_PACK; assumption.
  - apply (GET_ALLOC_PACK _ _ size (Z.land alloc 1)); try assumption.
    apply GET_PUT_PACK; assumption.
Qed.

Lemma PACK_decodes_witness :
  GET_SIZE (PUT (fun _ => x00) 96 (PACK 24 3)) 96 = 24
  /\ GET_ALLOC (PUT (fun _ => x00) 96 (PACK 24 3)) 96 = Z.land 3 1.
Proof.
  apply (PACK_decodes (fun _ => x00) 96 24 3).
  - vm_compute. split; [discriminate|reflexivity].
  - reflexivity.
Defined.

(** X3.  At a block [b] of a well-formed heap the pointer macros agree
    with the sequence: the header decodes to the size and flag of [b], the
    footer holds the same word as the header, [NEXT_BLKP] is the block
    pointer [bsize b] bytes on, its header is the word after the footer,
    and [PREV_BLKP] leads back from it. *)
Theorem block_navigation st l la b lb :
  heap_ok st l -> prologue :: l = la ++ b :: lb ->
  let m := mem st in
  let bp := heap_listp st + total la in
  GET_SIZE m (HDRP bp) = bsize b
  /\ GET_ALLOC m (HDRP bp) = Z.b2z (balloc b)
  /\ GET m (FTRP m bp) = GET m (HDRP bp)
  /\ NEXT_BLKP m bp = bp + bsize b
  /\ HDRP (NEXT_BLKP m bp) = FTRP m bp + WSIZE
  /\ PREV_BLKP m (NEXT_BLKP m bp) = bp
  /\ GET_SIZE m (HDRP (NEXT_BLKP m bp)) = succ_size lb
  /\ GET_ALLOC m (HDRP (NEXT_BLKP m bp)) = Z.b2z (succ_alloc lb).
Proof.
  intros Hok E m bp.
  destruct (block_in_heap _ _ _ _ _ Hok E) as ((Hbok & Hh & Hf) & _).
  fold bp in Hh, Hf. fold m in Hh, Hf.
  assert (Hs : GET_SIZE m (HDRP bp) = bsize b) by (apply GET_SIZE_tag; assumption).
  assert (Hn : NEXT_BLKP m bp = bp + bsize b).
  { unfold NEXT_BLKP. fold (HDRP bp). rewrite Hs. reflexivity. }
  assert (Hft : FTRP m bp = bp + bsize b - DSIZE).
  { unfold FTRP. rewrite Hs. reflexivity. }
  destruct (succ_header _ _ _ _ _ Hok E) as (Hsh & Hsr & Hsm & _).
  fold bp in Hsh. fold m in Hsh.
  split; [exact Hs|].
  split; [apply GET_ALLOC_tag; assumption|].
  split; [rewrite Hft, Hf, Hh; reflexivity|].
  split; [exact Hn|].
  split; [rewrite Hn, Hft; unfold HDRP, WSIZE, DSIZE; lia|].
  split.
  { unfold PREV_BLKP. rewrite Hn.
    rewrite (GET_SIZE_tag m (bp + bsize b - DSIZE) b Hbok Hf). lia. }
  rewrite Hn. pose proof (b2z_range (succ_alloc lb)).
  split.
  - apply (GET_SIZE_PACK _ _ _ (Z.b2z (succ_alloc lb))); assumption.
  - apply (GET_ALLOC_PACK _ _ (succ_size lb)); assumption.
Qed.

Lemma block_navigation_witness :
  let m := mem heap_holes in
  let bp := heap_listp heap_holes + total [prologue; mkblock 16 false] in
  GET_SIZE m (HDRP bp) = 16
  /\ GET_ALLOC m (HDRP bp) = 1
  /\ GET m (FTRP m bp) = GET m (HDRP bp)
  /\ NEXT_BLKP m bp = bp + 16
  /\ HDRP (NEXT_BLKP m bp) = FTRP m bp + WSIZE
  /\ PREV_BLKP m (NEXT_BLKP m bp) = bp
  /\ GET_SIZE m (HDRP (NEXT_BLKP m bp)) = 4064
  /\ GET_ALLOC m (HDRP (NEXT_BLKP m bp)) = 0.
Proof.
  apply (block_navigation heap_holes _ [prologue; mkblock 16 false]
           (mkblock 16 true) [mkblock 4064 false] heap_holes_ok).
  reflexivity.
Defined.

(** ** Initialisation *)

Lemma coalesce_globals bp st :
  heap_listp (snd (coalesce bp st)) = heap_listp st
  /\ mem_brk (snd (coalesce bp st)) = mem_brk st
  /\ mem_max_addr (snd (coalesce bp st)) = mem_max_addr st.
Proof.
  unfold coalesce.
  repeat match goal with
         | |- context [if ?c then _ else _] => destruct c
         end; cbn; auto.
Qed.

Lemma extend_heap_globals words st :
  heap_listp (snd (extend_heap words st)) = heap_listp st
  /\ mem_max_addr (snd (extend_heap words st)) = mem_max_addr st.
Proof.
  unfold extend_heap, mem_sbrk.
  destruct (_ || _); cbn [fst snd]; [simpl; auto|].
  destruct (mem_brk st =? -1); [simpl; auto|].
  match goal with
  | |- context [coalesce ?b ?s] => destruct (coalesce_globals b s) as (H1 & _ & H3)
  end.
  rewrite H1, H3. simpl. auto.
Qed.

Lemma mm_init_heap_listp st0 :
  mem_brk st0 + 4 * WSIZE <= mem_max_addr st0 -> mem_brk st0 <> -1 ->
  heap_listp (snd (mm_init st0)) = mem_brk st0 + 2 * WSIZE.
Proof.
  intros Hfit Hne. unfold WSIZE in Hfit.
  unfold mm_init. unfold WSIZE at 1. rewrite mem_sbrk_value by (simpl; lia).
  destruct (Z.ltb_spec (mem_max_addr st0) (mem_brk st0 + 4 * 4)); [lia|].
  cbn [heap_listp set_heap_listp set_brk].
  destruct (Z.eqb_spec (mem_brk st0) (-1)); [contradiction|].
  match goal with
  | |- context [extend_heap ?w ?s] =>
      destruct (extend_heap_globals w s) as [H1 _];
      destruct (extend_heap w s) as [r s'] eqn:E
  end.
  cbn [snd] in H1. destruct (r =? NULL); cbn [snd]; rewrite H1; reflexivity.
Qed.

(** X4.  On a memory system with room for the 16 bytes of the prologue
    and epilogue and for one chunk, [mm_init] returns 0 and leaves a
    well-formed heap: [heap_listp] two words above the old break, the
    cursor on it, and one free block of [CHUNKSIZE] bytes between the
    prologue and the epilogue. *)
Theorem mm_init_establishes st0 :
  mem_system st0 ->
  mem_brk st0 + 4 * WSIZE + CHUNKSIZE <= mem_max_addr st0 ->
  exists st,
    mm_init st0 = (0, st)
    /\ heap_listp st = mem_brk st0 + 2 * WSIZE
    /\ next_fit st = heap_listp st
    /\ mem_brk st = mem_brk st0 + 4 * WSIZE + CHUNKSIZE
    /\ heap_ok st [mkblock CHUNKSIZE false].
Proof.
  intros [Hpos Hlim] Hfit.
  destruct (mm_init_ok st0 Hpos Hfit Hlim) as (st & E & Hok & _ & Hc).
  exists st. split; [exact E|].
  assert (Hhl : heap_listp st = mem_brk st0 + 2 * WSIZE).
  { pose proof (mm_init_heap_listp st0) as H. rewrite E in H. apply H.
    - change CHUNKSIZE with 4096 in Hfit. lia.
    - lia. }
  split; [exact Hhl|].
  split; [rewrite Hc; simpl; lia|].
  split; [|exact Hok].
  rewrite (ok_brk _ _ Hok), Hhl. cbn [total prologue bsize]. unfold WSIZE, DSIZE. lia.
Qed.

Lemma mm_init_establishes_witness :
  exists st,
    mm_init boot = (0, st)
    /\ heap_listp st = mem_brk boot + 2 * WSIZE
    /\ next_fit st = heap_listp st
    /\ mem_brk st = mem_brk boot + 4 * WSIZE + CHUNKSIZE
    /\ heap_ok st [mkblock CHUNKSIZE false].
Proof.
  apply (mm_init_establishes boot).
  - split; vm_compute; reflexivity.
  - vm_compute. discriminate.
Defined.

Lemma mm_init_code st0 : fst (mm_init st0) = 0 \/ fst (mm_init st0) = -1.
Proof.
  unfold mm_init. destruct (mem_sbrk (4 * WSIZE) st0) as [p s].
  destruct (p =? -1); [right; reflexivity|].
  match goal with
  | |- context [extend_heap ?w ?s] => destruct (extend_heap w s) as [r s']
  end.
  destruct (r =? NULL); [right|left]; reflexivity.
Qed.

(** X5.  [mm_init] returns 0 or -1, and on a memory system it returns 0
    exactly when the 16 bytes of the prologue and epilogue and one chunk
    fit below the hard limit.  When not even the 16 bytes fit, nothing but
    [heap_listp], which then holds the pointer -1, has changed. *)
Theorem mm_init_result st0 :
  mem_system st0 ->
  fst (mm_init st0) =
  (if mem_max_addr st0 <? mem_brk st0 + 4 * WSIZE + CHUNKSIZE then -1 else 0)
  /\ (mem_max_addr st0 < mem_brk st0 + 4 * WSIZE ->
      snd (mm_init st0) = set_heap_listp (-1) st0).
Proof.
  intros Hsys. split.
  - destruct (Z.ltb_spec (mem_max_addr st0) (mem_brk st0 + 4 * WSIZE + CHUNKSIZE)) as [H|H].
    + destruct (mm_init_code st0) as [E|E]; [exfalso|exact E].
      pose proof (mm_init_room st0 (snd (mm_init st0)) Hsys) as Hr.
      rewrite <- E in Hr at 1. rewrite <- surjective_pairing in Hr.
      specialize (Hr eq_refl). lia.
    + destruct Hsys as [Hpos Hlim].
      destruct (mm_init_ok st0 Hpos H Hlim) as (st & E & _). rewrite E. reflexivity.
  - intros H. unfold WSIZE in H. unfold mm_init. unfold WSIZE at 1.
    rewrite mem_sbrk_value by (simpl; lia).
    destruct (Z.ltb_spec (mem_max_addr st0) (mem_brk st0 + 4 * 4)); [|lia].
    reflexivity.
Qed.

Lemma mm_init_result_witness :
  fst (mm_init (mkstate (fun _ => x00) 1000 1010 0 0)) = -1
  /\ snd (mm_init (mkstate (fun _ => x00) 1000 1010 0 0))
     = set_heap_listp (-1) (mkstate (fun _ => x00) 1000 1010 0 0).
Proof.
  destruct (mm_init_result (mkstate (fun _ => x00) 1000 1010 0 0)) as [H1 H2].
  - split; vm_compute; reflexivity.
  - split; [exact H1|]. apply H2. vm_compute. reflexivity.
Defined.

(** ** Growing the heap *)

Lemma extend_bytes_value words :
  0 <= words < 2 ^ 30 - 1 ->
  extend_bytes words = WSIZE * (words + words mod 2).
Proof.
  intros H. change (2 ^ 30) with 1073741824 in H.
  unfold extend_bytes, u32, WSIZE. change (2 ^ 32) with 4294967296.
  rewrite (Z.mod_small words) by lia.
  pose proof (Z.mod_pos_bound words 2 ltac:(lia)) as Hm.
  destruct (Z.eqb_spec (words mod 2) 0) as [E|E]; cbn [negb].
  - rewrite Z.mod_small by lia. lia.
  - rewrite (Z.mod_small (words + 1)) by lia. rewrite Z.mod_small by lia. lia.
Qed.

Lemma extend_bytes_rounded words :
  0 <= words < 2 ^ 30 - 1 ->
  extend_bytes words = WSIZE * (words + words mod 2)
  /\ WSIZE * words <= extend_bytes words <= WSIZE * words + WSIZE
  /\ extend_bytes words mod DSIZE = 0.
Proof.
  intros H. rewrite (extend_bytes_value words H).
  pose proof (Z.mod_pos_bound words 2 ltac:(lia)) as Hm.
  pose proof (Z.div_mod words 2 ltac:(lia)) as Hd.
  unfold WSIZE, DSIZE. split; [reflexivity|]. split; [lia|].
  assert (E : words mod 2 = 0 \/ words mod 2 = 1) by lia.
  destruct E as [E|E]; rewrite E.
  - replace (4 * (words + 0)) with ((words / 2) * 8) by lia. apply Z.mod_mul. lia.
  - replace (4 * (words + 1)) with ((words / 2 + 1) * 8) by lia. apply Z.mod_mul. lia.
Qed.

(** X6.  [extend_heap] asks the memory system for [words] words rounded up
    to an even count: at least the bytes asked for, at most one word more,
    and a multiple of 8. *)
Theorem extend_heap_rounds_up words :
  0 <= words < 2 ^ 30 - 1 ->
  extend_bytes words = WSIZE * (words + words mod 2)
  /\ WSIZE * words <= extend_bytes words <= WSIZE * words + WSIZE
  /\ extend_bytes words mod DSIZE = 0.
Proof. apply extend_bytes_rounded. Qed.

Lemma extend_heap_rounds_up_witness :
  extend_bytes 1023 = WSIZE * (1023 + 1023 mod 2)
  /\ WSIZE * 1023 <= extend_bytes 1023 <= WSIZE * 1023 + WSIZE
  /\ extend_bytes 1023 mod DSIZE = 0.
Proof.
  apply (extend_heap_rounds_up 1023). vm_compute. split; [discriminate|reflexivity].
Defined.

Lemma heap_ok_last st l l0 pl :
  heap_ok st l -> prologue :: l = l0 ++ [pl] ->
  (l0 <> [] \/ balloc pl = true)
  /\ mem_brk st = heap_listp st + total l0 + bsize pl.
Proof.
  intros Hok E. split.
  - destruct l0 as [|x l0]; [right|left; discriminate].
    simpl in E. injection E as <- _. reflexivity.
  - rewrite (ok_brk _ _ Hok), E, total_app. simpl. lia.
Qed.

(** X7.  For a count of 1 to 2^29 - 2 words, on a well-formed heap whose
    last block is [pl], whose cursor is on a block and which has no two
    free blocks adjacent, [extend_heap] returns null and changes nothing
    when the rounded byte count does not fit below the hard limit.
    Otherwise it moves the break up by that count, appends a free block of
    that size with a fresh epilogue, merges it with [pl] when [pl] is
    free, and returns the resulting free block; the heap stays well
    formed, its cursor on a block, no two free blocks adjacent, and every
    allocated block in place.  Nothing is said of a count of 0 words or of
    2^29 - 1 words and more. *)
Theorem extend_heap_appends words st l l0 pl :
  let size := extend_bytes words in
  let r := extend_heap words st in
  heap_ok st l -> prologue :: l = l0 ++ [pl] ->
  boundary st (prologue :: l) (next_fit st) ->
  no_adj_free (prologue :: l) ->
  0 < words < 2 ^ 29 - 1 ->
  if mem_max_addr st <? mem_brk st + size
  then r = (NULL, st)
  else exists l',
      prologue :: l' = merged l0 pl (mkblock size false) []
      /\ heap_ok (snd r) l'
      /\ fst r = (if balloc pl then mem_brk st else mem_brk st - bsize pl)
      /\ mem_brk (snd r) = mem_brk st + size
      /\ boundary st (prologue :: l') (next_fit (snd r))
      /\ no_adj_free (prologue :: l')
      /\ (forall q, allocated_at st (prologue :: l) q ->
                    allocated_at st (prologue :: l') q).
Proof.
  intros size r Hok Hlast Hbd Hnaf Hw.
  change (2 ^ 29) with 536870912 in Hw.
  destruct (extend_bytes_rounded words) as (Ev & Hle & Hm8);
    [change (2 ^ 30) with 1073741824; lia|].
  fold size in Ev, Hle, Hm8. unfold WSIZE, DSIZE in *.
  pose proof (Z.mod_pos_bound words 2 ltac:(lia)) as Hm.
  pose proof (Z.div_mod words 2 ltac:(lia)) as Hd.
  assert (Hsz : 8 <= size < 2 ^ 31) by (change (2 ^ 31) with 2147483648; lia).
  destruct (Z.ltb_spec (mem_max_addr st) (mem_brk st + size)) as [Hf|Hf].
  - apply extend_heap_fail; fold size; lia.
  - destruct (extend_heap_grow words st l Hok) as [E Hokx]; fold size;
      try assumption; unfold DSIZE; try lia.
    fold size in E, Hokx. unfold r. rewrite E.
    set (stx := extended size st) in *.
    set (new := mkblock size false).
    destruct (heap_ok_last _ _ _ _ Hok Hlast) as [Hfirst Hbrk].
    assert (Ex : prologue :: l ++ [new] = l0 ++ pl :: new :: []).
    { change (prologue :: l ++ [new]) with ((prologue :: l) ++ [new]).
      rewrite Hlast, <- app_assoc. reflexivity. }
    destruct (coalesce_heap stx (l ++ [new]) l0 pl new [] (mem_brk st) Hokx Ex)
      as (l' & E' & Hok' & Hhl' & Hfst & Hbd' & Hal'); try reflexivity;
      try assumption.
    exists l'. split; [exact E'|]. split; [exact Hok'|]. split; [exact Hfst|].
    split; [destruct (coalesce_globals (mem_brk st) stx) as (_ & -> & _); reflexivity|].
    split.
    { apply (boundary_same_start stx); [reflexivity|]. apply Hbd'.
      change (prologue :: l ++ [new]) with ((prologue :: l) ++ [new]).
      apply boundary_app_r. apply (boundary_same_start st); [reflexivity|exact Hbd]. }
    split.
    { rewrite E'. apply merged_no_adj_free; [rewrite <- Hlast; exact Hnaf|exact I]. }
    intros q Hq. apply (allocated_same_start stx); [reflexivity|]. apply Hal'.
    change (prologue :: l ++ [new]) with ((prologue :: l) ++ [new]).
    apply allocated_app_r. apply (allocated_same_start st); [reflexivity|exact Hq].
Qed.

Lemma extend_heap_appends_witness :
  exists l',
    prologue :: l' =
    merged [prologue; mkblock 112 true] (mkblock 3984 false)
      (mkblock (extend_bytes 1024) false) []
    /\ heap_ok (snd (extend_heap 1024 heap_one)) l'
    /\ fst (extend_heap 1024 heap_one) = mem_brk heap_one - 3984
    /\ mem_brk (snd (extend_heap 1024 heap_one)) = mem_brk heap_one + extend_bytes 1024
    /\ boundary heap_one (prologue :: l') (next_fit (snd (extend_heap 1024 heap_one)))
    /\ no_adj_free (prologue :: l')
    /\ (forall q,
          allocated_at heap_one [prologue; mkblock 112 true; mkblock 3984 false] q ->
          allocated_at heap_one (prologue :: l') q).
Proof.
  apply (extend_heap_appends 1024 heap_one _ [prologue; mkblock 112 true]
           (mkblock 3984 false) heap_one_ok).
  - reflexivity.
  - exists [prologue], [mkblock 112 true; mkblock 3984 false].
    split; vm_compute; reflexivity.
  - simpl. auto.
  - vm_compute. split; reflexivity.
Defined.

(** ** What a merge leaves alone *)

Lemma same_off_refl lo hi m : same_off lo hi m m.
Proof. intros a _. reflexivity. Qed.

Lemma same_off_wider lo hi lo' hi' m m' :
  same_off lo hi m m' -> lo' <= lo -> hi <= hi' -> same_off lo' hi' m m'.
Proof. intros H H1 H2 a Ha. apply H. lia. Qed.

Lemma block_ok_8 b : block_ok b -> 8 <= bsize b < 2 ^ 32 /\ bsize b mod 8 = 0.
Proof. unfold block_ok, DSIZE. auto. Qed.

Lemma heap_blocks_ok st l l1 p b l2 :
  heap_ok st l -> prologue :: l = l1 ++ p :: b :: l2 ->
  Forall block_ok l1 /\ block_ok p /\ block_ok b /\ Forall block_ok l2.
Proof.
  intros Hok E. pose proof (heap_ok_blocks_ok _ _ Hok) as H. rewrite E in H.
  apply Forall_app in H. destruct H as [H1 H].
  split; [exact H1|]. split; [exact (Forall_inv H)|].
  apply Forall_inv_tail in H. split; [exact (Forall_inv H)|exact (Forall_inv_tail H)].
Qed.

Lemma succ_size_ok l2 :
  Forall block_ok l2 -> succ_alloc l2 = false -> 8 <= succ_size l2.
Proof.
  intros H Hs. destruct l2 as [|n l2]; [discriminate|].
  simpl. destruct (block_ok_8 n (Forall_inv H)). lia.
Qed.

Lemma coalesce_frame st l l1 p b l2 bp :
  heap_ok st l ->
  prologue :: l = l1 ++ p :: b :: l2 ->
  bp = heap_listp st + total l1 + bsize p ->
  same_off (merged_start p bp - 4) (merged_start p bp + merged_size p b l2 - 4)
    (mem st) (mem (snd (coalesce bp st))).
Proof.
  intros Hok E Hbp.
  destruct (heap_blocks_ok _ _ _ _ _ _ Hok E) as (_ & Hp & Hb & Hl2).
  destruct (block_ok_8 p Hp) as [Hp8 _]. destruct (block_ok_8 b Hb) as [Hb8 _].
  rewrite (coalesce_cases st l l1 p b l2 bp Hok E Hbp).
  unfold merged_start, merged_size.
  destruct (balloc p) eqn:Ap; destruct (succ_alloc l2) eqn:As; cbn [snd];
    rewrite ?mem_relocate; cbn [mem set_mem].
  - apply same_off_refl.
  - pose proof (succ_size_ok l2 Hl2 As).
    apply same_off_retag; lia.
  - unfold HDRP, WSIZE, DSIZE.
    eapply same_off_trans; [|apply same_off_PUT; lia].
    apply same_off_PUT; lia.
  - pose proof (succ_size_ok l2 Hl2 As).
    apply same_off_retag; lia.
Qed.

Lemma merged_block l1 p b l2 :
  balloc b = false ->
  exists X M Y,
    merged l1 p b l2 = X ++ M :: Y /\ balloc M = false
    /\ total X = total l1 + (if balloc p then bsize p else 0)
    /\ bsize M = merged_size p b l2.
Proof.
  intros Hb. unfold merged, merge_next, merged_size.
  destruct (balloc p) eqn:Ap.
  - destruct l2 as [|n l2]; cbn [succ_alloc succ_size].
    + exists (l1 ++ [p]), b, []. rewrite <- app_assoc, total_app. simpl.
      repeat split; try assumption; lia.
    + destruct (balloc n) eqn:An.
      * exists (l1 ++ [p]), b, (n :: l2). rewrite <- app_assoc, total_app. simpl.
        repeat split; try assumption; lia.
      * exists (l1 ++ [p]), (mkblock (bsize b + bsize n) false), l2.
        rewrite <- app_assoc, total_app. simpl. repeat split; lia.
  - destruct l2 as [|n l2]; cbn [succ_alloc succ_size].
    + exists l1, (mkblock (bsize p + bsize b) false), []. simpl. repeat split; lia.
    + destruct (balloc n) eqn:An.
      * exists l1, (mkblock (bsize p + bsize b) false), (n :: l2). simpl.
        repeat split; lia.
      * exists l1, (mkblock (bsize p + bsize b + bsize n) false), l2. simpl.
        repeat split; lia.
Qed.

(** ** Coalescing and placement on the block sequence *)

(** X8.  [coalesce] on a free block [b] of a well-formed heap leaves a
    well-formed heap whose sequence is the old one with [b] merged into
    its free neighbours, and returns the merged block.  The cursor, moved
    when it stood inside the merged block, is again on a block; where [b]
    was the only block with a free neighbour, no two free blocks are
    adjacent afterwards; allocated blocks stay in place, and no byte
    outside the merged block changes. *)
Theorem coalesce_keeps_heap st l l1 p b l2 bp :
  let r := coalesce bp st in
  heap_ok st l ->
  prologue :: l = l1 ++ p :: b :: l2 ->
  bp = heap_listp st + total l1 + bsize p ->
  balloc b = false ->
  boundary st (prologue :: l) (next_fit st) ->
  no_adj_free (l1 ++ [p]) -> no_adj_free l2 ->
  exists l',
    prologue :: l' = merged l1 p b l2
    /\ heap_ok (snd r) l'
    /\ fst r = merged_start p bp
    /\ boundary st (prologue :: l') (next_fit (snd r))
    /\ no_adj_free (prologue :: l')
    /\ (forall q, allocated_at st (prologue :: l) q ->
                  allocated_at st (prologue :: l') q)
    /\ same_off (fst r - WSIZE) (fst r + merged_size p b l2 - WSIZE)
         (mem st) (mem (snd r)).
Proof.
  intros r Hok E Hbp Hb Hbd Hn1 Hn2.
  assert (Hfirst : l1 <> [] \/ balloc p = true).
  { destruct l1 as [|x l1]; [right|left; discriminate].
    simpl in E. injection E as <- _. reflexivity. }
  destruct (coalesce_heap st l l1 p b l2 bp Hok E Hbp Hb Hfirst)
    as (l' & E' & Hok' & _ & Hfst & Hbd' & Hal').
  exists l'. fold r in Hok', Hfst, Hbd'.
  split; [exact E'|]. split; [exact Hok'|]. split; [exact Hfst|].
  split; [exact (Hbd' Hbd)|].
  split; [rewrite E'; apply merged_no_adj_free; assumption|].
  split; [exact Hal'|].
  rewrite Hfst. apply (coalesce_frame st l l1 p b l2 bp Hok E Hbp).
Qed.

Lemma heap_marked_ok :
  heap_ok heap_marked [mkblock 16 false; mkblock 16 false; mkblock 4064 false].
Proof. heap_by_computation. Qed.

Lemma coalesce_keeps_heap_witness :
  exists l',
    prologue :: l' =
    merged [prologue] (mkblock 16 false) (mkblock 16 false) [mkblock 4064 false]
    /\ heap_ok (snd (coalesce 1032 heap_marked)) l'
    /\ fst (coalesce 1032 heap_marked) = 1016
    /\ boundary heap_marked (prologue :: l')
         (next_fit (snd (coalesce 1032 heap_marked)))
    /\ no_adj_free (prologue :: l')
    /\ (forall q,
          allocated_at heap_marked
            [prologue; mkblock 16 false; mkblock 16 false; mkblock 4064 false] q ->
          allocated_at heap_marked (prologue :: l') q)
    /\ same_off (fst (coalesce 1032 heap_marked) - WSIZE)
         (fst (coalesce 1032 heap_marked) + 4096 - WSIZE)
         (mem heap_marked) (mem (snd (coalesce 1032 heap_marked))).
Proof.
  apply (coalesce_keeps_heap heap_marked _ [prologue] (mkblock 16 false)
           (mkblock 16 false) [mkblock 4064 false] 1032 heap_marked_ok).
  - reflexivity.
  - vm_compute. reflexivity.
  - reflexivity.
  - exists [prologue; mkblock 16 false; mkblock 16 false], [mkblock 4064 false].
    split; vm_compute; reflexivity.
  - simpl. auto.
  - simpl. auto.
Defined.

(** X9.  [place] of [asize] bytes, [asize] a multiple of 8 that is
    greater than 0 and at most the size of the block, in a free block [f]
    of a well-formed heap with its cursor on a block and no two free
    blocks adjacent, leaves a well-formed heap whose sequence has [f]
    replaced by the allocated block, followed by the free remainder when
    it split.  The cursor is on a block, no two free blocks are adjacent,
    the blocks allocated before stay allocated, and the block placed is
    one of them now.  Nothing is said of [asize] 0. *)
Theorem place_keeps_heap st l X f Y r asize :
  let st' := place r asize st in
  heap_ok st l -> prologue :: l = X ++ f :: Y ->
  r = heap_listp st + total X -> balloc f = false ->
  asize mod 8 = 0 -> 0 < asize <= bsize f ->
  boundary st (prologue :: l) (next_fit st) ->
  no_adj_free (prologue :: l) ->
  exists l',
    prologue :: l' = X ++ split_block asize f ++ Y
    /\ heap_ok st' l'
    /\ boundary st (prologue :: l') (next_fit st')
    /\ no_adj_free (prologue :: l')
    /\ (forall q, allocated_at st (prologue :: l) q ->
                  allocated_at st (prologue :: l') q)
    /\ allocated_at st (prologue :: l') r.
Proof.
  intros st' Hok E Hr Hf Hm Ha Hbd Hnaf.
  destruct (place_heap st l X f Y r asize Hok E Hr Hf Hm Ha Hbd)
    as (l' & E' & Hok' & _ & Hbd' & Hal' & Hr').
  exists l'. split; [exact E'|]. split; [exact Hok'|]. split; [exact Hbd'|].
  split; [|split; assumption].
  rewrite E'. apply split_no_adj_free; [exact Hf|rewrite <- E; exact Hnaf].
Qed.

Lemma place_keeps_heap_witness :
  exists l',
    prologue :: l' =
    [prologue; mkblock 16 false; mkblock 16 true]
    ++ split_block 24 (mkblock 4064 false) ++ []
    /\ heap_ok (place 1048 24 heap_holes) l'
    /\ boundary heap_holes (prologue :: l') (next_fit (place 1048 24 heap_holes))
    /\ no_adj_free (prologue :: l')
    /\ (forall q,
          allocated_at heap_holes
            [prologue; mkblock 16 false; mkblock 16 true; mkblock 4064 false] q ->
          allocated_at heap_holes (prologue :: l') q)
    /\ allocated_at heap_holes (prologue :: l') 1048.
Proof.
  apply (place_keeps_heap heap_holes _ [prologue; mkblock 16 false; mkblock 16 true]
           (mkblock 4064 false) [] 1048 24 heap_holes_ok).
  - reflexivity.
  - vm_compute. reflexivity.
  - reflexivity.
  - reflexivity.
  - vm_compute. split; [reflexivity|discriminate].
  - exists [prologue; mkblock 16 false; mkblock 16 true], [mkblock 4064 false].
    split; vm_compute; reflexivity.
  - simpl. repeat split; auto.
Defined.

(** ** Freeing a block *)

Lemma merged_size_bounds p b l2 :
  block_ok p -> Forall block_ok l2 ->
  bsize b <= merged_size p b l2
  /\ merged_size p b l2 <= bsize p + bsize b + succ_size l2.
Proof.
  intros Hp Hl2. unfold merged_size. destruct (block_ok_8 p Hp) as [Hp8 _].
  assert (0 <= succ_size l2).
  { destruct l2 as [|n l2]; simpl; [lia|].
    destruct (block_ok_8 n (Forall_inv Hl2)). lia. }
  destruct (balloc p), (succ_alloc l2); lia.
Qed.

Lemma mm_free_shape st l l0 p b lb ptr :
  let f := mkblock (bsize b) false in
  heap_ok st l -> prologue :: l = l0 ++ p :: b :: lb ->
  ptr = heap_listp st + total l0 + bsize p ->
  exists l',
    prologue :: l' = merged l0 p f lb
    /\ heap_ok (mm_free ptr st) l'
    /\ heap_listp (mm_free ptr st) = heap_listp st
    /\ (boundary st (prologue :: l) (next_fit st) ->
        boundary st (prologue :: l') (next_fit (mm_free ptr st)))
    /\ (forall q, q <> ptr -> allocated_at st (prologue :: l) q ->
                  allocated_at st (prologue :: l') q)
    /\ same_off (merged_start p ptr - 4)
         (merged_start p ptr + merged_size p f lb - 4)
         (mem st) (mem (mm_free ptr st)).
Proof.
  intros f Hok E Hptr.
  destruct (heap_blocks_ok _ _ _ _ _ _ Hok E) as (Hl0 & Hp & Hb & Hlb).
  destruct (block_ok_8 b Hb) as [Hb8 Hbm]. destruct (block_ok_8 p Hp) as [Hp8 _].
  assert (Ela : prologue :: l = (l0 ++ [p]) ++ b :: lb).
  { rewrite <- app_assoc. exact E. }
  assert (Hla : l0 ++ [p] <> []) by (destruct l0; discriminate).
  assert (Hptr' : ptr = heap_listp st + total (l0 ++ [p])).
  { rewrite total_app. simpl. lia. }
  pose proof (heap_ok_blocks_ok _ _ Hok) as Hbok. rewrite Ela in Hbok.
  destruct (block_in_heap _ _ _ _ _ Hok Ela) as ((_ & Hbh & _) & _).
  rewrite <- Hptr' in Hbh.
  set (st1 := set_mem (retag (mem st) ptr (bsize b) 0) st).
  assert (Est : mm_free ptr st = snd (coalesce ptr st1))
    by (apply mm_free_cases; assumption).
  assert (Hfok : block_ok f) by (destruct Hb; split; assumption).
  assert (Hoff1 : same_off (ptr - 4) (ptr + bsize b - 4) (mem st) (mem st1)).
  { unfold st1. cbn [mem set_mem]. apply same_off_retag; lia. }
  (* the block marked free *)
  destruct (heap_ok_replace st st1 l (l0 ++ [p]) [b] [f] lb Hok Ela Hla)
    as (l1 & E1 & Hok1); try reflexivity.
  { rewrite <- Hptr'. simpl total. rewrite Z.add_0_r. exact Hoff1. }
  { unfold st1. cbn [mem set_mem blocks_at]. rewrite <- Hptr'. split; [|exact I].
    apply (retag_block_at (mem st) ptr (bsize b) false Hfok). }
  assert (E1' : prologue :: l1 = l0 ++ p :: f :: lb).
  { rewrite E1, <- app_assoc. reflexivity. }
  assert (Hfirst : l0 <> [] \/ balloc p = true).
  { destruct l0 as [|x l0]; [right|left; discriminate].
    simpl in E. injection E as <- _. reflexivity. }
  destruct (coalesce_heap st1 l1 l0 p f lb ptr Hok1 E1')
    as (l' & E' & Hok' & Hhl' & _ & Hbd' & Hal'); try reflexivity; try assumption.
  exists l'. rewrite Est.
  split; [exact E'|]. split; [exact Hok'|]. split; [exact Hhl'|].
  split; [|split].
  - intros Hbd. apply Hbd'. rewrite E1. rewrite Ela in Hbd.
    apply (boundary_replace st (l0 ++ [p]) [b]); try assumption; [reflexivity|].
    pose proof (boundary_not_inside st (l0 ++ [p]) b lb _ Hbok Hbd). simpl. lia.
  - intros q Hq Ha. apply Hal'. rewrite E1. rewrite Ela in Ha.
    apply (allocated_replace_but st (l0 ++ [p]) [b]); try assumption; [|reflexivity].
    intros la0 b0 lb0 E0 _.
    destruct la0 as [|? la0]; [|destruct la0; discriminate].
    simpl. lia.
  - destruct (merged_size_bounds p f lb Hp Hlb) as [Hlo _]. cbn [f bsize] in Hlo.
    assert (Hst : merged_start p ptr <= ptr).
    { unfold merged_start. destruct (balloc p); lia. }
    assert (Hen : ptr + bsize b <= merged_start p ptr + merged_size p f lb).
    { unfold merged_start, merged_size. cbn [f bsize].
      assert (0 <= succ_size lb).
      { destruct lb as [|n lb]; simpl; [lia|].
        destruct (block_ok_8 n (Forall_inv Hlb)). lia. }
      destruct (balloc p), (succ_alloc lb); lia. }
    eapply same_off_trans.
    + apply (same_off_wider _ _ _ _ _ _ Hoff1); lia.
    + apply (coalesce_frame st1 l1 l0 p f lb ptr Hok1 E1'). exact Hptr.
Qed.

Lemma merged_start_block st l0 p f lb ptr l' :
  prologue :: l' = merged l0 p f lb -> balloc f = false ->
  ptr = heap_listp st + total l0 + bsize p ->
  exists X M Y,
    prologue :: l' = X ++ M :: Y /\ balloc M = false
    /\ merged_start p ptr = heap_listp st + total X
    /\ bsize M = merged_size p f lb.
Proof.
  intros E Hf Hptr.
  destruct (merged_block l0 p f lb Hf) as (X & M & Y & EM & HM & HX & HS).
  exists X, M, Y. rewrite E. split; [exact EM|]. split; [exact HM|].
  split; [|exact HS].
  unfold merged_start. rewrite HX. destruct (balloc p); lia.
Qed.

(** X10.  [mm_free] on a block [b] of a well-formed heap without two free
    neighbours marks [b] free and merges it with the free blocks next to
    it: the heap stays well formed with that sequence, the cursor on a
    block, no two free blocks adjacent, every other allocated block still
    allocated, and no allocated block at [ptr] any more. *)
Theorem mm_free_merges st l l0 p b lb ptr :
  let st' := mm_free ptr st in
  heap_ok st l -> prologue :: l = l0 ++ p :: b :: lb ->
  ptr = heap_listp st + total l0 + bsize p ->
  boundary st (prologue :: l) (next_fit st) ->
  no_adj_free (prologue :: l) ->
  exists l',
    prologue :: l' = merged l0 p (mkblock (bsize b) false) lb
    /\ heap_ok st' l'
    /\ boundary st (prologue :: l') (next_fit st')
    /\ no_adj_free (prologue :: l')
    /\ (forall q, q <> ptr -> allocated_at st (prologue :: l) q ->
                  allocated_at st (prologue :: l') q)
    /\ ~ allocated_at st (prologue :: l') ptr.
Proof.
  intros st' Hok E Hptr Hbd Hnaf.
  destruct (mm_free_shape st l l0 p b lb ptr Hok E Hptr)
    as (l' & E' & Hok' & Hhl' & Hbd' & Hal' & _).
  fold st' in Hok', Hhl', Hbd'.
  exists l'. split; [exact E'|]. split; [exact Hok'|]. split; [exact (Hbd' Hbd)|].
  split; [|split; [exact Hal'|]].
  - rewrite E'. rewrite E in Hnaf.
    replace (l0 ++ p :: b :: lb) with ((l0 ++ [p]) ++ b :: lb) in Hnaf
      by (rewrite <- app_assoc; reflexivity).
    apply no_adj_free_app in Hnaf. destruct Hnaf as (H1 & H2 & _).
    apply merged_no_adj_free; [exact H1|]. simpl in H2. apply H2.
  - intros (la & b' & lb' & Ea & _ & Hq & Hb').
    destruct (heap_blocks_ok _ _ _ _ _ _ Hok E) as (_ & Hp & Hb & Hlb).
    destruct (block_ok_8 b Hb) as [Hb8 _]. destruct (block_ok_8 p Hp) as [Hp8 _].
    destruct (merged_start_block st l0 p (mkblock (bsize b) false) lb ptr l' E'
                eq_refl Hptr) as (X & M & Y & EM & HM & HX & HS).
    pose proof (heap_ok_blocks_ok _ _ Hok') as Hbok'. rewrite EM in Hbok'.
    assert (Hbdq : boundary st (X ++ M :: Y) ptr).
    { exists la, (b' :: lb'). rewrite <- EM. split; assumption. }
    pose proof (boundary_not_inside st X M Y ptr Hbok' Hbdq) as Hout.
    destruct (merged_size_bounds p (mkblock (bsize b) false) lb Hp Hlb) as [Hlo _].
    cbn [bsize] in Hlo.
    assert (Hst : merged_start p ptr <= ptr
                  /\ ptr + bsize b <= merged_start p ptr
                                      + merged_size p (mkblock (bsize b) false) lb).
    { unfold merged_start, merged_size. cbn [bsize].
      assert (0 <= succ_size lb).
      { destruct lb as [|n lb0]; simpl; [lia|].
        destruct (block_ok_8 n (Forall_inv Hlb)). lia. }
      destruct (balloc p), (succ_alloc lb); lia. }
    assert (Et : total la = total X) by lia.
    rewrite EM in Ea.
    pose proof (block_unique X M Y la b' lb' Hbok' Ea Et) as EMb.
    congruence.
Qed.

Lemma mm_free_merges_witness :
  exists l',
    prologue :: l' =
    merged [prologue] (mkblock 16 false) (mkblock 16 false) [mkblock 4064 false]
    /\ heap_ok (mm_free 1032 heap_holes) l'
    /\ boundary heap_holes (prologue :: l') (next_fit (mm_free 1032 heap_holes))
    /\ no_adj_free (prologue :: l')
    /\ (forall q, q <> 1032 ->
          allocated_at heap_holes
            [prologue; mkblock 16 false; mkblock 16 true; mkblock 4064 false] q ->
          allocated_at heap_holes (prologue :: l') q)
    /\ ~ allocated_at heap_holes (prologue :: l') 1032.
Proof.
  apply (mm_free_merges heap_holes _ [prologue] (mkblock 16 false)
           (mkblock 16 true) [mkblock 4064 false] 1032 heap_holes_ok).
  - reflexivity.
  - vm_compute. reflexivity.
  - exists [prologue; mkblock 16 false; mkblock 16 true], [mkblock 4064 false].
    split; vm_compute; reflexivity.
  - simpl. repeat split; auto.
Defined.

Lemma other_block_outside l0 p b lb la c lc :
  Forall block_ok (l0 ++ p :: b :: lb) ->
  l0 ++ p :: b :: lb = la ++ c :: lc -> balloc c = true ->
  total la <> total l0 + bsize p ->
  total la + bsize c <= total l0 + (if balloc p then bsize p else 0)
  \/ total l0 + bsize p + merged_size p b lb - (if balloc p then 0 else bsize p)
     <= total la.
Proof.
  intros Hok E Hc Hne.
  assert (Hall := Hok).
  apply Forall_app in Hok. destruct Hok as [Hl0 Hok].
  pose proof (Forall_inv Hok) as Hp. apply Forall_inv_tail in Hok.
  pose proof (Forall_inv Hok) as Hb. apply Forall_inv_tail in Hok.
  destruct (block_ok_8 p Hp) as [Hp8 _]. destruct (block_ok_8 b Hb) as [Hb8 _].
  pose proof (total_nonneg _ Hl0) as Hn0.
  assert (E' : la ++ c :: lc = (l0 ++ [p]) ++ b :: lb).
  { rewrite <- app_assoc. symmetry. exact E. }
  destruct (split_compare _ _ _ _ _ _ E') as [(Ea & _ & _)|[[mid Em]|[mid Em]]].
  - exfalso. apply Hne. rewrite Ea, total_app. simpl. lia.
  - left. destruct mid as [|y mid].
    + apply app_inj_tail in Em. destruct Em as [-> ->]. rewrite Hc. lia.
    + destruct (list_last_split y mid) as (mid' & z & Ez). rewrite Ez in Em.
      replace (la ++ c :: mid' ++ [z]) with ((la ++ c :: mid') ++ [z]) in Em
        by (rewrite <- app_assoc; reflexivity).
      apply app_inj_tail in Em. destruct Em as [-> _].
      rewrite total_app. simpl.
      assert (0 <= total mid').
      { apply Forall_app in Hl0. destruct Hl0 as [_ H].
        apply Forall_inv_tail in H. apply total_nonneg. exact H. }
      destruct (balloc p); lia.
  - right. rewrite Em in E'. rewrite <- !app_assoc in E'.
    apply app_inv_head in E'. simpl in E'. injection E' as E'.
    rewrite Em, !total_app. simpl. unfold merged_size.
    assert (Hmid : Forall block_ok (mid ++ c :: lc)) by (rewrite E'; exact Hok).
    apply Forall_app in Hmid. destruct Hmid as [Hmid _].
    pose proof (total_nonneg _ Hmid) as Hnm.
    destruct (succ_alloc lb) eqn:As.
    + destruct (balloc p); lia.
    + destruct lb as [|n lb']; [discriminate|]. simpl in As. simpl succ_size.
      destruct mid as [|n' mid'].
      * simpl in E'. injection E' as <- _. congruence.
      * simpl in E'. injection E' as <- _. simpl.
        pose proof (total_nonneg _ (Forall_inv_tail Hmid)).
        destruct (balloc p); lia.
Qed.

Lemma mm_free_frame st l l0 p b lb ptr la c lc :
  let q := heap_listp st + total la in
  heap_ok st l -> prologue :: l = l0 ++ p :: b :: lb ->
  ptr = heap_listp st + total l0 + bsize p ->
  prologue :: l = la ++ c :: lc -> balloc c = true -> q <> ptr ->
  same_on (q - WSIZE) (q + bsize c - WSIZE) (mem st) (mem (mm_free ptr st)).
Proof.
  intros q Hok E Hptr Ec Hc Hq.
  destruct (mm_free_shape st l l0 p b lb ptr Hok E Hptr)
    as (l' & _ & _ & _ & _ & _ & Hoff).
  pose proof (heap_ok_blocks_ok _ _ Hok) as Hbok. rewrite E in Hbok.
  rewrite E in Ec.
  assert (Hne : total la <> total l0 + bsize p) by (unfold q in Hq; lia).
  pose proof (other_block_outside l0 p b lb la c lc Hbok Ec Hc Hne) as Hout.
  apply (same_off_on _ _ _ _ _ _ Hoff).
  unfold merged_start, merged_size in *. cbn [bsize] in *. unfold q, WSIZE.
  destruct (balloc p), (succ_alloc lb); lia.
Qed.

(** X11.  [mm_free] of the block at [ptr] changes no byte of any other
    allocated block of a well-formed heap: header, payload and footer of
    the block [c] read the same afterwards. *)
Theorem mm_free_keeps_others st l l0 p b lb ptr la c lc :
  let q := heap_listp st + total la in
  heap_ok st l -> prologue :: l = l0 ++ p :: b :: lb ->
  ptr = heap_listp st + total l0 + bsize p ->
  prologue :: l = la ++ c :: lc -> balloc c = true -> q <> ptr ->
  same_on (q - WSIZE) (q + bsize c - WSIZE) (mem st) (mem (mm_free ptr st)).
Proof. apply mm_free_frame. Qed.

Lemma heap_two_ok :
  heap_ok heap_two [mkblock 112 true; mkblock 16 true; mkblock 3968 false].
Proof. heap_by_computation. Qed.

Lemma heap_two_cursor :
  cursor_at heap_two [mkblock 112 true; mkblock 16 true; mkblock 3968 false]
    [prologue; mkblock 112 true] [mkblock 16 true; mkblock 3968 false].
Proof. split; vm_compute; reflexivity. Qed.

Lemma mm_free_keeps_others_witness :
  same_on (1128 - WSIZE) (1128 + 16 - WSIZE)
    (mem heap_two) (mem (mm_free 1016 heap_two)).
Proof.
  apply (mm_free_keeps_others heap_two _ [] prologue (mkblock 112 true)
           [mkblock 16 true; mkblock 3968 false] 1016
           [prologue; mkblock 112 true] (mkblock 16 true) [mkblock 3968 false]
           heap_two_ok).
  - reflexivity.
  - vm_compute. reflexivity.
  - reflexivity.
  - reflexivity.
  - vm_compute. discriminate.
Defined.

(** ** Allocation *)

(** X12.  On a well-formed heap without two free neighbours, a request of
    1 to [SANE_MAX] bytes returns, with enough fuel for one pass over the
    blocks, and leaves a well-formed heap with the cursor on a block and
    no two free blocks adjacent.  Every block allocated before is still
    allocated and differs from the block returned; a block returned is an
    allocated block of the new sequence with room for the payload and the
    two tags. *)
Theorem mm_malloc_allocates fuel size st l :
  heap_ok st l ->
  boundary st (prologue :: l) (next_fit st) ->
  no_adj_free (prologue :: l) ->
  (length l + 1 < fuel)%nat ->
  0 < size <= SANE_MAX ->
  exists r st' l',
    mm_malloc fuel size st = Some (r, st')
    /\ heap_ok st' l'
    /\ heap_listp st' = heap_listp st
    /\ boundary st (prologue :: l') (next_fit st')
    /\ no_adj_free (prologue :: l')
    /\ (forall q, allocated_at st (prologue :: l) q ->
                  allocated_at st (prologue :: l') q /\ q <> r)
    /\ (r <> NULL ->
        exists la b lb,
          prologue :: l' = la ++ b :: lb /\ la <> []
          /\ r = heap_listp st + total la
          /\ balloc b = true /\ size + 2 * WSIZE <= bsize b).
Proof.
  intros Hok Hbd Hnaf Hfuel Hsize. unfold SANE_MAX in Hsize.
  destruct (mm_malloc_block fuel size st l Hok Hbd Hnaf Hfuel Hsize)
    as (r & st' & l' & H1 & H2 & H3 & H4 & H5 & H6 & H7).
  exists r, st', l'. repeat (split; [assumption|]).
  intros Hr. destruct (H7 Hr) as (la & b & lb & E & Hla & Hp & Hb & Hs).
  exists la, b, lb. repeat (split; [assumption|]).
  assert (2 ^ 31 < 2 ^ 32) by reflexivity.
  destruct (adjust_size_least size ltac:(lia)) as (_ & Hle & _). lia.
Qed.

Lemma mm_malloc_allocates_witness :
  exists r st' l',
    mm_malloc 4 100 heap_init = Some (r, st')
    /\ heap_ok st' l'
    /\ heap_listp st' = heap_listp heap_init
    /\ boundary heap_init (prologue :: l') (next_fit st')
    /\ no_adj_free (prologue :: l')
    /\ (forall q, allocated_at heap_init [prologue; mkblock 4096 false] q ->
                  allocated_at heap_init (prologue :: l') q /\ q <> r)
    /\ (r <> NULL ->
        exists la b lb,
          prologue :: l' = la ++ b :: lb /\ la <> []
          /\ r = heap_listp heap_init + total la
          /\ balloc b = true /\ 100 + 2 * WSIZE <= bsize b).
Proof.
  apply (mm_malloc_allocates 4 100 heap_init _ heap_init_ok).
  - exists [], [prologue; mkblock 4096 false]. split; vm_compute; reflexivity.
  - simpl. auto.
  - simpl. lia.
  - vm_compute. split; [reflexivity|discriminate].
Defined.

Lemma boundary_cursor st l :
  boundary st (prologue :: l) (next_fit st) ->
  exists l1 l2, cursor_at st l l1 l2.
Proof. intros (c1 & c2 & H1 & H2). exists c1, c2. split; assumption. Qed.

Lemma mm_malloc_null_state fuel size st l st' :
  heap_ok st l ->
  boundary st (prologue :: l) (next_fit st) ->
  (length l + 1 < fuel)%nat ->
  0 <= size < 2 ^ 32 ->
  mm_malloc fuel size st = Some (NULL, st') -> st' = st.
Proof.
  intros Hok Hbd Hfuel Hsize Hmal.
  destruct (boundary_cursor _ _ Hbd) as (l1 & l2 & Hcur).
  destruct (Z.eq_dec size 0) as [->|Hnz].
  { unfold mm_malloc in Hmal. simpl in Hmal. congruence. }
  rewrite (mm_malloc_cases fuel size st l l1 l2) in Hmal by (assumption || lia).
  destruct (adjust_size_range size Hsize) as [Har Ham].
  pose proof (ok_base _ _ Hok) as Hbase. unfold DSIZE, NULL in *.
  destruct (next_fit_search (adjust_size size) (heap_listp st) l1 l2) as [r|] eqn:Es.
  - destruct (search_block _ _ _ _ _ _ Hok Hcur Es)
      as (_ & _ & _ & _ & _ & _ & _ & _ & Hlt).
    injection Hmal as E1 E2. lia.
  - destruct (Z.ltb_spec (mem_max_addr st) (mem_brk st + extend_size (adjust_size size))).
    + injection Hmal as E. congruence.
    + pose proof (grown_nonnull _ _ _ Hok Har Ham ltac:(lia)).
      injection Hmal as E1 E2. lia.
Qed.

(** X13.  A call of [mm_malloc] that returns null on a well-formed heap,
    whatever the size asked for, leaves the heap as it was: memory, break
    and cursor. *)
Theorem mm_malloc_null_unchanged fuel size st l st' :
  heap_ok st l ->
  boundary st (prologue :: l) (next_fit st) ->
  (length l + 1 < fuel)%nat ->
  0 <= size < 2 ^ 32 ->
  mm_malloc fuel size st = Some (NULL, st') -> st' = st.
Proof. apply mm_malloc_null_state. Qed.

Lemma heap_full_ok : heap_ok heap_full [mkblock 4096 false].
Proof. heap_by_computation. Qed.

Lemma mm_malloc_null_unchanged_witness :
  snd (run_malloc 5000 heap_full) = heap_full.
Proof.
  apply (mm_malloc_null_unchanged 8 5000 heap_full _ _ heap_full_ok).
  - exists [], [prologue; mkblock 4096 false]. split; vm_compute; reflexivity.
  - simpl. lia.
  - vm_compute. split; [discriminate|reflexivity].
  - rewrite run_malloc_eq by (vm_compute; discriminate).
    replace (fst (run_malloc 5000 heap_full)) with NULL by (vm_compute; reflexivity).
    reflexivity.
Defined.

Lemma inner_nonneg (x : list block) a mid y :
  Forall block_ok (x ++ a :: mid ++ y) -> 0 <= total mid.
Proof.
  intros H. apply Forall_app in H. destruct H as [_ H].
  apply Forall_inv_tail in H. apply Forall_app in H. destruct H as [H _].
  apply total_nonneg. exact H.
Qed.

Lemma mm_malloc_frame fuel size st l la b lb r st' :
  let ptr := heap_listp st + total la in
  heap_ok st l ->
  boundary st (prologue :: l) (next_fit st) ->
  (length l + 1 < fuel)%nat ->
  0 <= size < 2 ^ 32 ->
  prologue :: l = la ++ b :: lb -> balloc b = true ->
  mm_malloc fuel size st = Some (r, st') ->
  same_on (ptr - 4) (ptr + bsize b - 8) (mem st) (mem st').
Proof.
  intros ptr Hok Hbd Hfuel Hsize Eb Hb Hmal.
  destruct (boundary_cursor _ _ Hbd) as (l1 & l2 & Hcur).
  destruct (Z.eq_dec size 0) as [->|Hnz].
  { unfold mm_malloc in Hmal. simpl in Hmal. injection Hmal as _ <-. apply same_on_refl. }
  rewrite (mm_malloc_cases fuel size st l l1 l2) in Hmal by (assumption || lia).
  destruct (adjust_size_range size ltac:(lia)) as [Har Ham].
  set (asize := adjust_size size) in *.
  destruct (block_in_heap _ _ _ _ _ Hok Eb) as (Hbat & Hla & Hlb & Hext).
  fold ptr in Hext.
  assert (Hb8 : 8 <= bsize b) by (destruct Hbat as [[H _] _]; unfold DSIZE in H; lia).
  pose proof (heap_ok_blocks_ok _ _ Hok) as Hbok.
  destruct (next_fit_search asize (heap_listp st) l1 l2) as [r0|] eqn:Es.
  - injection Hmal as <- <-.
    destruct (search_block _ _ _ _ _ _ Hok Hcur Es)
      as (x & f & y & Ef & Hr & Hfa & Hfs & Hfat & _).
    destruct Hfat as (Hfok & Hfh & _).
    rewrite (place_cases _ _ f) by (assumption || lia).
    rewrite mem_advance. cbn [mem set_mem set_next_fit].
    assert (Hf8 : 8 <= bsize f) by (destruct Hfok as [H _]; unfold DSIZE in H; lia).
    apply same_on_placed; [|lia|lia].
    rewrite Ef in Hbok. rewrite Eb in Ef.
    destruct (split_compare _ _ _ _ _ _ Ef) as [(_ & -> & _)|[[mid Em]|[mid Em]]].
    + congruence.
    + left. subst x. rewrite total_app in Hr. simpl in Hr.
      rewrite <- app_assoc in Hbok. simpl in Hbok.
      pose proof (inner_nonneg la b mid (f :: y) Hbok). unfold ptr. lia.
    + right. unfold ptr. rewrite Em, total_app. simpl.
      rewrite <- Ef, Em, <- app_assoc in Hbok. simpl in Hbok.
      pose proof (inner_nonneg x f mid (b :: lb) Hbok). lia.
  - destruct (Z.ltb_spec (mem_max_addr st) (mem_brk st + extend_size asize)) as [Hf|Hf].
    + injection Hmal as _ <-. apply same_on_refl.
    + injection Hmal as _ <-.
      destruct (extend_request asize Har Ham) as (_ & Er & _).
      destruct (list_last_split prologue l) as (l0 & pl & Hlast).
      destruct (grown_cases asize st l l0 pl Hok Hlast Har Ham Hf) as [_ E].
      rewrite E.
      assert (Hsx : same_on (ptr - 4) (ptr + bsize b - 8) (mem st)
                      (mem (extended (extend_size asize) st))).
      { apply same_on_extended; lia. }
      destruct (balloc pl) eqn:Hpl; cbn [fst snd].
      * eapply same_on_trans; [exact Hsx|].
        apply place_same_below. lia.
      * assert (Hlt : ptr + bsize b <= mem_brk st - bsize pl).
        { destruct (heap_ok_last _ _ _ _ Hok Hlast) as [_ Hbrk].
          rewrite Hlast in Hbok. rewrite Eb in Hlast.
          replace (l0 ++ [pl]) with (l0 ++ pl :: []) in Hlast by reflexivity.
          destruct (split_compare _ _ _ _ _ _ Hlast) as [(_ & -> & _)|[[mid Em]|[mid Em]]].
          - congruence.
          - rewrite Em, <- app_assoc in Hbok. simpl in Hbok.
            pose proof (inner_nonneg la b mid [pl] Hbok).
            rewrite Em, total_app in Hbrk. simpl in Hbrk. unfold ptr. lia.
          - rewrite Em, <- app_assoc in Hlast. apply app_inv_head in Hlast.
            injection Hlast as Hlast. destruct mid; discriminate. }
        eapply same_on_trans; [|apply place_same_below; lia].
        rewrite mem_relocate. cbn [mem set_mem].
        eapply same_on_trans; [exact Hsx|].
        unfold HDRP, WSIZE, DSIZE.
        eapply same_on_trans; [|apply same_on_PUT; lia].
        apply same_on_PUT. lia.
Qed.

(** X14.  Whatever size is asked for, [mm_malloc] on a well-formed heap
    changes neither the header nor any payload byte of a block that is
    allocated. *)
Theorem mm_malloc_keeps_payload fuel size st l la b lb r st' :
  let ptr := heap_listp st + total la in
  heap_ok st l ->
  boundary st (prologue :: l) (next_fit st) ->
  (length l + 1 < fuel)%nat ->
  0 <= size < 2 ^ 32 ->
  prologue :: l = la ++ b :: lb -> balloc b = true ->
  mm_malloc fuel size st = Some (r, st') ->
  same_on (ptr - WSIZE) (ptr + bsize b - DSIZE) (mem st) (mem st').
Proof. apply mm_malloc_frame. Qed.

Lemma mm_malloc_keeps_payload_witness :
  same_on (1016 - WSIZE) (1016 + 112 - DSIZE)
    (mem heap_one) (mem (snd (run_malloc 4294967281 heap_one))).
Proof.
  apply (mm_malloc_keeps_payload 8 4294967281 heap_one _ [prologue]
           (mkblock 112 true) [mkblock 3984 false]
           (fst (run_malloc 4294967281 heap_one)) _ heap_one_ok).
  - exists [prologue], [mkblock 112 true; mkblock 3984 false].
    split; vm_compute; reflexivity.
  - simpl. lia.
  - vm_compute. split; [discriminate|reflexivity].
  - reflexivity.
  - reflexivity.
  - apply run_malloc_eq. vm_compute. discriminate.
Defined.

Lemma total_mod8 l : Forall block_ok l -> total l mod 8 = 0.
Proof.
  induction 1 as [|b l Hb _ IH]; [reflexivity|].
  simpl. apply mod8_add; [apply (block_ok_8 b Hb)|exact IH].
Qed.

Lemma boundary_aligned st l c :
  heap_ok st l -> heap_listp st mod 8 = 0 ->
  boundary st (prologue :: l) c -> c mod 8 = 0.
Proof.
  intros Hok Hal (c1 & c2 & E & ->).
  pose proof (heap_ok_blocks_ok _ _ Hok) as Hbok. rewrite E in Hbok.
  apply Forall_app in Hbok. destruct Hbok as [H1 _].
  apply mod8_add; [exact Hal|apply total_mod8; exact H1].
Qed.

(** X15.  On a well-formed heap whose [heap_listp] is a multiple of 8,
    every pointer [mm_malloc] returns is a multiple of 8, whatever the
    size asked for. *)
Theorem mm_malloc_aligned fuel size st l r st' :
  heap_ok st l ->
  boundary st (prologue :: l) (next_fit st) ->
  (length l + 1 < fuel)%nat ->
  0 <= size < 2 ^ 32 ->
  heap_listp st mod 8 = 0 ->
  mm_malloc fuel size st = Some (r, st') ->
  r mod 8 = 0.
Proof.
  intros Hok Hbd Hfuel Hsize Hal Hmal.
  destruct (boundary_cursor _ _ Hbd) as (l1 & l2 & Hcur).
  destruct (Z.eq_dec size 0) as [->|Hnz].
  { unfold mm_malloc in Hmal. simpl in Hmal. injection Hmal as <- _. reflexivity. }
  rewrite (mm_malloc_cases fuel size st l l1 l2) in Hmal by (assumption || lia).
  destruct (adjust_size_range size Hsize) as [Har Ham].
  destruct (next_fit_search (adjust_size size) (heap_listp st) l1 l2) as [r0|] eqn:Es.
  - injection Hmal as <- _.
    destruct (search_block _ _ _ _ _ _ Hok Hcur Es) as (x & f & y & Ef & Hr & _).
    apply (boundary_aligned st l); try assumption.
    exists x, (f :: y). split; assumption.
  - destruct (Z.ltb_spec (mem_max_addr st) (mem_brk st + extend_size (adjust_size size)))
      as [Hf|Hf].
    + injection Hmal as <- _. reflexivity.
    + injection Hmal as <- _.
      destruct (list_last_split prologue l) as (l0 & pl & Hlast).
      destruct (grown_cases (adjust_size size) st l l0 pl Hok Hlast Har Ham Hf) as [_ E].
      rewrite E.
      destruct (heap_ok_last _ _ _ _ Hok Hlast) as [_ Hbrk].
      apply (boundary_aligned st l); try assumption.
      destruct (balloc pl); cbn [fst].
      * exists (l0 ++ [pl]), []. rewrite app_nil_r, total_app. simpl.
        split; [exact Hlast|lia].
      * exists l0, [pl]. split; [exact Hlast|lia].
Qed.

Lemma mm_malloc_aligned_witness : fst (run_malloc 100 heap_one) mod 8 = 0.
Proof.
  apply (mm_malloc_aligned 8 100 heap_one _ _ (snd (run_malloc 100 heap_one))
           heap_one_ok).
  - exists [prologue], [mkblock 112 true; mkblock 3984 false].
    split; vm_compute; reflexivity.
  - simpl. lia.
  - vm_compute. split; [discriminate|reflexivity].
  - reflexivity.
  - apply run_malloc_eq. vm_compute. discriminate.
Defined.

(** ** Reallocation keeps the data *)

(** Writes into the payload of a block leave the heap well formed. *)
Lemma heap_ok_payload_write st l la c lc m' :
  let q := heap_listp st + total la in
  heap_ok st l -> prologue :: l = la ++ c :: lc -> la <> [] ->
  same_off q (q + bsize c - 8) (mem st) m' ->
  heap_ok (set_mem m' st) l.
Proof.
  intros q Hok E Hla Hoff.
  destruct (block_in_heap _ _ _ _ _ Hok E) as ((Hcok & Hh & Hf) & _).
  fold q in Hh, Hf. destruct (block_ok_8 c Hcok) as [Hc8 _].
  destruct (heap_ok_replace st (set_mem m' st) l la [c] [c] lc Hok E Hla)
    as (l' & E' & Hok'); try reflexivity.
  - cbn [mem set_mem]. fold q. simpl total.
    apply (same_off_wider _ _ _ _ _ _ Hoff); lia.
  - cbn [mem set_mem blocks_at]. fold q. split; [|exact I].
    split; [exact Hcok|]. unfold HDRP, WSIZE, DSIZE in *. split.
    + rewrite <- Hh. apply (GET_same_on (q - 4) q); [|lia|lia].
      apply (same_off_on _ _ _ _ _ _ Hoff). lia.
    + rewrite <- Hf.
      apply (GET_same_on (q + bsize c - 8) (q + bsize c - 4)); [|lia|lia].
      apply (same_off_on _ _ _ _ _ _ Hoff). lia.
  - simpl in E'. rewrite <- E in E'. injection E' as ->. exact Hok'.
Qed.

Lemma same_off_memcpy m dst src n : same_off dst (dst + n) m (memcpy m dst src n).
Proof. intros a Ha. apply memcpy_outside. exact Ha. Qed.

(** X16.  For an allocated block [b] at [ptr] of a well-formed heap
    without two free neighbours and a request of 1 to [SANE_MAX] bytes,
    [mm_realloc] either ends the process, the heap as it was, or returns a
    block other than [ptr] that is allocated in a heap that is again well
    formed, and whose first [min(size, bsize b - DSIZE)] bytes are the
    bytes the payload of [b] held before the call; every other allocated
    block stays allocated. *)
Theorem mm_realloc_keeps_data fuel ptr size st l l0 p b lb :
  heap_ok st l ->
  boundary st (prologue :: l) (next_fit st) ->
  no_adj_free (prologue :: l) ->
  (length l + 1 < fuel)%nat ->
  0 < size <= SANE_MAX ->
  prologue :: l = l0 ++ p :: b :: lb -> balloc b = true ->
  ptr = heap_listp st + total l0 + bsize p ->
  mm_realloc fuel ptr size st = Some (Exits 1 st)
  \/ exists newp st' l',
      mm_realloc fuel ptr size st = Some (Returns newp st')
      /\ newp <> NULL /\ newp <> ptr
      /\ heap_ok st' l'
      /\ heap_listp st' = heap_listp st
      /\ boundary st (prologue :: l') (next_fit st')
      /\ no_adj_free (prologue :: l')
      /\ allocated_at st (prologue :: l') newp
      /\ (forall q, q <> ptr -> allocated_at st (prologue :: l) q ->
                    allocated_at st (prologue :: l') q)
      /\ (forall i, 0 <= i < Z.min size (bsize b - DSIZE) ->
                    mem st' (newp + i) = mem st (ptr + i)).
Proof.
  intros Hok Hbd Hnaf Hfuel Hsize E Hb Hptr. unfold SANE_MAX in Hsize.
  assert (H32 : 2 ^ 31 < 2 ^ 32) by reflexivity.
  assert (Ela : prologue :: l = (l0 ++ [p]) ++ b :: lb).
  { rewrite <- app_assoc. exact E. }
  assert (Hptr' : ptr = heap_listp st + total (l0 ++ [p])).
  { rewrite total_app. simpl. lia. }
  assert (Hpa : allocated_at st (prologue :: l) ptr).
  { exists (l0 ++ [p]), b, lb. repeat split; try assumption.
    destruct l0; discriminate. }
  destruct (block_in_heap _ _ _ _ _ Hok Ela) as ((Hbok & Hbh & _) & _).
  rewrite <- Hptr' in Hbh. destruct (block_ok_8 b Hbok) as [Hb8 _].
  destruct (mm_malloc_block fuel size st l Hok Hbd Hnaf Hfuel Hsize)
    as (r & st1 & l1 & Hmal & Hok1 & Hhl1 & Hbd1 & Hnaf1 & Hal1 & Hblk).
  unfold mm_realloc. unfold u32. rewrite (Z.mod_small size) by lia.
  rewrite Hmal.
  destruct (Z.eqb_spec r NULL) as [Hn|Hn].
  { left. subst r.
    rewrite (mm_malloc_null_state fuel size st l st1 Hok Hbd Hfuel ltac:(lia) Hmal).
    reflexivity. }
  right.
  destruct (Hblk Hn) as (la1 & nb & lb1 & E1 & Hla1 & Hr & Hnb & Hcap).
  destruct (adjust_size_least size ltac:(lia)) as (_ & Hle & _). unfold WSIZE in Hle.
  destruct (Hal1 ptr Hpa) as [Hpa1 Hpr].
  (* the header of the old block is as before *)
  pose proof (mm_malloc_frame fuel size st l (l0 ++ [p]) b lb r st1
                Hok Hbd Hfuel ltac:(lia) Ela Hb Hmal) as Hsame.
  cbv zeta in Hsame. rewrite <- Hptr' in Hsame.
  assert (Hcs : GET_SIZE (mem st1) (HDRP ptr) = bsize b).
  { apply GET_SIZE_tag; [assumption|]. rewrite <- Hbh. unfold HDRP, WSIZE.
    apply (GET_same_on (ptr - 4) (ptr + bsize b - 8)); [assumption|lia|lia]. }
  rewrite Hcs.
  set (n := if size <? bsize b then size else bsize b).
  assert (Hn0 : 0 <= n <= size /\ n <= bsize b /\ Z.min size (bsize b - DSIZE) <= n).
  { unfold n, DSIZE. destruct (Z.ltb_spec size (bsize b)); lia. }
  set (stc := set_mem (memcpy (mem st1) r ptr n) st1).
  (* the copy stays inside the payload of the new block *)
  assert (Hokc : heap_ok stc l1).
  { apply (heap_ok_payload_write st1 l1 la1 nb lb1); try assumption.
    cbv zeta. rewrite Hhl1, <- Hr.
    apply (same_off_wider r (r + n)); [apply same_off_memcpy|lia|lia]. }
  (* the old block is freed *)
  assert (Hhlc : heap_listp stc = heap_listp st) by exact Hhl1.
  assert (Hpac : allocated_at stc (prologue :: l1) ptr).
  { apply (allocated_same_start st); [exact Hhlc|exact Hpa1]. }
  destruct (mm_free_heap stc l1 ptr Hokc Hpac) as (l2 & Hok2 & Hhl2 & Hbd2 & Hnaf2 & Hal2).
  { apply (boundary_same_start st); [exact Hhlc|exact Hbd1]. }
  { exact Hnaf1. }
  assert (Hra : allocated_at stc (prologue :: l1) r).
  { exists la1, nb, lb1. repeat split; try assumption. rewrite Hhlc. exact Hr. }
  exists r, (mm_free ptr stc), l2.
  split; [reflexivity|]. split; [exact Hn|]. split; [congruence|].
  split; [exact Hok2|]. split; [rewrite Hhl2; exact Hhlc|].
  split; [apply (boundary_same_start stc); [exact (eq_sym Hhlc)|exact Hbd2]|].
  split; [exact Hnaf2|].
  split.
  { apply (allocated_same_start stc); [exact (eq_sym Hhlc)|].
    apply Hal2; [congruence|exact Hra]. }
  split.
  { intros q Hq Ha. apply (allocated_same_start stc); [exact (eq_sym Hhlc)|].
    apply Hal2; [exact Hq|].
    apply (allocated_same_start st); [exact Hhlc|]. apply Hal1. exact Ha. }
  intros i Hi.
  (* the bytes copied survive the release of the old block *)
  destruct Hpa1 as (la' & b' & lb' & E' & Hla' & Hp' & Hb').
  destruct (list_last_split_ne la' Hla') as (l0' & p' & Ela').
  assert (E'' : prologue :: l1 = l0' ++ p' :: b' :: lb').
  { rewrite E', Ela', <- app_assoc. reflexivity. }
  pose proof (mm_free_frame stc l1 l0' p' b' lb' ptr la1 nb lb1 Hokc E'') as Hfr.
  cbv zeta in Hfr. rewrite Hhlc, <- Hr in Hfr.
  specialize (Hfr ltac:(rewrite Hp', Ela', total_app; simpl; lia) E1 Hnb ltac:(congruence)).
  rewrite (Hfr (r + i)) by (unfold WSIZE, DSIZE in *; lia).
  cbn [stc mem set_mem].
  rewrite memcpy_copied by lia.
  apply Hsame. unfold DSIZE in *. lia.
Qed.

Lemma mm_realloc_keeps_data_witness :
  mm_realloc 8 1016 200 heap_two = Some (Exits 1 heap_two)
  \/ exists newp st' l',
      mm_realloc 8 1016 200 heap_two = Some (Returns newp st')
      /\ newp <> NULL /\ newp <> 1016
      /\ heap_ok st' l'
      /\ heap_listp st' = heap_listp heap_two
      /\ boundary heap_two (prologue :: l') (next_fit st')
      /\ no_adj_free (prologue :: l')
      /\ allocated_at heap_two (prologue :: l') newp
      /\ (forall q, q <> 1016 ->
            allocated_at heap_two
              [prologue; mkblock 112 true; mkblock 16 true; mkblock 3968 false] q ->
            allocated_at heap_two (prologue :: l') q)
      /\ (forall i, 0 <= i < Z.min 200 (112 - DSIZE) ->
                    mem st' (newp + i) = mem heap_two (1016 + i)).
Proof.
  apply (mm_realloc_keeps_data 8 1016 200 heap_two _ [] prologue (mkblock 112 true)
           [mkblock 16 true; mkblock 3968 false] heap_two_ok).
  - exists [prologue; mkblock 112 true], [mkblock 16 true; mkblock 3968 false].
    split; vm_compute; reflexivity.
  - simpl. repeat split; auto.
  - simpl. lia.
  - vm_compute. split; [reflexivity|discriminate].
  - reflexivity.
  - reflexivity.
  - vm_compute. reflexivity.
Defined.

(** ** Allocating and freeing again *)

Lemma place_free_round_trip s l X f Y r asize :
  heap_ok s l -> prologue :: l = X ++ f :: Y ->
  r = heap_listp s + total X -> balloc f = false ->
  asize mod 8 = 0 -> 0 < asize <= bsize f ->
  boundary s (prologue :: l) (next_fit s) ->
  no_adj_free (prologue :: l) ->
  heap_ok (mm_free r (place r asize s)) l.
Proof.
  intros Hok E Hr Hf Hm Ha Hbd Hnaf.
  destruct (place_heap s l X f Y r asize Hok E Hr Hf Hm Ha Hbd)
    as (l' & E' & Hok' & Hhl' & _).
  pose proof (free_not_first X f Y l E Hf) as HX.
  destruct (list_last_split_ne X HX) as (X0 & pX & EX).
  rewrite E in Hnaf. apply no_adj_free_app in Hnaf.
  destruct Hnaf as (_ & HnY & Hlast).
  assert (HpX : balloc pX = true).
  { destruct Hlast as [H|H]; [|simpl in H; congruence].
    rewrite EX, last_alloc_app in H. exact H. }
  assert (HsY : succ_alloc Y = true).
  { simpl in HnY. destruct HnY as [[H|H] _]; [congruence|exact H]. }
  assert (Hs : exists a rest,
             split_block asize f = a :: rest
             /\ merge_next (mkblock (bsize a) false) (rest ++ Y) = f :: Y).
  { destruct f as [fs fa]. simpl in Hf. subst fa. unfold split_block. cbn [bsize].
    destruct (2 * DSIZE <=? fs - asize).
    - exists (mkblock asize true), [mkblock (fs - asize) false].
      split; [reflexivity|]. simpl. f_equal. f_equal. lia.
    - exists (mkblock fs true), []. split; [reflexivity|]. simpl.
      destruct Y as [|n Y']; [reflexivity|]. simpl in HsY. unfold merge_next. rewrite HsY. reflexivity. }
  destruct Hs as (a & rest & Es & Em).
  assert (E'' : prologue :: l' = X0 ++ pX :: a :: (rest ++ Y)).
  { rewrite E', Es, EX, <- app_assoc. reflexivity. }
  destruct (mm_free_shape (place r asize s) l' X0 pX a (rest ++ Y) r Hok' E'')
    as (l'' & El & Hok'' & _).
  { rewrite Hhl', Hr, EX, total_app. simpl. lia. }
  assert (l'' = l); [|subst; exact Hok''].
  unfold merged in El. rewrite HpX, Em in El.
  assert (El' : prologue :: l'' = prologue :: l).
  { rewrite El, E, EX, <- app_assoc. reflexivity. }
  injection El' as ->. reflexivity.
Qed.

Lemma mem_brk_place bp asize st : mem_brk (place bp asize st) = mem_brk st.
Proof.
  unfold place.
  repeat match goal with
         | |- context [if ?c then _ else _] => destruct c
         end; reflexivity.
Qed.

Lemma mem_brk_relocate bp size st : mem_brk (relocate bp size st) = mem_brk st.
Proof. unfold relocate. destruct (_ && _); reflexivity. Qed.

(** X17.  When a request of 1 to [SANE_MAX] bytes is served without
    growing the heap and the block returned is freed at once, the heap is
    well formed with the very sequence of blocks it had before the two
    calls. *)
Theorem mm_malloc_free_round_trip fuel size st l r st' :
  heap_ok st l ->
  boundary st (prologue :: l) (next_fit st) ->
  no_adj_free (prologue :: l) ->
  (length l + 1 < fuel)%nat ->
  0 < size <= SANE_MAX ->
  mm_malloc fuel size st = Some (r, st') -> r <> NULL ->
  mem_brk st' = mem_brk st ->
  heap_ok (mm_free r st') l.
Proof.
  intros Hok Hbd Hnaf Hfuel Hsize Hmal Hr Hbrk. unfold SANE_MAX in Hsize.
  assert (H32 : 2 ^ 31 < 2 ^ 32) by reflexivity.
  destruct (boundary_cursor _ _ Hbd) as (l1 & l2 & Hcur).
  rewrite (mm_malloc_cases fuel size st l l1 l2) in Hmal by (assumption || lia).
  destruct (adjust_size_sane size Hsize) as (Ham & Har & Hle & Her & Hem).
  set (asize := adjust_size size) in *.
  destruct (next_fit_search asize (heap_listp st) l1 l2) as [r0|] eqn:Es.
  - injection Hmal as <- <-.
    destruct (search_block _ _ _ _ _ _ Hok Hcur Es)
      as (X & f & Y & E & Hr0 & Hfa & Hfs & _).
    apply (place_free_round_trip (set_next_fit r0 st) l X f Y r0 asize);
      try assumption; try lia.
    + apply heap_ok_set_next_fit. exact Hok.
    + exists X, (f :: Y). split; [exact E|exact Hr0].
  - destruct (Z.ltb_spec (mem_max_addr st) (mem_brk st + extend_size asize)) as [Hf|Hf].
    + injection Hmal as <- _. contradiction.
    + exfalso. injection Hmal as _ <-.
      rewrite mem_brk_place in Hbrk. unfold grown in Hbrk.
      destruct (coalesce_globals (mem_brk st) (extended (extend_size asize) st))
        as (_ & Hb & _).
      rewrite Hb in Hbrk. unfold extended in Hbrk. simpl in Hbrk. lia.
Qed.

Lemma mm_malloc_free_round_trip_witness :
  heap_ok (mm_free (fst (run_malloc 24 heap_holes)) (snd (run_malloc 24 heap_holes)))
    [mkblock 16 false; mkblock 16 true; mkblock 4064 false].
Proof.
  apply (mm_malloc_free_round_trip 8 24 heap_holes _ _ _ heap_holes_ok).
  - exists [prologue; mkblock 16 false; mkblock 16 true], [mkblock 4064 false].
    split; vm_compute; reflexivity.
  - simpl. repeat split; auto.
  - simpl. lia.
  - vm_compute. split; [reflexivity|discriminate].
  - apply run_malloc_eq. vm_compute. discriminate.
  - vm_compute. discriminate.
  - vm_compute. reflexivity.
Defined.

(** ** Runs of a client *)

Lemma heap_init_reachable bound : reachable bound heap_init [].
Proof.
  apply (reach_init bound boot); [split; vm_compute; reflexivity|].
  unfold heap_init.
  assert (H : fst (mm_init boot) = 0) by (vm_compute; reflexivity).
  destruct (mm_init boot) as [r s]. simpl in H. subst r. reflexivity.
Qed.

Lemma heap_one_reachable : reachable SANE_MAX heap_one [1016].
Proof.
  apply (reach_malloc SANE_MAX heap_init [] 8 100 1016 _ (heap_init_reachable _)).
  - vm_compute. split; discriminate.
  - unfold heap_one. rewrite run_malloc_eq by (vm_compute; discriminate).
    replace (fst (run_malloc 100 heap_init)) with 1016 by (vm_compute; reflexivity).
    reflexivity.
Qed.

(** X18.  Every heap a client reaches from a successful [mm_init] with
    requests of at most [SANE_MAX] bytes, freeing only live pointers, is
    well formed, has its cursor on a block and no two free blocks
    adjacent, and holds the live pointers, all distinct, on allocated
    blocks. *)
Theorem reachable_heap_inv st live :
  reachable SANE_MAX st live -> heap_inv st live.
Proof. apply reachable_inv. Qed.

Lemma reachable_heap_inv_witness : heap_inv heap_one [1016].
Proof. apply (reachable_heap_inv heap_one [1016] heap_one_reachable). Defined.

(** X19.  On such a heap the walk of the code from [heap_listp] never
    finds a free block followed by a free block. *)
Theorem sane_runs_no_adjacent_free st live :
  reachable SANE_MAX st live -> ~ adjacent_free st.
Proof.
  intros H. destruct (reachable_inv _ _ H) as (l & Hok & _ & Hnaf & _).
  eapply no_adj_free_walk; eassumption.
Qed.

Lemma sane_runs_no_adjacent_free_witness : ~ adjacent_free heap_one.
Proof. apply (sane_runs_no_adjacent_free heap_one [1016] heap_one_reachable). Defined.

(** X20.  On such a heap every request of 1 to [SANE_MAX] bytes returns,
    given fuel for one pass over the blocks, and a pointer it returns is
    none of the live ones. *)
Theorem reachable_malloc_fresh st live size :
  reachable SANE_MAX st live ->
  0 < size <= SANE_MAX ->
  exists fuel r st',
    mm_malloc fuel size st = Some (r, st')
    /\ (r <> NULL -> ~ In r live)
    /\ reachable SANE_MAX st' (if r =? NULL then live else r :: live).
Proof.
  intros Hre Hsize.
  destruct (reachable_inv _ _ Hre) as (l & Hok & Hbd & Hnaf & _ & Hlive).
  destruct (mm_malloc_block (length l + 2) size st l Hok Hbd Hnaf ltac:(lia) Hsize)
    as (r & st' & l' & Hmal & _ & _ & _ & _ & Hal & _).
  exists (length l + 2)%nat, r, st'. split; [exact Hmal|]. split.
  - intros _ Hin. rewrite Forall_forall in Hlive.
    destruct (Hal r (Hlive r Hin)) as [_ Hne]. congruence.
  - apply (reach_malloc SANE_MAX st live (length l + 2) size r st' Hre);
      [lia|exact Hmal].
Qed.

Lemma reachable_malloc_fresh_witness :
  exists fuel r st',
    mm_malloc fuel 8 heap_one = Some (r, st')
    /\ (r <> NULL -> ~ In r [1016])
    /\ reachable SANE_MAX st' (if r =? NULL then [1016] else [r; 1016]).
Proof.
  apply (reachable_malloc_fresh heap_one [1016] 8 heap_one_reachable).
  vm_compute. split; [reflexivity|discriminate].
Defined.

(** ** The heap checker *)

Lemma checkblock_block st bp b :
  block_at (mem st) bp b -> bp mod 8 = 0 -> checkblock bp st = [].
Proof.
  intros (Hbok & Hh & Hf) Hal. unfold checkblock. rewrite Hal. simpl.
  unfold FTRP. rewrite (GET_SIZE_tag _ _ b Hbok Hh), Hh, Hf, Z.eqb_refl.
  reflexivity.
Qed.

Lemma printblock_block st bp b :
  block_at (mem st) bp b ->
  printblock bp st = block_lines bp [b].
Proof.
  intros (Hbok & Hh & Hf). destruct (block_ok_8 b Hbok) as [Hb8 _].
  unfold printblock, FTRP.
  rewrite (GET_SIZE_tag _ _ b Hbok Hh), (GET_ALLOC_tag _ _ b Hbok Hh).
  rewrite (GET_SIZE_tag _ _ b Hbok Hf), (GET_ALLOC_tag _ _ b Hbok Hf).
  destruct (Z.eqb_spec (bsize b) 0); [lia|]. reflexivity.
Qed.

Lemma epilogue_word m p :
  GET m p = PACK 0 1 -> GET_SIZE m p = 0 /\ GET_ALLOC m p = 1.
Proof.
  intros H. split.
  - apply (GET_SIZE_PACK _ _ 0 1); [vm_compute; split; [discriminate|reflexivity]
                                    |reflexivity|lia|exact H].
  - apply (GET_ALLOC_PACK _ _ 0 1); [vm_compute; split; [discriminate|reflexivity]
                                     |reflexivity|lia|exact H].
Qed.

Lemma checkheap_loop_blocks st verbose l : forall fuel bp,
  blocks_at (mem st) bp l ->
  GET (mem st) (HDRP (bp + total l)) = PACK 0 1 ->
  bp mod 8 = 0 ->
  (length l < fuel)%nat ->
  checkheap_loop fuel verbose bp st =
  Some (bp + total l, if negb (verbose =? 0) then block_lines bp l else []).
Proof.
  induction l as [|b l IH]; intros fuel bp Hbl Hep Hal Hfuel.
  - destruct fuel as [|fuel]; [simpl in Hfuel; lia|].
    simpl in Hep. rewrite Z.add_0_r in Hep.
    destruct (epilogue_word _ _ Hep) as [Hs _].
    simpl. rewrite Hs. simpl. rewrite Z.add_0_r.
    destruct (negb (verbose =? 0)); reflexivity.
  - destruct fuel as [|fuel]; [simpl in Hfuel; lia|].
    destruct Hbl as [Hb Hbl].
    pose proof Hb as (Hbok & Hh & _). destruct (block_ok_8 b Hbok) as [Hb8 Hbm].
    cbn [checkheap_loop]. rewrite (GET_SIZE_tag _ _ b Hbok Hh).
    destruct (Z.gtb_spec (bsize b) 0); [|lia].
    assert (Hn : NEXT_BLKP (mem st) bp = bp + bsize b).
    { unfold NEXT_BLKP. fold (HDRP bp). rewrite (GET_SIZE_tag _ _ b Hbok Hh). reflexivity. }
    rewrite Hn.
    rewrite (IH fuel (bp + bsize b)); try assumption.
    + rewrite (checkblock_block st bp b Hb Hal). cbn [total].
      rewrite Z.add_assoc. f_equal. f_equal.
      destruct (negb (verbose =? 0)); [|reflexivity].
      rewrite (printblock_block st bp b Hb). reflexivity.
    + cbn [total] in Hep. rewrite Z.add_assoc in Hep. exact Hep.
    + apply mod8_add; assumption.
    + simpl in Hfuel. lia.
Qed.

Lemma mm_checkheap_blocks fuel verbose st l :
  heap_ok st l -> heap_listp st mod 8 = 0 ->
  (length l + 1 < fuel)%nat ->
  mm_checkheap fuel verbose st =
  Some (if negb (verbose =? 0)
        then Heap_line (heap_listp st)
             :: block_lines (heap_listp st) (prologue :: l)
             ++ [EOL_line (mem_brk st)]
        else []).
Proof.
  intros Hok Hal Hfuel.
  pose proof (ok_blocks _ _ Hok) as Hbl. pose proof (ok_epilogue _ _ Hok) as Hep.
  pose proof (ok_brk _ _ Hok) as Hbrk.
  unfold mm_checkheap.
  rewrite (checkheap_loop_blocks st verbose (prologue :: l) fuel (heap_listp st));
    try assumption; [|rewrite <- Hbrk; exact Hep|simpl; lia].
  rewrite <- Hbrk.
  destruct Hbl as [Hp _]. pose proof Hp as (Hpok & Hph & _).
  rewrite (GET_SIZE_tag _ _ prologue Hpok Hph), (GET_ALLOC_tag _ _ prologue Hpok Hph).
  rewrite (checkblock_block st _ prologue Hp Hal).
  destruct (epilogue_word _ _ Hep) as [Hes Hea].
  rewrite Hes, Hea. unfold printblock. rewrite Hes.
  cbn [prologue bsize balloc Z.b2z]. simpl.
  destruct (negb (verbose =? 0)); reflexivity.
Qed.

(** X21.  On a well-formed heap whose [heap_listp] is a multiple of 8,
    [mm_checkheap(0)] ends, given fuel for one pass over the blocks, and
    prints nothing; free blocks next to each other do not make it
    speak. *)
Theorem mm_checkheap_silent fuel st l :
  heap_ok st l -> heap_listp st mod 8 = 0 ->
  (length l + 1 < fuel)%nat ->
  mm_checkheap fuel 0 st = Some [].
Proof.
  intros Hok Hal Hfuel.
  rewrite (mm_checkheap_blocks fuel 0 st l Hok Hal Hfuel). reflexivity.
Qed.

Lemma mm_checkheap_silent_witness : mm_checkheap 5 0 heap_marked = Some [].
Proof.
  apply (mm_checkheap_silent 5 heap_marked _ heap_marked_ok).
  - reflexivity.
  - simpl. lia.
Defined.

(** X22.  With a non-zero [verbose] it prints, on such a heap, the line
    of [heap_listp], one line for each block from the prologue on with the
    size and the flag of both tags, and the end-of-list line of the
    epilogue, and nothing else. *)
Theorem mm_checkheap_verbose fuel verbose st l :
  heap_ok st l -> heap_listp st mod 8 = 0 ->
  (length l + 1 < fuel)%nat ->
  verbose <> 0 ->
  mm_checkheap fuel verbose st =
  Some (Heap_line (heap_listp st)
        :: block_lines (heap_listp st) (prologue :: l)
        ++ [EOL_line (mem_brk st)]).
Proof.
  intros Hok Hal Hfuel Hv.
  rewrite (mm_checkheap_blocks fuel verbose st l Hok Hal Hfuel).
  destruct (Z.eqb_spec verbose 0); [contradiction|reflexivity].
Qed.

Lemma mm_checkheap_verbose_witness :
  mm_checkheap 4 1 heap_one =
  Some [Heap_line 1008;
        Block_line 1008 8 "a" 8 "a";
        Block_line 1016 112 "a" 112 "a";
        Block_line 1128 3984 "f" 3984 "f";
        EOL_line 5112].
Proof.
  apply (mm_checkheap_verbose 4 1 heap_one _ heap_one_ok).
  - reflexivity.
  - simpl. lia.
  - discriminate.
Defined.

Lemma checkblock_silent bp st :
  checkblock bp st = [] ->
  bp mod 8 = 0 /\ GET (mem st) (HDRP bp) = GET (mem st) (FTRP (mem st) bp).
Proof.
  unfold checkblock. intros H.
  destruct (Z.eqb_spec (bp mod 8) 0) as [E1|E1]; [|discriminate].
  destruct (Z.eqb_spec (GET (mem st) (HDRP bp)) (GET (mem st) (FTRP (mem st) bp)))
    as [E2|E2]; [|discriminate].
  split; assumption.
Qed.

Lemma checkheap_loop_step fuel bp st e :
  checkheap_loop fuel 0 bp st = Some (e, []) ->
  GET_SIZE (mem st) (HDRP bp) > 0 ->
  checkblock bp st = []
  /\ exists fuel', checkheap_loop fuel' 0 (NEXT_BLKP (mem st) bp) st = Some (e, []).
Proof.
  intros H Hs. destruct fuel as [|fuel]; [discriminate|].
  cbn [checkheap_loop] in H.
  destruct (Z.gtb_spec (GET_SIZE (mem st) (HDRP bp)) 0); [|lia].
  destruct (checkheap_loop fuel 0 (NEXT_BLKP (mem st) bp) st) as [[e' out]|] eqn:E;
    [|discriminate].
  simpl in H. injection H as -> H.
  apply app_eq_nil in H. destruct H as [H1 ->].
  split; [exact H1|]. exists fuel. exact E.
Qed.

Lemma checkheap_loop_end fuel bp st e out :
  checkheap_loop fuel 0 bp st = Some (e, out) ->
  (walk st bp -> walk st e) /\ GET_SIZE (mem st) (HDRP e) <= 0.
Proof.
  revert bp out. induction fuel as [|fuel IH]; intros bp out H; [discriminate|].
  cbn [checkheap_loop] in H.
  destruct (Z.gtb_spec (GET_SIZE (mem st) (HDRP bp)) 0) as [Hs|Hs].
  - destruct (checkheap_loop fuel 0 (NEXT_BLKP (mem st) bp) st) as [[e' out']|] eqn:E;
      [|discriminate].
    injection H as -> _. destruct (IH _ _ E) as [Hw Hz].
    split; [|exact Hz]. intros Hb. apply Hw. apply walk_next; [exact Hb|lia].
  - injection H as <- _. split; [auto|lia].
Qed.

(** X23.  When [mm_checkheap(0)] ends without printing, the prologue
    header holds size 8 and the allocated flag, every block the walk from
    [heap_listp] visits sits at a multiple of 8 and has the same word in
    header and footer, and the walk ends at a header of size 0 with the
    allocated flag. *)
Theorem mm_checkheap_sound fuel st :
  mm_checkheap fuel 0 st = Some [] ->
  GET_SIZE (mem st) (HDRP (heap_listp st)) = DSIZE
  /\ GET_ALLOC (mem st) (HDRP (heap_listp st)) <> 0
  /\ (forall bp, walk st bp -> GET_SIZE (mem st) (HDRP bp) > 0 ->
        bp mod 8 = 0
        /\ GET (mem st) (HDRP bp) = GET (mem st) (FTRP (mem st) bp))
  /\ exists e, walk st e /\ GET_SIZE (mem st) (HDRP e) = 0
               /\ GET_ALLOC (mem st) (HDRP e) <> 0.
Proof.
  unfold mm_checkheap. intros H.
  destruct (checkheap_loop fuel 0 (heap_listp st) st) as [[e out]|] eqn:E;
    [|discriminate].
  injection H as H. simpl in H.
  apply app_eq_nil in H. destruct H as [H2 H].
  apply app_eq_nil in H. destruct H as [_ H].
  apply app_eq_nil in H. destruct H as [-> H6].
  destruct (Z.eqb_spec (GET_SIZE (mem st) (HDRP (heap_listp st))) DSIZE) as [Hp|Hp];
    [|discriminate].
  destruct (Z.eqb_spec (GET_ALLOC (mem st) (HDRP (heap_listp st))) 0) as [Hq|Hq];
    [discriminate|].
  destruct (Z.eqb_spec (GET_SIZE (mem st) (HDRP e)) 0) as [He|He]; [|discriminate].
  destruct (Z.eqb_spec (GET_ALLOC (mem st) (HDRP e)) 0) as [Hf|Hf]; [discriminate|].
  split; [exact Hp|]. split; [exact Hq|]. split.
  - assert (Hall : forall bp, walk st bp ->
                     exists fuel', checkheap_loop fuel' 0 bp st = Some (e, [])).
    { intros bp Hw. induction Hw as [|bp Hw IH Hs].
      - exists fuel. exact E.
      - destruct IH as [fuel' IH].
        destruct (checkheap_loop_step fuel' bp st e IH Hs) as [_ Hn]. exact Hn. }
    intros bp Hw Hs. destruct (Hall bp Hw) as [fuel' Hl].
    destruct (checkheap_loop_step fuel' bp st e Hl Hs) as [Hc _].
    apply checkblock_silent. exact Hc.
  - exists e. destruct (checkheap_loop_end _ _ _ _ _ E) as [Hw _].
    split; [apply Hw, walk_start|]. split; assumption.
Qed.

Lemma mm_checkheap_sound_witness :
  GET_SIZE (mem heap_holes) (HDRP (heap_listp heap_holes)) = DSIZE
  /\ GET_ALLOC (mem heap_holes) (HDRP (heap_listp heap_holes)) <> 0
  /\ (forall bp, walk heap_holes bp -> GET_SIZE (mem heap_holes) (HDRP bp) > 0 ->
        bp mod 8 = 0
        /\ GET (mem heap_holes) (HDRP bp)
           = GET (mem heap_holes) (FTRP (mem heap_holes) bp))
  /\ exists e, walk heap_holes e /\ GET_SIZE (mem heap_holes) (HDRP e) = 0
               /\ GET_ALLOC (mem heap_holes) (HDRP e) <> 0.
Proof.
  apply (mm_checkheap_sound 5 heap_holes). vm_compute. reflexivity.
Defined.

(** ** Where the size arithmetic is exact *)

(** X24.  For a request of 1 to 2^32 - 16 bytes the adjusted size is the
    least multiple of 8 that holds the request and the two tags, and is at
    least 16. *)
Theorem adjust_size_exact size :
  0 < size <= 2 ^ 32 - 16 ->
  adjust_size size mod DSIZE = 0
  /\ size + 2 * WSIZE <= adjust_size size
  /\ (forall k, k mod DSIZE = 0 -> size + 2 * WSIZE <= k -> adjust_size size <= k)
  /\ 4 * WSIZE <= adjust_size size.
Proof. apply adjust_size_least. Qed.

Lemma adjust_size_exact_witness :
  adjust_size 100 mod DSIZE = 0
  /\ 100 + 2 * WSIZE <= adjust_size 100
  /\ (forall k, k mod DSIZE = 0 -> 100 + 2 * WSIZE <= k -> adjust_size 100 <= k)
  /\ 4 * WSIZE <= adjust_size 100.
Proof.
  apply (adjust_size_exact 100). vm_compute. split; [reflexivity|discriminate].
Defined.

Lemma fits_or_not asize (L : list block) :
  existsb (block_fits asize) L = false
  <-> Forall (fun b => block_fits asize b = false) L.
Proof.
  induction L as [|b L IH]; simpl.
  - split; [constructor|reflexivity].
  - rewrite orb_false_iff, IH. split.
    + intros [H1 H2]. constructor; assumption.
    + intros H. split; [exact (Forall_inv H)|exact (Forall_inv_tail H)].
Qed.

(** X25.  A request of 1 to [SANE_MAX] bytes leaves the break where it was
    when some block of the heap fits the adjusted size or when null comes
    back; otherwise it moves the break up by the larger of the adjusted
    size and [CHUNKSIZE].  The hard limit is never moved. *)
Theorem mm_malloc_growth fuel size st l r st' :
  heap_ok st l ->
  boundary st (prologue :: l) (next_fit st) ->
  (length l + 1 < fuel)%nat ->
  0 < size <= SANE_MAX ->
  mm_malloc fuel size st = Some (r, st') ->
  mem_brk st' =
  mem_brk st
  + (if existsb (block_fits (adjust_size size)) (prologue :: l) || (r =? NULL)
     then 0 else Z.max (adjust_size size) CHUNKSIZE).
Proof.
  intros Hok Hbd Hfuel Hsize Hmal. unfold SANE_MAX in Hsize.
  assert (H32 : 2 ^ 31 < 2 ^ 32) by reflexivity.
  destruct (boundary_cursor _ _ Hbd) as (l1 & l2 & Hcur).
  rewrite (mm_malloc_cases fuel size st l l1 l2) in Hmal by (assumption || lia).
  destruct (adjust_size_sane size Hsize) as (Ham & Har & Hle & Her & Hem).
  set (asize := adjust_size size) in *.
  destruct Hcur as [Ec Hc].
  destruct (next_fit_search asize (heap_listp st) l1 l2) as [r0|] eqn:Es.
  - injection Hmal as <- <-. rewrite mem_brk_place. cbn [mem_brk set_next_fit].
    destruct (existsb (block_fits asize) (prologue :: l)) eqn:Ex; [simpl; lia|].
    apply fits_or_not in Ex. rewrite Ec in Ex.
    apply next_fit_search_none with (start := heap_listp st) in Ex. congruence.
  - apply next_fit_search_none in Es. rewrite <- Ec in Es.
    apply fits_or_not in Es. rewrite Es. cbn [orb].
    destruct (Z.ltb_spec (mem_max_addr st) (mem_brk st + extend_size asize)) as [Hf|Hf].
    + injection Hmal as <- <-. simpl. lia.
    + injection Hmal as <- <-.
      pose proof (grown_nonnull asize st l Hok ltac:(lia) Ham Hf) as Hnn.
      pose proof (ok_base _ _ Hok) as Hbase. unfold DSIZE in Hbase.
      destruct (Z.eqb_spec (fst (grown asize st)) NULL) as [E0|_];
        [unfold NULL in E0; lia|].
      rewrite mem_brk_place. unfold grown.
      destruct (coalesce_globals (mem_brk st) (extended (extend_size asize) st))
        as (_ & -> & _).
      unfold extended. cbn [mem_brk set_mem set_brk].
      rewrite extend_size_value by lia.
      destruct (Z.ltb_spec asize (2 ^ 31)); [|lia].
      reflexivity.
Qed.

Lemma mm_malloc_growth_witness :
  mem_brk (snd (run_malloc 5000 heap_one)) =
  mem_brk heap_one
  + (if existsb (block_fits (adjust_size 5000))
          [prologue; mkblock 112 true; mkblock 3984 false]
        || (fst (run_malloc 5000 heap_one) =? NULL)
     then 0 else Z.max (adjust_size 5000) CHUNKSIZE).
Proof.
  apply (mm_malloc_growth 8 5000 heap_one _ _ _ heap_one_ok).
  - exists [prologue], [mkblock 112 true; mkblock 3984 false].
    split; vm_compute; reflexivity.
  - simpl. lia.
  - vm_compute. split; [reflexivity|discriminate].
  - apply run_malloc_eq. vm_compute. discriminate.
Defined.

(** ** The first allocation *)

(** X26.  After a successful [mm_init], the first request of 1 to
    [CHUNKSIZE] - 8 bytes returns the block pointer four words above the
    break [mm_init] started from, which is the first block after the
    prologue. *)
Theorem first_allocation fuel size st0 st :
  mem_system st0 -> mm_init st0 = (0, st) ->
  (2 < fuel)%nat ->
  0 < size <= CHUNKSIZE - 2 * WSIZE ->
  exists st', mm_malloc fuel size st = Some (mem_brk st0 + 4 * WSIZE, st').
Proof.
  intros Hsys Hinit Hfuel Hsize.
  pose proof (mm_init_room st0 st Hsys Hinit) as Hroom.
  destruct Hsys as [Hpos Hlim].
  destruct (mm_init_ok st0 Hpos Hroom Hlim) as (st1 & E & Hok & Hcur).
  rewrite Hinit in E. injection E as <-.
  assert (Hhl : heap_listp st = mem_brk st0 + 2 * WSIZE).
  { pose proof (mm_init_heap_listp st0) as H. rewrite Hinit in H. apply H.
    - change CHUNKSIZE with 4096 in Hroom. lia.
    - lia. }
  change CHUNKSIZE with 4096 in *. unfold WSIZE in *.
  rewrite (mm_malloc_cases fuel size st _ _ _ Hok Hcur)
    by (simpl; try lia; change (2 ^ 32) with 4294967296; lia).
  destruct (adjust_size_least size) as (_ & _ & Hleast & _);
    [change (2 ^ 32) with 4294967296; lia|].
  specialize (Hleast 4096 eq_refl ltac:(unfold WSIZE; lia)).
  unfold next_fit_search. cbn [total first_fit prologue block_fits balloc bsize negb andb].
  destruct (Z.leb_spec (adjust_size size) 4096); [|lia].
  eexists. f_equal. f_equal. unfold DSIZE. lia.
Qed.

Lemma first_allocation_witness :
  exists st', mm_malloc 3 100 heap_init = Some (mem_brk boot + 4 * WSIZE, st').
Proof.
  apply (first_allocation 3 100 boot heap_init).
  - split; vm_compute; reflexivity.
  - unfold heap_init.
    assert (H : fst (mm_init boot) = 0) by (vm_compute; reflexivity).
    destruct (mm_init boot) as [r s]. simpl in H. subst r. reflexivity.
  - lia.
  - vm_compute. split; [reflexivity|discriminate].
Defined.

(** ** Null results *)

(** X27.  On a well-formed heap with its cursor on a block and no two
    free blocks adjacent, a request of 0 to [SANE_MAX] bytes returns, given
    fuel for one pass over the blocks.  The result is null exactly when
    the request is for 0 bytes, or no block fits the adjusted size and
    [mem_sbrk] refuses the growth asked of it; a null result leaves the
    state as it was.  Any other result is an allocated block, with room
    for the payload and the two tags, of a heap that is again well
    formed. *)
Theorem mm_malloc_null_iff_sane fuel size st l :
  heap_ok st l ->
  boundary st (prologue :: l) (next_fit st) ->
  no_adj_free (prologue :: l) ->
  (length l + 1 < fuel)%nat ->
  0 <= size <= SANE_MAX ->
  exists r st' l',
    mm_malloc fuel size st = Some (r, st')
    /\ (r = NULL <->
        size = 0
        \/ (Forall (fun b => block_fits (adjust_size size) b = false)
              (prologue :: l)
            /\ fst (mem_sbrk (growth_request size) st) = -1))
    /\ (r = NULL -> st' = st)
    /\ heap_ok st' l'
    /\ (r <> NULL ->
        exists la b lb,
          prologue :: l' = la ++ b :: lb /\ la <> []
          /\ r = heap_listp st' + total la
          /\ balloc b = true /\ size + 2 * WSIZE <= bsize b).
Proof.
  intros Hok Hbd Hnaf Hfuel Hsize. unfold SANE_MAX in Hsize.
  assert (H32 : 2 ^ 31 < 2 ^ 32) by reflexivity.
  destruct (boundary_cursor _ _ Hbd) as (l1 & l2 & Hcur).
  destruct (mm_malloc_returns fuel size st l l1 l2 Hok Hcur Hfuel ltac:(lia))
    as (r & st' & Hmal & Hiff).
  assert (Hnull : r = NULL -> st' = st).
  { intros ->. apply (mm_malloc_null_state fuel size st l st' Hok Hbd Hfuel);
      [lia|exact Hmal]. }
  destruct (Z.eq_dec size 0) as [Hz|Hz].
  - assert (Hr : r = NULL) by (apply Hiff; left; exact Hz).
    exists r, st', l. split; [exact Hmal|]. split; [exact Hiff|].
    split; [exact Hnull|]. split; [rewrite (Hnull Hr); exact Hok|].
    intros Hn. contradiction.
  - destruct (mm_malloc_block fuel size st l Hok Hbd Hnaf Hfuel ltac:(lia))
      as (r' & st'' & l' & Hmal' & Hok' & Hhl' & _ & _ & _ & Hblk).
    rewrite Hmal in Hmal'. injection Hmal' as <- <-.
    exists r, st', l'. split; [exact Hmal|]. split; [exact Hiff|].
    split; [exact Hnull|]. split; [exact Hok'|].
    intros Hn. destruct (Hblk Hn) as (la & b & lb & E & Hla & Hp & Hb & Hs).
    exists la, b, lb. rewrite Hhl'. repeat (split; [assumption|]).
    destruct (adjust_size_least size ltac:(lia)) as (_ & Hle & _). lia.
Qed.

Lemma mm_malloc_null_iff_sane_witness :
  exists r st' l',
    mm_malloc 4 100 heap_init = Some (r, st')
    /\ (r = NULL <->
        100 = 0
        \/ (Forall (fun b => block_fits (adjust_size 100) b = false)
              [prologue; mkblock 4096 false]
            /\ fst (mem_sbrk (growth_request 100) heap_init) = -1))
    /\ (r = NULL -> st' = heap_init)
    /\ heap_ok st' l'
    /\ (r <> NULL ->
        exists la b lb,
          prologue :: l' = la ++ b :: lb /\ la <> []
          /\ r = heap_listp st' + total la
          /\ balloc b = true /\ 100 + 2 * WSIZE <= bsize b).
Proof.
  apply (mm_malloc_null_iff_sane 4 100 heap_init _ heap_init_ok).
  - exists [], [prologue; mkblock 4096 false]. split; vm_compute; reflexivity.
  - simpl. auto.
  - simpl. lia.
  - vm_compute. split; discriminate.
Defined.

